(** * Compressed sparse matrices of cupyx.scipy.sparse

    A shallow embedding of [cupyx/scipy/sparse/_compressed.py]: the class
    [_compressed_sparse_matrix] with its three backing arrays [data],
    [indices] and [indptr], the device kernels it launches (written in the
    source as CUDA strings) and the Python methods that drive them.

    Conventions of the embedding.
    - Device and host integers ([int], [int32], index dtypes) are [Z].
      Where sizes add up, in the counters and prefix sums of minor-axis
      indexing, the [int32] additions are written with their wrap-around
      ([int32]).  Offsets into an array at hand, their differences and
      their increments stay below the size of that array and are written
      in [Z]; so is the arithmetic of batch insertion, whose index dtype
      the source widens to hold [nnz + x.size].
    - The entry IDs of batch set and batch zero are [float32] in the
      source; a [float32] that holds an integer is that integer, and the
      conversion to [float32] is written with its rounding.
    - [double] values are Rocq's primitive binary64 floats ([PrimFloat]):
      comparisons, NaN and [x != x] are the IEEE ones.
    - An array is a [list]; [rd oob a i] is the C read [a[i]].  A read past
      the end of a buffer returns [oob], a value the program does not
      control.
    - A kernel launch over independent blocks is the list of the per-block
      results in block order. *)

From Stdlib Require Import ZArith Floats DecimalString.
From stdpp Require Import base list sorting strings.

Open Scope Z_scope.

(** ** Arrays *)

Section Arrays.
Context {A : Type}.

(** [a[i]] on a device buffer. *)
Definition rd (oob : A) (a : list A) (i : Z) : A :=
  if decide (0 ≤ i) then default oob (a !! Z.to_nat i) else oob.

(** [a[i] = v]; a write outside the buffer is not modelled (no change). *)
Definition wr (a : list A) (i : Z) (v : A) : list A :=
  if decide (0 ≤ i) then <[Z.to_nat i := v]> a else a.

(** [a[lo:hi]] for [0 <= lo]. *)
Definition slice (a : list A) (lo hi : Z) : list A :=
  take (Z.to_nat (hi - lo)) (drop (Z.to_nat lo) a).

(** [a.size] *)
Definition size (a : list A) : Z := Z.of_nat (length a).
End Arrays.

(** An [int] of the device code, an [int32] of the host code: the result
    of an addition or a subtraction is taken modulo 2^32 into
    [-2^31, 2^31). *)
Definition int32 (z : Z) : Z := (z + 2 ^ 31) mod 2 ^ 32 - 2 ^ 31.

(** ** The matrix object *)

Inductive format := CSR | CSC.

(** Modelled from the spec: [_swap] is abstract in
    [_compressed_sparse_matrix] and its two implementations are not part of
    the sources at hand.  The spec has a format tag, row-major (CSR) or
    column-major (CSC), and a [swap] between (row, col) and (major, minor)
    applied at the format boundary: the identity for CSR, the exchange for
    CSC. *)
Definition _swap {A} (f : format) (x y : A) : A * A :=
  match f with CSR => (x, y) | CSC => (y, x) end.

(** The Python attributes [_has_sorted_indices] and [_has_canonical_format]
    may be missing from the object ([hasattr] is false): [None]. *)
Record matrix := Matrix {
  fmt : format;
  shape : Z * Z;
  data : list float;
  indices : list Z;
  indptr : list Z;
  _has_sorted_indices : option bool;
  _has_canonical_format : option bool
}.

Definition major_dim (m : matrix) : Z := fst (_swap (fmt m) (fst (shape m)) (snd (shape m))).
Definition minor_dim (m : matrix) : Z := snd (_swap (fmt m) (fst (shape m)) (snd (shape m))).

(** [getnnz(axis=None)]: [self.data.size] *)
Definition nnz (m : matrix) : Z := size (data m).

(** [self.shape[k]] *)
Definition shape_at (m : matrix) (k : Z) : Z :=
  if decide (k = 0) then fst (shape m) else snd (shape m).

(** ** Reduction kernels *)

(** [${op}]: [>] for the max kernels, [<] for the min kernels. *)
Inductive red_op := op_gt | op_lt.

Definition cmp (op : red_op) (a b : float) : bool :=
  match op with
  | op_gt => PrimFloat.ltb b a
  | op_lt => PrimFloat.ltb a b
  end.

(** [${cond}]: [block_length == length] for [max_reduction] and
    [min_reduction], [block_length > 0] for the two [nonzero] kernels. *)
Inductive red_cond := cond_dense | cond_nonzero.

Definition eval_cond (c : red_cond) (block_length length : Z) : bool :=
  match c with
  | cond_dense => bool_decide (block_length = length)
  | cond_nonzero => bool_decide (block_length > 0)
  end.

(** [data[entry] != data[entry]] *)
Definition self_ne (v : float) : bool := negb (PrimFloat.eqb v v).

Section Reductions.
(** What device memory holds past the end of [data] and of [indices]. *)
Variable oob_data : float.
Variable oob_index : Z.

(** The loop [for (entry = x[tid]; entry < y[tid]; entry++)] of
    [_max_min_reduction_code], over the entries still to visit. *)
Fixpoint reduction_scan (op : red_op) (data : list float)
    (entries : list Z) (running_value : float) : float :=
  match entries with
  | [] => running_value
  | entry :: rest =>
      let d := rd oob_data data entry in
      if self_ne d then PrimFloat.nan
      else reduction_scan op data rest
             (if cmp op d running_value then d else running_value)
  end.

(** "Select initial value based on the block density" *)
Definition reduction_init (c : red_cond) (data : list float)
    (x y : list Z) (length tid : Z) : float :=
  let block_length := rd oob_index y tid - rd oob_index x tid in
  if eval_cond c block_length length
  then rd oob_data data (rd oob_index x tid)
  else 0%float.

(** One block of [${func}]: the value stored in [z[tid]]. *)
Definition max_min_reduction (op : red_op) (c : red_cond)
    (data : list float) (x y : list Z) (length tid : Z) : float :=
  let xt := rd oob_index x tid in
  let yt := rd oob_index y tid in
  reduction_scan op data (seqZ xt (yt - xt))
    (reduction_init c data x y length tid).

Inductive ufunc := amax | amin.

Definition ufunc_op (u : ufunc) : red_op :=
  match u with amax => op_gt | amin => op_lt end.

(** [_minor_reduce(self, ufunc, axis, nonzero)] *)
Definition _minor_reduce (m : matrix) (u : ufunc) (axis : Z)
    (nonzero : bool) : list float :=
  let out_shape := shape_at m (1 - axis) in
  let c := if nonzero then cond_nonzero else cond_dense in
  let x := take (length (indptr m) - 1) (indptr m) in
  let y := drop 1 (indptr m) in
  (λ tid, max_min_reduction (ufunc_op u) c (data m) x y
            (shape_at m axis) tid) <$> seqZ 0 out_shape.

(** The loop [for (data_index = 0; data_index < length; data_index++)] of
    [_argmax_argmin_code]: [cands] are the values of [data_index] still
    to try; falling off the end leaves [data_index == length]. *)
Fixpoint gap_scan (indices : list Z) (xt yt length : Z)
    (cands : list Z) : Z :=
  match cands with
  | [] => length
  | data_index :: rest =>
      if bool_decide (data_index ≠ rd oob_index indices (xt + data_index))
         || bool_decide (xt + data_index >= yt)
      then data_index
      else gap_scan indices xt yt length rest
  end.

(** The pair [(data_index, data_value)] before the main loop. *)
Definition arg_init (data : list float) (indices x y : list Z)
    (length tid : Z) : Z * float :=
  let xt := rd oob_index x tid in
  let yt := rd oob_index y tid in
  let block_length := yt - xt in
  if decide (block_length = length) then
    (rd oob_index indices xt, rd oob_data data xt)
  else if decide (block_length > 0) then
    (gap_scan indices xt yt length (seqZ 0 length), 0%float)
  else (0, 0%float).

(** "Iterate over the section of the sparse matrix" *)
Fixpoint arg_scan (op : red_op) (data : list float) (indices : list Z)
    (entries : list Z) (st : Z * float) : Z * float :=
  match entries with
  | [] => st
  | entry :: rest =>
      let d := rd oob_data data entry in
      if self_ne d then (0, PrimFloat.nan)
      else arg_scan op data indices rest
             (if cmp op d (snd st)
              then (rd oob_index indices entry, d) else st)
  end.

(** One block of [${func}_arg_reduction]: the value stored in [z[tid]]. *)
Definition arg_reduction (op : red_op) (data : list float)
    (indices x y : list Z) (length tid : Z) : Z :=
  let xt := rd oob_index x tid in
  let yt := rd oob_index y tid in
  fst (arg_scan op data indices (seqZ xt (yt - xt))
         (arg_init data indices x y length tid)).

Inductive arg_ufunc := argmax | argmin.

Definition arg_ufunc_op (u : arg_ufunc) : red_op :=
  match u with argmax => op_gt | argmin => op_lt end.

(** [_arg_minor_reduce(self, ufunc, axis)] *)
Definition _arg_minor_reduce (m : matrix) (u : arg_ufunc) (axis : Z)
    : list Z :=
  let out_shape := shape_at m (1 - axis) in
  let x := take (length (indptr m) - 1) (indptr m) in
  let y := drop 1 (indptr m) in
  (λ tid, arg_reduction (arg_ufunc_op u) (data m) (indices m) x y
            (shape_at m axis) tid) <$> seqZ 0 out_shape.
End Reductions.

(** ** Cached format flags *)

(** One work item of [_has_sorted_indices_kern]. *)
Definition _has_sorted_indices_kern (indptr indices : list Z) (i : Z) : bool :=
  foldl (λ diff_out jj,
           if bool_decide (rd 0 indices jj > rd 0 indices (jj + 1))
           then false else diff_out)
        true
        (seqZ (rd 0 indptr i) (rd 0 indptr (i + 1) - 1 - rd 0 indptr i)).

(** One work item of [_has_canonical_format_kern]. *)
Definition _has_canonical_format_kern (indptr indices : list Z) (i : Z) : bool :=
  if bool_decide (rd 0 indptr i > rd 0 indptr (i + 1)) then false
  else
    foldl (λ diff_out jj,
             if bool_decide (rd 0 indices jj >= rd 0 indices (jj + 1))
             then false else diff_out)
          true
          (seqZ (rd 0 indptr i) (rd 0 indptr (i + 1) - 1 - rd 0 indptr i)).

(** [kern(self.indptr, self.indices, size=self.indptr.size-1).all()] *)
Definition launch_all (kern : list Z → list Z → Z → bool) (m : matrix) : bool :=
  forallb (kern (indptr m) (indices m)) (seqZ 0 (size (indptr m) - 1)).

(** What a property read gives back: the value, the object after the read
    (the getters assign the cache attributes) and whether a check kernel
    was launched. *)
Record flag_read := FlagRead {
  read_value : bool;
  read_self : matrix;
  read_launched : bool
}.

Definition set_sorted_attr (m : matrix) (v : option bool) : matrix :=
  Matrix (fmt m) (shape m) (data m) (indices m) (indptr m)
         v (_has_canonical_format m).

Definition set_canonical_attr (m : matrix) (v : option bool) : matrix :=
  Matrix (fmt m) (shape m) (data m) (indices m) (indptr m)
         (_has_sorted_indices m) v.

(** [__get_sorted] *)
Definition get_has_sorted_indices (m : matrix) : flag_read :=
  if decide (size (data m) = 0) then
    FlagRead true (set_sorted_attr m (Some true)) false
  else
    match _has_sorted_indices m with
    | None =>
        let is_sorted := launch_all _has_sorted_indices_kern m in
        FlagRead is_sorted (set_sorted_attr m (Some is_sorted)) true
    | Some v => FlagRead v m false
    end.

(** [__set_sorted] *)
Definition set_has_sorted_indices (m : matrix) (val : bool) : matrix :=
  set_sorted_attr m (Some val).

(** [__get_has_canonical_format] *)
Definition get_has_canonical_format (m : matrix) : flag_read :=
  if decide (size (data m) = 0) then
    FlagRead true (set_canonical_attr m (Some true)) false
  else if negb (default true (_has_sorted_indices m)) then
    FlagRead false (set_canonical_attr m (Some false)) false
  else
    match _has_canonical_format m with
    | None =>
        let is_canonical := launch_all _has_canonical_format_kern m in
        FlagRead is_canonical (set_canonical_attr m (Some is_canonical)) true
    | Some v => FlagRead v m false
    end.

(** [__set_has_canonical_format] *)
Definition set_has_canonical_format (m : matrix) (val : bool) : matrix :=
  let m := set_canonical_attr m (Some val) in
  if val then set_has_sorted_indices m true else m.

(** ** Exceptions *)

Inductive exn :=
  | IndexError (msg : string)
  | ValueError (msg : string).

Inductive outcome (A : Type) :=
  | Ok (a : A)
  | Raise (e : exn).
Arguments Ok {A} a.
Arguments Raise {A} e.

(** [%d] *)
Definition fmt_d (z : Z) : string :=
  DecimalString.NilZero.string_of_int (Z.to_int z).

(** ['index (%d) out of range (>= %d)' % (idx, bound)] *)
Definition msg_ge (idx bound : Z) : string :=
  String.append "index ("%string
    (String.append (fmt_d idx)
       (String.append ") out of range (>= "%string
          (String.append (fmt_d bound) ")"%string))).

(** ['index (%d) out of range (< -%d)' % (idx, bound)] *)
Definition msg_lt (idx bound : Z) : string :=
  String.append "index ("%string
    (String.append (fmt_d idx)
       (String.append ") out of range (< -"%string
          (String.append (fmt_d bound) ")"%string))).

(** [indices.max()] and [indices.min()]: a reduction without identity, which
    raises on an array of size zero. *)
Definition array_max (a : list Z) : outcome Z :=
  match a with
  | [] => Raise (ValueError "zero-size array to reduction operation"%string)
  | h :: t => Ok (foldl Z.max h t)
  end.

Definition array_min (a : list Z) : outcome Z :=
  match a with
  | [] => Raise (ValueError "zero-size array to reduction operation"%string)
  | h :: t => Ok (foldl Z.min h t)
  end.

(** The local function [check_bounds] of [_prepare_indices]. *)
Definition check_bounds (indices : list Z) (bound : Z) : outcome unit :=
  match array_max indices with
  | Raise e => Raise e
  | Ok idx =>
      if decide (idx >= bound) then Raise (IndexError (msg_ge idx bound))
      else
        match array_min indices with
        | Raise e => Raise e
        | Ok idx =>
            if decide (idx < - bound)
            then Raise (IndexError (msg_lt idx bound))
            else Ok tt
        end
  end.

(** [_prepare_indices(self, i, j)].  [i] and [j] are the flattened index
    arrays, of the index dtype already, so that the two conversions at the
    head of the method leave them as they are. *)
Definition _prepare_indices (m : matrix) (i j : list Z)
    : outcome (list Z * list Z * Z * Z) :=
  let M := major_dim m in
  let N := minor_dim m in
  match check_bounds i M with
  | Raise e => Raise e
  | Ok _ =>
      match check_bounds j N with
      | Raise e => Raise e
      | Ok _ => Ok (i, j, M, N)
      end
  end.

(** ** Array primitives of the host library

    The array functions of [cupy] that the methods call are not part of
    the sources at hand; each has the meaning of the NumPy function of its
    name. *)

(** [cupy.zeros(n)]; [cupy.empty(n)] is modelled the same way: its contents
    are unspecified and every slot is written before it is read. *)
Definition zeros {A} (z : A) (n : Z) : list A := replicate (Z.to_nat n) z.

(** [cupy.cumsum(a)] *)
Fixpoint cumsum_from (acc : Z) (a : list Z) : list Z :=
  match a with
  | [] => []
  | h :: t => (acc + h) :: cumsum_from (acc + h) t
  end.

Definition cumsum (a : list Z) : list Z := cumsum_from 0 a.

(** [cupy.cumsum(a, dtype=cupy.int32)] *)
Fixpoint cumsum_int32_from (acc : Z) (a : list Z) : list Z :=
  match a with
  | [] => []
  | h :: t => int32 (acc + h) :: cumsum_int32_from (int32 (acc + h)) t
  end.

Definition cumsum_int32 (a : list Z) : list Z := cumsum_int32_from 0 a.

(** [cupy.diff(a)] *)
Definition diff (a : list Z) : list Z :=
  zip_with (λ lo hi, hi - lo) a (drop 1 a).

(** [a[idx]] for an index array [idx] *)
Definition gather {A} (d : A) (a : list A) (idx : list Z) : list A :=
  rd d a <$> idx.

(** [a[idx] = vals] for an index array [idx]; on a repeated index the
    later element of [vals] stays. *)
Definition scatter {A} (a : list A) (idx : list Z) (vals : list A) : list A :=
  foldl (λ a kv, wr a (fst kv) (snd kv)) a (zip idx vals).

(** [a[mask]] for a boolean mask *)
Fixpoint compress {A} (mask : list bool) (a : list A) : list A :=
  match mask, a with
  | b :: mask, v :: a => if b then v :: compress mask a else compress mask a
  | _, _ => []
  end.

(** A negative index counts from the end: [v < 0 ? v + bound : v]. *)
Definition wrap_index (bound v : Z) : Z :=
  if decide (v < 0) then v + bound else v.

(** [a[a < 0] += bound] *)
Definition wrap_negative (bound : Z) (a : list Z) : list Z :=
  wrap_index bound <$> a.

Section Sorting.
Context {A K : Type} (key : A → K) (le : relation K) `{!RelDecision le}.

Fixpoint insert_by (a : A) (l : list A) : list A :=
  match l with
  | [] => [a]
  | h :: t =>
      if decide (le (key a) (key h)) then a :: h :: t
      else h :: insert_by a t
  end.

(** A stable sort by [key]: elements with equal keys keep their order. *)
Definition stable_sort (l : list A) : list A := foldr insert_by [] l.
End Sorting.

(** The order of coordinates: by major index, then by minor index. *)
Definition coord_le (a b : Z * Z) : Prop :=
  fst a < fst b ∨ (fst a = fst b ∧ snd a ≤ snd b).

#[global] Instance coord_le_dec : RelDecision coord_le.
Proof. intros a b. unfold coord_le. apply _. Defined.

(** [cupy.argsort(a)], a stable sort of the positions by their value. *)
Definition argsort (a : list Z) : list Z :=
  stable_sort (rd 0 a) Z.le (seqZ 0 (size a)).

(** [cupy.unique(a, return_index=True)]: the sorted distinct values and,
    for each, the position of its first occurrence in [a]. *)
Definition unique (a : list Z) : list Z * list Z :=
  let vals := remove_dups (stable_sort id Z.le a) in
  (vals,
   (λ v, default 0 (Z.of_nat ∘ fst <$> list_find (λ w, w = v) a)) <$> vals).

(** [cupy.searchsorted(a, v)] for sorted [a]: the first position whose
    element is not below [v]. *)
Fixpoint searchsorted1 (a : list Z) (v : Z) : Z :=
  match a with
  | [] => 0
  | h :: t => if decide (h < v) then 1 + searchsorted1 t v else 0
  end.

Definition searchsorted (a : list Z) (vs : list Z) : list Z :=
  searchsorted1 a <$> vs.

(** [cupy.add.at(a, idx, 1)] *)
Definition add_at_1 (a : list Z) (idx : list Z) : list Z :=
  foldl (λ a k, wr a k (rd 0 a k + 1)) a idx.

(** ** Construction *)

(** [__init__] for [arg1] a shape [(m, n)]. *)
Definition init_empty (f : format) (m n : Z) : matrix :=
  Matrix f (m, n) [] [] (zeros 0 (fst (_swap f m n) + 1)) None None.

(** ['index pointer size (%d) should be (%d)' % (len(indptr), major + 1)] *)
Definition msg_indptr (n expected : Z) : string :=
  String.append "index pointer size ("%string
    (String.append (fmt_d n)
       (String.append ") should be ("%string
          (String.append (fmt_d expected) ")"%string))).

(** [__init__] for [arg1] a triple [(data, indices, indptr)] of arrays and
    a given [shape]. *)
Definition init_arrays (f : format) (data : list float)
    (indices indptr : list Z) (shape : Z * Z) : outcome matrix :=
  if decide (length data ≠ length indices) then
    Raise (ValueError "indices and data should have the same size")
  else
    let major := fst (_swap f (fst shape) (snd shape)) in
    if decide (size indptr ≠ major + 1) then
      Raise (ValueError (msg_indptr (size indptr) (major + 1)))
    else Ok (Matrix f shape data indices indptr None None).

(** ** Lookup *)

Section Lookup.
Context {T : Type}.

(** The first position [p] of the row [indptr[major] <= p <
    indptr[major+1]] with [indices[p] == minor], if any. *)
Definition find_offset (indptr indices : list Z) (major minor : Z)
    : option Z :=
  snd <$> list_find (λ p, rd 0 indices p = minor)
            (seqZ (rd 0 indptr major)
                  (rd 0 indptr (major + 1) - rd 0 indptr major)).

(** Modelled from the spec: [_index._csr_sample_values], the "sample
    values" primitive of inner indexing, is not part of the sources at
    hand.  The spec has each coordinate looked up independently in the
    slice of its major row, an absent coordinate resolving to
    [not_found_val]; a negative index counts from the end, as the caller
    [_set_many] relies on. *)
Definition _csr_sample_values (n_row n_col : Z) (Ap Aj : list Z)
    (Ax : list T) (Bi Bj : list Z) (not_found_val : T) : list T :=
  zip_with
    (λ bi bj,
       let j := wrap_index n_row bi in
       let k := wrap_index n_col bj in
       match find_offset Ap Aj j k with
       | Some p => rd not_found_val Ax p
       | None => not_found_val
       end)
    Bi Bj.
End Lookup.

(** Modelled from the spec: [_index._get_csr_submatrix_major_axis] and
    [_index._compress_getitem_kern] are not part of the sources at hand.
    The spec has the scalar get search the slice
    [indices[indptr[r]:indptr[r+1]]] for the minor index and return the
    stored value, or zero if absent. *)
Definition _compress_getitem (data : list float) (indices : list Z)
    (minor : Z) (res : float) : float :=
  match list_find (λ di, snd di = minor) (zip data indices) with
  | Some (_, (d, _)) => d
  | None => res
  end.

(** [_get_intXint(self, row, col)]: the value and the object after the
    call. *)
Definition _get_intXint (m : matrix) (row col : Z) : float * matrix :=
  let '(major, minor) := _swap (fmt m) row col in
  let lo := rd 0 (indptr m) major in
  let hi := rd 0 (indptr m) (major + 1) in
  (_compress_getitem (slice (data m) lo hi) (slice (indices m) lo hi)
     minor 0%float, m).

(** ** Mutation *)

Definition set_arrays (m : matrix) (d : list float) (ind ptr : list Z)
    : matrix :=
  Matrix (fmt m) (shape m) d ind ptr
         (_has_sorted_indices m) (_has_canonical_format m).

Definition set_data (m : matrix) (d : list float) : matrix :=
  set_arrays m d (indices m) (indptr m).

(** [numpy.float32(k)] for an integer [k >= 0]: a binary32 value has a
    significand of 24 bits, and the conversion rounds to the nearest such
    value, ties to the even significand.  The result is an integer again
    and is represented by that integer. *)
Definition float32_of_index (k : Z) : Z :=
  if decide (k < 2 ^ 24) then k
  else
    let ulp := 2 ^ (Z.log2 k - 23) in
    let q := k / ulp in
    let r := k mod ulp in
    if decide (2 * r < ulp) then q * ulp
    else if decide (ulp < 2 * r) then (q + 1) * ulp
    else if Z.even q then q * ulp
    else (q + 1) * ulp.

(** [cupy.arange(n, dtype=cupy.float32)] *)
Definition arange_float32 (n : Z) : list Z := float32_of_index <$> seqZ 0 n.

(** The offsets computed at the head of [_set_many] and [_zero_many]: the
    throwaway CSR matrix [new_sp] of shape [(M, N)] carries, as [float32]
    data, the position of every stored entry, and
    [new_sp._get_arrayXarray(i, j, not_found_val=-1)] samples it with
    [_csr_sample_values(M, N, indptr, indices, data, i, j, -1)].  The
    values sampled are integers below the width of [int32], which
    [astype(cupy.int32)] leaves as they are. *)
Definition sample_offsets (m : matrix) (i j : list Z) (M N : Z) : list Z :=
  _csr_sample_values M N (indptr m) (indices m) (arange_float32 (nnz m))
    i j (-1).

(** A batch entry: major index, minor index, value. *)
Definition entry : Type := Z * Z * float.
Definition e_major (e : entry) : Z := fst (fst e).
Definition e_minor (e : entry) : Z := snd (fst e).
Definition e_value (e : entry) : float := snd e.
Definition e_coord (e : entry) : Z * Z := fst e.

Definition zip3 (i j : list Z) (x : list float) : list entry :=
  zip (zip i j) x.

(** In a list sorted by coordinate, what is left when every entry followed
    by one of the same coordinate is dropped. *)
Fixpoint drop_shadowed (l : list entry) : list entry :=
  match l with
  | [] => []
  | a :: t =>
      match t with
      | [] => [a]
      | b :: _ =>
          if decide (e_coord a = e_coord b) then drop_shadowed t
          else a :: drop_shadowed t
      end
  end.

(** Modelled from the spec: [_index._select_last_indices] is not part of
    the sources at hand.  The spec has the batch, already stably sorted by
    major index, ordered by (major, minor) with ties in batch order, and
    only the last occurrence of each (i,j) group kept.  The three results
    are [indptr_inserts], [indices_inserts] and [data_inserts]. *)
Definition _select_last_indices (i j : list Z) (x : list float)
    : list Z * list Z * list float :=
  let sorted := stable_sort e_coord coord_le (zip3 i j x) in
  let kept := drop_shadowed sorted in
  (e_major <$> kept, e_minor <$> kept, e_value <$> kept).

(** [Aj[...] < insert_indices[...]] on (minor index, value) pairs *)
Definition minor_lt (a b : Z * float) : Prop := fst a < fst b.

#[global] Instance minor_lt_dec : RelDecision minor_lt :=
  λ a b, Z_lt_dec (fst a) (fst b).

(** Modelled from the spec: one work item (one major row) of
    [_index._insert_many_populate_arrays], which is not part of the sources
    at hand.  The spec has the row's pre-existing entries interleaved with
    its newly inserted entries, in minor order, into the new arrays at the
    row's new offset. *)
Definition populate_row
    (insert_indices : list Z) (insert_values : list float)
    (insertion_indptr Ap Aj : list Z) (Ax : list float) (Bp : list Z)
    (B : list Z * list float) (row : Z) : list Z * list float :=
  let old := zip (slice Aj (rd 0 Ap row) (rd 0 Ap (row + 1)))
                 (slice Ax (rd 0 Ap row) (rd 0 Ap (row + 1))) in
  let new := zip (slice insert_indices (rd 0 insertion_indptr row)
                        (rd 0 insertion_indptr (row + 1)))
                 (slice insert_values (rd 0 insertion_indptr row)
                        (rd 0 insertion_indptr (row + 1))) in
  let merged := list_merge minor_lt old new in
  (list_inserts (Z.to_nat (rd 0 Bp row)) (fst <$> merged) (fst B),
   list_inserts (Z.to_nat (rd 0 Bp row)) (snd <$> merged) (snd B)).

Definition _insert_many_populate_arrays
    (insert_indices : list Z) (insert_values : list float)
    (insertion_indptr Ap Aj : list Z) (Ax : list float) (Bp : list Z)
    (Bj : list Z) (Bx : list float) (size : Z) : list Z * list float :=
  foldl (populate_row insert_indices insert_values insertion_indptr
           Ap Aj Ax Bp)
        (Bj, Bx) (seqZ 0 size).

(** [_perform_insert(self, indices_inserts, data_inserts, rows, row_counts,
    idx_dtype)] *)
Definition _perform_insert (m : matrix) (indices_inserts : list Z)
    (data_inserts : list float) (rows row_counts : list Z) : matrix :=
  let indptr_diff := diff (indptr m) in
  let indptr_diff :=
    scatter indptr_diff rows
      (zip_with Z.add (gather 0 indptr_diff rows) row_counts) in
  let new_indptr := cumsum (0 :: indptr_diff) in
  let out_nnz := default 0 (last new_indptr) in
  let new_indices := zeros 0 out_nnz in
  let new_data := zeros 0%float out_nnz in
  let new_indptr_lookup := zeros 0 (size new_indptr) in
  let new_indptr_lookup :=
    cumsum (scatter new_indptr_lookup ((λ r, r + 1) <$> rows) row_counts) in
  let '(new_indices, new_data) :=
    _insert_many_populate_arrays indices_inserts data_inserts
      new_indptr_lookup (indptr m) (indices m) (data m) new_indptr
      new_indices new_data (size (indptr m) - 1) in
  set_arrays m new_data new_indices new_indptr.

(** [_insert_many(self, i, j, x)] *)
Definition _insert_many (m : matrix) (i j : list Z) (x : list float)
    : matrix :=
  let order := argsort i in
  let i := gather 0 i order in
  let j := gather 0 j order in
  let x := gather 0%float x order in
  let '(indptr_inserts, indices_inserts, data_inserts) :=
    _select_last_indices i j x in
  let '(rows, ui_indptr) := unique indptr_inserts in
  let ui_indptr := ui_indptr ++ [size j] in
  let row_counts := zeros 0 (size ui_indptr - 1) in
  let row_counts :=
    add_at_1 row_counts (searchsorted rows indptr_inserts) in
  _perform_insert m indices_inserts data_inserts rows row_counts.

(** [_set_many(self, i, j, x)]: the outcome tells whether the
    [SparseEfficiencyWarning] was issued; the matrix is the object after
    the call, also when it raises. *)
Definition _set_many (m : matrix) (i j : list Z) (x : list float)
    : outcome bool * matrix :=
  match _prepare_indices m i j with
  | Raise e => (Raise e, m)
  | Ok (i, j, M, N) =>
      let offsets := sample_offsets m i j M N in
      let mask := (λ o, bool_decide (o > -1)) <$> offsets in
      let m := set_data m
                 (scatter (data m) (compress mask offsets) (compress mask x)) in
      if forallb id mask then (Ok false, m)
      else
        let mask := negb <$> mask in
        let i := wrap_negative M (compress mask i) in
        let j := wrap_negative N (compress mask j) in
        (Ok true, _insert_many m i j (compress mask x))
  end.



(** [_zero_many(self, i, j)] *)
Definition _zero_many (m : matrix) (i j : list Z) : outcome unit * matrix :=
  match _prepare_indices m i j with
  | Raise e => (Raise e, m)
  | Ok (i, j, M, N) =>
      let offsets := sample_offsets m i j M N in
      let hits := filter (λ o, o > -1) offsets in
      (Ok tt, set_data m (scatter (data m) hits (zeros 0%float (size hits))))
  end.

(** ** Minor-axis fancy indexing *)

(** [bincount_idx_global]: every thread [k < n_idx] adds one to
    [col_cnt[idx[k]]]. *)
Definition bincount_idx_global (n_idx : Z) (idx col_cnt : list Z) : list Z :=
  foldl (λ col_cnt k,
           let c := rd 0 idx k in wr col_cnt c (int32 (rd 0 col_cnt c + 1)))
        col_cnt (seqZ 0 n_idx).

(** One block of [row_kept_count]: the value stored in [Bp[row + 1]].  The
    block adds up, by warp shuffles, the partial sums its threads take over
    the entries of the row. *)
Definition row_kept_count (Ap Aj col_cnt : list Z) (row : Z) : Z :=
  foldl (λ local p, int32 (local + rd 0 col_cnt (rd 0 Aj p))) 0
        (seqZ (rd 0 Ap row) (rd 0 Ap (row + 1) - rd 0 Ap row)).

Definition _calc_Bp_minor (n_row : Z) (Ap Aj col_cnt Bp : list Z) : list Z :=
  foldl (λ Bp row, wr Bp (row + 1) (row_kept_count Ap Aj col_cnt row))
        Bp (seqZ 0 n_row).

(** One iteration of the loop over [p] in [fill_B]; the state is the
    shared cursor [row_ptr] and the output arrays. *)
Definition fill_B_entry (Aj : list Z) (Ax : list float)
    (col_offset col_order : list Z)
    (st : Z * list Z * list float) (p : Z) : Z * list Z * list float :=
  let '(row_ptr, Bj, Bx) := st in
  let col := rd 0 Aj p in
  let stop := rd 0 col_offset col in
  let start := if decide (col = 0) then 0 else rd 0 col_offset (col - 1) in
  let cnt := int32 (stop - start) in
  if decide (cnt = 0) then st
  else
    let v := rd 0%float Ax p in
    let my_out := row_ptr in
    let row_ptr := int32 (row_ptr + cnt) in
    let '(Bj, Bx) :=
      foldl (λ B k,
               (wr (fst B) (int32 (my_out + k))
                   (rd 0 col_order (int32 (start + k))),
                wr (snd B) (int32 (my_out + k)) v))
            (Bj, Bx) (seqZ 0 cnt) in
    (row_ptr, Bj, Bx).

(** One block of [fill_B].  [sched] lists the entries [p] of the row in the
    order in which the threads of the block reach the [atomicAdd] on
    [row_ptr]. *)
Definition fill_B_row (Aj : list Z) (Ax : list float)
    (col_offset col_order Bp : list Z) (sched : list Z)
    (B : list Z * list float) (row : Z) : list Z * list float :=
  let '(_, Bj, Bx) :=
    foldl (fill_B_entry Aj Ax col_offset col_order)
          (rd 0 Bp row, fst B, snd B) sched in
  (Bj, Bx).

Definition fill_B (n_row : Z) (Aj : list Z) (Ax : list float)
    (col_offset col_order Bp : list Z) (sched : Z → list Z)
    (Bj : list Z) (Bx : list float) : list Z * list float :=
  foldl (λ B row, fill_B_row Aj Ax col_offset col_order Bp (sched row) B row)
        (Bj, Bx) (seqZ 0 n_row).

(** A thread with [threadIdx.x == 0] alone in its block visits the entries
    of the row in order. *)
Definition in_order (Ap : list Z) (row : Z) : list Z :=
  seqZ (rd 0 Ap row) (rd 0 Ap (row + 1) - rd 0 Ap row).

(** [_minor_index_fancy(self, idx)] *)
Definition _minor_index_fancy (sched : Z → list Z) (m : matrix)
    (idx : list Z) : outcome matrix :=
  let M := major_dim m in
  let N := minor_dim m in
  let n_idx := size idx in
  let new_shape := _swap (fmt m) M n_idx in
  if decide (nnz m = 0 ∨ n_idx = 0) then
    Ok (init_empty (fmt m) (fst new_shape) (snd new_shape))
  else
    let col_counts := zeros 0 N in
    let Bp := wr (zeros 0 (M + 1)) 0 0 in
    let col_counts := bincount_idx_global n_idx idx col_counts in
    let Bp := _calc_Bp_minor M (indptr m) (indices m) col_counts Bp in
    let col_order := int32 <$> argsort idx in
    let col_offset := cumsum_int32 col_counts in
    let Bp := take 1 Bp ++ cumsum_int32 (drop 1 Bp) in
    let nnzB := default 0 (last Bp) in
    let Bj := zeros 0 nnzB in
    let Bx := zeros 0%float nnzB in
    let '(Bj, Bx) :=
      fill_B M (indices m) (data m) col_offset col_order Bp sched Bj Bx in
    init_arrays (fmt m) Bx Bj Bp new_shape.

(** ** Well-formed matrices *)

(** The invariants of the compressed representation: [indptr] has one slot
    more than the major dimension, starts at 0, never decreases and ends at
    [nnz]; [indices] is as long as [data] and holds minor positions. *)
Definition wf_matrix (m : matrix) : Prop :=
  0 ≤ major_dim m ∧
  size (indptr m) = major_dim m + 1 ∧
  rd 0 (indptr m) 0 = 0 ∧
  Forall (λ d, 0 ≤ d) (diff (indptr m)) ∧
  rd 0 (indptr m) (major_dim m) = nnz m ∧
  length (indices m) = length (data m) ∧
  Forall (λ c, 0 ≤ c < minor_dim m) (indices m).

(** ** Notions used in the statements *)

Definition sumZ (l : list Z) : Z := foldr Z.add 0 l.

(** How many elements of [l] equal [v]. *)
Definition count (v : Z) (l : list Z) : Z :=
  Z.of_nat (length (filter (λ w, w = v) l)).

(** The positions of [idx] that hold the minor index [c], in increasing
    order. *)
Definition positions (idx : list Z) (c : Z) : list Z :=
  filter (λ k, rd 0 idx k = c) (seqZ 0 (size idx)).

(** What minor-axis indexing by [idx] makes of one stored entry: a copy at
    every output position whose index is the entry's minor index. *)
Definition expand_entry (idx : list Z) (cv : Z * float) : list (Z * float) :=
  (λ k, (k, snd cv)) <$> positions idx (fst cv).

(** What [fill_B] writes for the stored entry at offset [p]: the output
    positions, and as many copies of the value. *)
Definition fill_block_j (m : matrix) (idx : list Z) (p : Z) : list Z :=
  positions idx (rd 0 (indices m) p).

Definition fill_block_x (m : matrix) (idx : list Z) (p : Z) : list float :=
  (λ _ : Z, rd 0%float (data m) p) <$> positions idx (rd 0 (indices m) p).

(** What [fill_B] writes for a major row under the schedule [sched]. *)
Definition fill_row_j (sched : Z → list Z) (m : matrix) (idx : list Z)
    (r : Z) : list Z :=
  mjoin (fill_block_j m idx <$> sched r).

Definition fill_row_x (sched : Z → list Z) (m : matrix) (idx : list Z)
    (r : Z) : list float :=
  mjoin (fill_block_x m idx <$> sched r).

(** The prefix sums of the lengths of those rows. *)
Definition fill_indptr (sched : Z → list Z) (m : matrix) (idx : list Z)
    : list Z :=
  0 :: cumsum ((λ r, Z.of_nat (length (fill_row_j sched m idx r)))
                 <$> seqZ 0 (major_dim m)).

(** [B] with the block [blk] written over its slots [o, o + len(blk)). *)
Definition splice {A} (B : list A) (o : nat) (blk : list A) : list A :=
  take o B ++ blk ++ drop (o + length blk) B.

(** The stored entries of a major row, as (minor index, value) pairs in
    storage order. *)
Definition row_entries (m : matrix) (r : Z) : list (Z * float) :=
  zip (slice (indices m) (rd 0 (indptr m) r) (rd 0 (indptr m) (r + 1)))
      (slice (data m) (rd 0 (indptr m) r) (rd 0 (indptr m) (r + 1))).

(** The number of entries minor-axis indexing by [idx] puts out. *)
Definition fancy_nnz (m : matrix) (idx : list Z) : Z :=
  sumZ ((λ r, Z.of_nat (length (mjoin (expand_entry idx
                                         <$> row_entries m r))))
          <$> seqZ 0 (major_dim m)).

(** The one-row matrix of width [n] with every position stored, all with
    the value [v]. *)
Definition dense_row (n : Z) (v : float) : matrix :=
  Matrix CSR (1, n) (zeros v n) (seqZ 0 n) [0; n] None None.

(** The batch with only the last occurrence of every coordinate, in batch
    order. *)
Fixpoint keep_last (E : list entry) : list entry :=
  match E with
  | [] => []
  | e :: t =>
      if decide (e_coord e ∈ e_coord <$> t) then keep_last t
      else e :: keep_last t
  end.

(** The (minor index, value) pairs that a list of entries holds for the
    major row [r]. *)
Definition inserted_row (K : list entry) (r : Z) : list (Z * float) :=
  (λ e, (e_minor e, e_value e)) <$> filter (λ e, e_major e = r) K.

(** The row [r] after the population step: old entries and inserted
    entries interleaved by minor index. *)
Definition merged_row (m : matrix) (K : list entry) (r : Z)
    : list (Z * float) :=
  list_merge minor_lt (row_entries m r) (inserted_row K r).

(** The prefix sums of the lengths of the rows after the population
    step. *)
Definition insert_indptr (m : matrix) (K : list entry) : list Z :=
  0 :: cumsum ((λ r, Z.of_nat (length (merged_row m K r)))
                 <$> seqZ 0 (major_dim m)).

(** What the row [r] holds for the minor index [c]: the value of its first
    entry with that index, zero if there is none. *)
Definition stored_value (m : matrix) (r c : Z) : float :=
  default 0%float
    (snd <$> head (filter (λ cv : Z * float, fst cv = c) (row_entries m r))).

(** The coordinate a batch entry of [_set_many] names, negative indices
    counted from the end. *)
Definition batch_coord (m : matrix) (e : entry) : Z * Z :=
  (wrap_index (major_dim m) (e_major e), wrap_index (minor_dim m) (e_minor e)).

(** The offset of the first stored entry of that coordinate, or [-1]. *)
Definition entry_offset (m : matrix) (e : entry) : Z :=
  match find_offset (indptr m) (indices m)
          (fst (batch_coord m e)) (snd (batch_coord m e)) with
  | Some p => p
  | None => -1
  end.

(** The batch entries whose coordinate is stored, and the others. *)
Definition batch_hits (m : matrix) (B : list entry) : list entry :=
  filter (λ e, entry_offset m e > -1) B.

Definition batch_misses (m : matrix) (B : list entry) : list entry :=
  filter (λ e, ¬ entry_offset m e > -1) B.

(** The data array after the values of the stored coordinates are written
    in place. *)
Definition written_data (m : matrix) (B : list entry) : list float :=
  scatter (data m) (entry_offset m <$> batch_hits m B)
    (e_value <$> batch_hits m B).

(** ** Slices

    The built-ins of Python and the array functions that the slice methods
    call. *)

(** A [slice] object: each of [start], [stop] and [step] is [None] or an
    integer. *)
Record pyslice := PySlice {
  sl_start : option Z;
  sl_stop : option Z;
  sl_step : option Z
}.

(** How [slice.indices] brings a bound that is not [None] into range: a
    negative bound counts from the end. *)
Definition clamp_bound (lower upper length v : Z) : Z :=
  if decide (v < 0) then
    if decide (v + length < lower) then lower else v + length
  else
    if decide (v > upper) then upper else v.

(** [idx.indices(length)] *)
Definition slice_indices (idx : pyslice) (length : Z)
    : outcome (Z * Z * Z) :=
  let step := default 1 (sl_step idx) in
  if decide (step = 0) then
    Raise (ValueError "slice step cannot be zero")
  else
    let lower := if decide (step < 0) then -1 else 0 in
    let upper := if decide (step < 0) then length - 1 else length in
    let start :=
      match sl_start idx with
      | None => if decide (step < 0) then upper else lower
      | Some v => clamp_bound lower upper length v
      end in
    let stop :=
      match sl_stop idx with
      | None => if decide (step < 0) then lower else upper
      | Some v => clamp_bound lower upper length v
      end in
    Ok (start, stop, step).

(** [len(range(start, stop, step))] for [step != 0] *)
Definition range_len (start stop step : Z) : Z :=
  if decide (0 < step ∧ start < stop) then 1 + (stop - 1 - start) / step
  else if decide (step < 0 ∧ stop < start) then
    1 + (start - 1 - stop) / (- step)
  else 0.

(** [cupy.arange(start, stop, step)] on integers: the
    [ceil((stop - start) / step)] values [start + i * step]. *)
Definition arange (start stop step : Z) : list Z :=
  (λ i, start + i * step) <$> seqZ 0 (- ((start - stop) / step)).

Section Slicing.
(** [self.copy()] and the three primitives of [_index] that slicing calls
    are not part of the sources at hand; they are left open. *)
Variable copy_of : matrix → matrix.
Variable _get_csr_submatrix_major_axis :
  list float → list Z → list Z → Z → Z → list float * list Z * list Z.
Variable _get_csr_submatrix_minor_axis :
  list float → list Z → list Z → Z → Z → list float * list Z * list Z.
Variable _csr_row_index :
  list float → list Z → list Z → list Z → list float * list Z * list Z.
(** The order in which the threads of [fill_B] take their turn. *)
Variable sched : matrix → Z → list Z.

(** [_major_index_fancy(self, idx)] *)
Definition _major_index_fancy (m : matrix) (idx : list Z) : outcome matrix :=
  let N := minor_dim m in
  let M := size idx in
  let new_shape := _swap (fmt m) M N in
  if decide (nnz m = 0 ∨ M = 0) then
    Ok (init_empty (fmt m) (fst new_shape) (snd new_shape))
  else
    let '(d, i, p) :=
      _csr_row_index (data m) (indices m) (indptr m) idx in
    init_arrays (fmt m) d i p new_shape.

(** [_major_slice(self, idx, copy=False)] *)
Definition _major_slice (m : matrix) (idx : pyslice) (copy : bool)
    : outcome matrix :=
  let M := major_dim m in
  let N := minor_dim m in
  match slice_indices idx M with
  | Raise e => Raise e
  | Ok (start, stop, step) =>
      if decide (start = 0 ∧ stop = M ∧ step = 1) then
        Ok (if copy then copy_of m else m)
      else
        let M := range_len start stop step in
        let new_shape := _swap (fmt m) M N in
        if decide (step = 1) then
          if decide (M = 0 ∨ nnz m = 0) then
            Ok (init_empty (fmt m) (fst new_shape) (snd new_shape))
          else
            let '(d, i, p) :=
              _get_csr_submatrix_major_axis (data m) (indices m) (indptr m)
                start stop in
            init_arrays (fmt m) d i p new_shape
        else
          _major_index_fancy m (arange start stop step)
  end.

(** [_minor_slice(self, idx, copy=False)] *)
Definition _minor_slice (m : matrix) (idx : pyslice) (copy : bool)
    : outcome matrix :=
  let M := major_dim m in
  let N := minor_dim m in
  match slice_indices idx N with
  | Raise e => Raise e
  | Ok (start, stop, step) =>
      if decide (start = 0 ∧ stop = N ∧ step = 1) then
        Ok (if copy then copy_of m else m)
      else
        let N := range_len start stop step in
        let new_shape := _swap (fmt m) M N in
        if decide (N = 0 ∨ nnz m = 0) then
          Ok (init_empty (fmt m) (fst new_shape) (snd new_shape))
        else if decide (step = 1) then
          let '(d, i, p) :=
            _get_csr_submatrix_minor_axis (data m) (indices m) (indptr m)
              start stop in
          init_arrays (fmt m) d i p new_shape
        else
          _minor_index_fancy (sched m) m (arange start stop step)
  end.

(** [_get_sliceXslice(self, row, col)] *)
Definition _get_sliceXslice (m : matrix) (row col : pyslice)
    : outcome matrix :=
  let '(major, minor) := _swap (fmt m) row col in
  let copy := bool_decide (sl_step major = Some 1 ∨ sl_step major = None) in
  match _major_slice m major false with
  | Raise e => Raise e
  | Ok m' => _minor_slice m' minor copy
  end.

(** [_get_columnXarray(self, row, col)] *)
Definition _get_columnXarray (m : matrix) (row col : list Z)
    : outcome matrix :=
  let '(major, minor) := _swap (fmt m) row col in
  match _major_index_fancy m major with
  | Raise e => Raise e
  | Ok m' => _minor_index_fancy (sched m') m' minor
  end.
End Slicing.

(** The output position of minor index [c] under the slice
    [start, start + step, ...] of [n] values, if [c] is one of them. *)
Definition slice_pos (start step n c : Z) : option Z :=
  let k := (c - start) / step in
  if decide (0 ≤ k < n ∧ start + k * step = c) then Some k else None.

(** What that slice makes of one stored entry. *)
Definition slice_entry (start step n : Z) (cv : Z * float)
    : list (Z * float) :=
  (λ k, (k, snd cv)) <$> option_list (slice_pos start step n (fst cv)).

(** ** Duplicates *)

Section SumDuplicates.
(** The conversions through the COO format are not part of the sources at
    hand: [rebuild] stands for the three statements [coo = self.tocoo()],
    [coo.sum_duplicates()] and [self.__init__(coo.asformat(self.format))],
    and maps the object to what they return or raise and to the object
    they leave. *)
Variable rebuild : matrix → outcome unit * matrix.

(** [sum_duplicates(self)] *)
Definition sum_duplicates (m : matrix) : outcome unit * matrix :=
  let r := get_has_canonical_format m in
  if read_value r then (Ok tt, read_self r)
  else
    match rebuild (read_self r) with
    | (Raise e, m) => (Raise e, m)
    | (Ok _, m) => (Ok tt, set_has_canonical_format m true)
    end.
End SumDuplicates.

(** ** Row order *)

(** The minor indices of every major row are in non-decreasing order. *)
Definition rows_sorted (m : matrix) : Prop :=
  ∀ i jj, 0 ≤ i < size (indptr m) - 1 →
    rd 0 (indptr m) i ≤ jj → jj + 1 < rd 0 (indptr m) (i + 1) →
    rd 0 (indices m) jj ≤ rd 0 (indices m) (jj + 1).

(** The row offsets do not decrease and the minor indices of every major
    row are in increasing order: sorted, and no position stored twice. *)
Definition rows_canonical (m : matrix) : Prop :=
  ∀ i, 0 ≤ i < size (indptr m) - 1 →
    rd 0 (indptr m) i ≤ rd 0 (indptr m) (i + 1) ∧
    ∀ jj, rd 0 (indptr m) i ≤ jj → jj + 1 < rd 0 (indptr m) (i + 1) →
      rd 0 (indices m) jj < rd 0 (indices m) (jj + 1).

(** * Properties *)

(** ** Reads and writes *)

Lemma rd_lookup {A} (oob : A) (a : list A) (i : Z) (v : A) :
  0 ≤ i → a !! Z.to_nat i = Some v → rd oob a i = v.
Proof.
  intros Hi Hv. unfold rd. rewrite decide_True by done. by rewrite Hv.
Qed.

Lemma rd_in_range {A} (o1 o2 : A) (a : list A) (i : Z) :
  0 ≤ i < size a → rd o1 a i = rd o2 a i.
Proof.
  intros [Hi Hlt]. unfold rd, size in *. rewrite !decide_True by done.
  destruct (lookup_lt_is_Some_2 a (Z.to_nat i)) as [v Hv]; [lia|].
  by rewrite Hv.
Qed.

Lemma rd_of_nat {A} (oob : A) (a : list A) (k : nat) :
  rd oob a (Z.of_nat k) = default oob (a !! k).
Proof.
  unfold rd. rewrite decide_True by lia. by rewrite Nat2Z.id.
Qed.

Lemma seqZ_succ (m n : Z) :
  0 ≤ n → seqZ m (n + 1) = seqZ m n ++ [m + n].
Proof.
  intros Hn. by rewrite seqZ_app by lia.
Qed.

(** ** Reductions over the minor axis *)

Lemma reduction_scan_nan oob_data (op : red_op) (data : list float)
    (entries : list Z) (running : float) :
  Exists (λ e, is_nan (rd oob_data data e) = true) entries →
  reduction_scan oob_data op data entries running = PrimFloat.nan.
Proof.
  intros Hex. revert running.
  induction entries as [|e rest IH]; intros running; inversion Hex; subst;
    simpl; unfold self_ne.
  - unfold is_nan in *. by rewrite H0.
  - destruct (negb _); [done|]. by apply IH.
Qed.

Lemma arg_scan_nan oob_data oob_index (op : red_op) (data : list float)
    (indices entries : list Z) (st : Z * float) :
  Exists (λ e, is_nan (rd oob_data data e) = true) entries →
  arg_scan oob_data oob_index op data indices entries st = (0, PrimFloat.nan).
Proof.
  intros Hex. revert st.
  induction entries as [|e rest IH]; intros st; inversion Hex; subst;
    simpl; unfold self_ne.
  - unfold is_nan in *. by rewrite H0.
  - destruct (negb _); [done|]. by apply IH.
Qed.

(** What [gap_scan] returns on the candidates [s, s+1, ..., length-1]:
    every candidate before the result sits at its expected place inside
    the row, and the result itself does not (or the candidates ran out). *)
Lemma gap_scan_spec oob_index (indices : list Z) (xt yt length : Z) (n : nat) :
  ∀ s, 0 ≤ s → s + Z.of_nat n = length →
  let g := gap_scan oob_index indices xt yt length (seqZ s (Z.of_nat n)) in
  s ≤ g ≤ length ∧
  (∀ d, s ≤ d < g → rd oob_index indices (xt + d) = d ∧ xt + d < yt) ∧
  (g = length ∨ rd oob_index indices (xt + g) ≠ g ∨ xt + g >= yt).
Proof.
  induction n as [|n IH]; intros s Hs Hlen g; subst g.
  - simpl. repeat split; lia.
  - rewrite seqZ_cons by lia. simpl.
    replace (Z.pred (Z.of_nat (S n))) with (Z.of_nat n) by lia.
    destruct (bool_decide (s ≠ rd oob_index indices (xt + s))) eqn:E1; simpl.
    { apply bool_decide_eq_true in E1. repeat split; lia. }
    apply bool_decide_eq_false in E1.
    destruct (bool_decide (xt + s >= yt)) eqn:E2.
    { apply bool_decide_eq_true in E2. repeat split; lia. }
    apply bool_decide_eq_false in E2.
    destruct (IH (Z.succ s)) as (Hr & Hbefore & Hat); [lia|lia|].
    split; [lia|]. split; [|done].
    intros d Hd. destruct (decide (d = s)) as [->|Hne]; [lia|].
    apply Hbefore. lia.
Qed.

(** C3: the accumulator of the per-row max/min reduction.  In nonzero-only
    mode a row with at least one stored entry starts at its first stored
    value; with nonzero-only disabled a row with fewer stored entries than
    its theoretical length starts at 0; a row with no stored entry yields 0
    (with nonzero-only disabled, for a row of positive theoretical length:
    a row of length 0 without entries is dense for the kernel, which then
    reads [data[x[tid]]]).  The row with stored values
    [-1, -3] in a width-5 matrix gives max = -1 in nonzero-only mode and
    max = 0 otherwise. *)
Theorem minor_reduce_initial_value (oob_data : float) (oob_index : Z)
    (op : red_op) (data : list float) (x y : list Z) (length tid : Z) :
  let xt := rd oob_index x tid in
  let block_length := rd oob_index y tid - xt in
  (block_length > 0 →
     reduction_init oob_data oob_index cond_nonzero data x y length tid
     = rd oob_data data xt) ∧
  (block_length < length →
     reduction_init oob_data oob_index cond_dense data x y length tid
     = 0%float) ∧
  (block_length = 0 →
     max_min_reduction oob_data oob_index op cond_nonzero data x y length tid
     = 0%float) ∧
  (block_length = 0 → 0 < length →
     max_min_reduction oob_data oob_index op cond_dense data x y length tid
     = 0%float) ∧
  (let m := Matrix CSR (1, 5) [(-1)%float; (-3)%float] [1; 3] [0; 2]
                   None None in
   _minor_reduce oob_data oob_index m amax 1 true = [(-1)%float] ∧
   _minor_reduce oob_data oob_index m amax 1 false = [0%float]).
Proof.
  intros xt block_length. subst xt block_length.
  unfold max_min_reduction, reduction_init, eval_cond.
  repeat split.
  - intros H. by rewrite bool_decide_eq_true_2.
  - intros H. by rewrite bool_decide_eq_false_2 by lia.
  - intros H. rewrite bool_decide_eq_false_2 by lia.
    by rewrite seqZ_nil by lia.
  - intros H Hlen. rewrite bool_decide_eq_false_2 by lia.
    by rewrite seqZ_nil by lia.
Qed.

Lemma minor_reduce_initial_value_witness :
  reduction_init 0 0 cond_nonzero [(-1)%float; (-3)%float] [0] [2] 5 0
    = (-1)%float ∧
  reduction_init 0 0 cond_dense [(-1)%float; (-3)%float] [0] [2] 5 0
    = 0%float ∧
  max_min_reduction 0 0 op_gt cond_nonzero [] [0] [0] 5 0 = 0%float ∧
  max_min_reduction 0 0 op_gt cond_dense [] [0] [0] 5 0 = 0%float.
Proof.
  pose proof (minor_reduce_initial_value 0 0 op_gt
                [(-1)%float; (-3)%float] [0] [2] 5 0) as (H1 & H2 & _).
  pose proof (minor_reduce_initial_value 0 0 op_gt [] [0] [0] 5 0)
    as (_ & _ & H3 & H4 & _).
  split; [apply H1; reflexivity|].
  split; [apply H2; reflexivity|].
  split; [apply H3; reflexivity|].
  apply H4; reflexivity.
Defined.

(** C4: a stored NaN in a row makes the per-row min/max reduction return
    NaN for that row, whatever its other values, mode and initial value;
    the argmin/argmax reduction then reports index 0 for the row. *)
Theorem reduction_nan_propagates (oob_data : float) (oob_index : Z)
    (op : red_op) (c : red_cond) (data : list float) (indices x y : list Z)
    (length tid entry : Z) :
  rd oob_index x tid ≤ entry < rd oob_index y tid →
  is_nan (rd oob_data data entry) = true →
  max_min_reduction oob_data oob_index op c data x y length tid
    = PrimFloat.nan ∧
  arg_reduction oob_data oob_index op data indices x y length tid = 0.
Proof.
  intros Hrow Hnan.
  assert (Exists (λ e, is_nan (rd oob_data data e) = true)
            (seqZ (rd oob_index x tid)
                  (rd oob_index y tid - rd oob_index x tid))) as Hex.
  { apply Exists_exists. exists entry. split; [|done].
    apply elem_of_seqZ. lia. }
  split.
  - unfold max_min_reduction. by apply reduction_scan_nan.
  - unfold arg_reduction. by rewrite arg_scan_nan.
Qed.

Lemma reduction_nan_propagates_witness :
  max_min_reduction 0 0 op_gt cond_dense
    [1%float; PrimFloat.nan; 7%float] [0] [3] 3 0 = PrimFloat.nan ∧
  arg_reduction 0 0 op_gt
    [1%float; PrimFloat.nan; 7%float] [0; 1; 2] [0] [3] 3 0 = 0.
Proof.
  apply (reduction_nan_propagates 0 0 op_gt cond_dense
           [1%float; PrimFloat.nan; 7%float] [0; 1; 2] [0] [3] 3 0 1).
  - vm_compute. split; [intros H; discriminate H | reflexivity].
  - reflexivity.
Defined.

(** C9: the initial index of the argmin/argmax reduction.  For a row with
    at least one stored entry but fewer than its theoretical length the
    initial value is 0 and the initial index [g] is the first position of
    the row whose stored minor index differs from its expected dense index
    (every position before [g] holds its own index; [g] is the row's
    stored count when all of them do).  When the row's minor indices are
    non-negative and strictly increasing, [g] is the first zero gap: no
    entry is stored at minor position [g] and one is stored at every
    smaller position.  An all-implicit row starts at index 0. *)
Theorem arg_reduction_initial_index (oob_data : float) (oob_index : Z)
    (data : list float) (indices x y : list Z) (length tid : Z) :
  let xt := rd oob_index x tid in
  let yt := rd oob_index y tid in
  let block_length := yt - xt in
  let g := fst (arg_init oob_data oob_index data indices x y length tid) in
  (0 < block_length < length →
     snd (arg_init oob_data oob_index data indices x y length tid) = 0%float ∧
     0 ≤ g ≤ block_length ∧
     (∀ d, 0 ≤ d < g → rd oob_index indices (xt + d) = d) ∧
     (g < block_length → rd oob_index indices (xt + g) ≠ g) ∧
     ((∀ p, xt ≤ p < yt → 0 ≤ rd oob_index indices p) →
      (∀ p q, xt ≤ p → p < q → q < yt →
              rd oob_index indices p < rd oob_index indices q) →
      (∀ p, xt ≤ p < yt → rd oob_index indices p ≠ g) ∧
      (∀ c, 0 ≤ c < g → ∃ p, xt ≤ p < yt ∧ rd oob_index indices p = c))) ∧
  (block_length = 0 → length ≠ 0 →
     arg_init oob_data oob_index data indices x y length tid = (0, 0%float)).
Proof.
  intros xt yt block_length g. split.
  - intros Hbl. subst g. unfold arg_init. fold xt yt block_length.
    rewrite decide_False by lia. rewrite decide_True by lia. simpl.
    destruct (gap_scan_spec oob_index indices xt yt length (Z.to_nat length) 0)
      as (Hr & Hbefore & Hat); [lia|lia|].
    rewrite Z2Nat.id in * by lia.
    set (g := gap_scan oob_index indices xt yt length (seqZ 0 length)) in *.
    assert (g ≤ block_length) as Hle.
    { destruct (decide (g ≤ block_length)) as [|Hgt]; [done|].
      destruct (Hbefore block_length); lia. }
    split; [done|]. split; [lia|].
    split; [intros d Hd; by apply Hbefore|].
    split; [lia|].
    intros Hnn Hinc. split.
    + intros p Hp.
      destruct (decide (p - xt < g)) as [Hlt|Hge].
      * destruct (Hbefore (p - xt)) as [Heq _]; [lia|].
        replace (xt + (p - xt)) with p in Heq by lia. lia.
      * assert (g < block_length) as Hg by lia.
        assert (g < rd oob_index indices (xt + g)) as Hbig.
        { destruct Hat as [?|[Hne|?]]; [lia| |lia].
          destruct (decide (g = 0)) as [->|Hpos].
          - specialize (Hnn (xt + 0)). lia.
          - destruct (Hbefore (g - 1)) as [Heq _]; [lia|].
            specialize (Hinc (xt + (g - 1)) (xt + g)). lia. }
        destruct (decide (p = xt + g)) as [->|Hne]; [lia|].
        specialize (Hinc (xt + g) p). lia.
    + intros c Hc. exists (xt + c).
      destruct (Hbefore c) as [Heq Hin]; [lia|]. split; [lia|done].
  - intros Hbl Hlen. unfold arg_init. fold xt yt block_length.
    rewrite decide_False by lia. by rewrite decide_False by lia.
Qed.

Lemma arg_reduction_initial_index_witness :
  arg_init 0 0 [1%float; 2%float; 3%float] [0; 1; 3] [0] [3] 5 0
    = (2, 0%float) ∧
  arg_init 0 0 [] [] [0] [0] 5 0 = (0, 0%float).
Proof.
  pose proof (arg_reduction_initial_index 0 0
                [1%float; 2%float; 3%float] [0; 1; 3] [0] [3] 5 0)
    as [H1 _].
  pose proof (arg_reduction_initial_index 0 0 [] [] [0] [0] 5 0) as [_ H2].
  split.
  - assert (0 < rd 0 [3] 0 - rd 0 [0] 0 < 5) as Hbl
      by (vm_compute; split; reflexivity).
    destruct (H1 Hbl) as (Hv & _). reflexivity.
  - apply H2; [reflexivity|]. intros H; discriminate H.
Defined.

(** C10: on a matrix without stored entries, reading [has_sorted_indices]
    and reading [has_canonical_format] both give True, launch no check
    kernel, and leave True in the cache whatever it held before. *)
Theorem empty_matrix_flags (m : matrix) :
  size (data m) = 0 →
  get_has_sorted_indices m
    = FlagRead true (set_sorted_attr m (Some true)) false ∧
  get_has_canonical_format m
    = FlagRead true (set_canonical_attr m (Some true)) false.
Proof.
  intros Hsz. unfold get_has_sorted_indices, get_has_canonical_format.
  by rewrite !decide_True.
Qed.

Lemma empty_matrix_flags_witness :
  let m := Matrix CSR (2, 2) [] [] [0; 0; 0] (Some false) (Some false) in
  get_has_sorted_indices m
    = FlagRead true (set_sorted_attr m (Some true)) false ∧
  get_has_canonical_format m
    = FlagRead true (set_canonical_attr m (Some true)) false.
Proof.
  apply (empty_matrix_flags
           (Matrix CSR (2, 2) [] [] [0; 0; 0] (Some false) (Some false))).
  reflexivity.
Defined.

(** ** Bounds checks of the batch operations *)

Lemma foldl_max_spec (t : list Z) (h : Z) :
  foldl Z.max h t ∈ h :: t ∧ Forall (λ v, v ≤ foldl Z.max h t) (h :: t).
Proof.
  revert h. induction t as [|a t IH]; intros h; simpl.
  - split; [apply list_elem_of_here|]. repeat constructor. lia.
  - destruct (IH (Z.max h a)) as [Hin Hall]. split.
    + apply elem_of_cons in Hin as [Heq|Hin].
      * rewrite Heq. destruct (Z.max_spec h a) as [[_ ->]|[_ ->]].
        all: rewrite !elem_of_cons; auto.
      * rewrite !elem_of_cons; auto.
    + apply Forall_cons in Hall as [Hh Hall].
      repeat constructor; [lia|lia|done].
Qed.

Lemma foldl_min_spec (t : list Z) (h : Z) :
  foldl Z.min h t ∈ h :: t ∧ Forall (λ v, foldl Z.min h t ≤ v) (h :: t).
Proof.
  revert h. induction t as [|a t IH]; intros h; simpl.
  - split; [apply list_elem_of_here|]. repeat constructor. lia.
  - destruct (IH (Z.min h a)) as [Hin Hall]. split.
    + apply elem_of_cons in Hin as [Heq|Hin].
      * rewrite Heq. destruct (Z.min_spec h a) as [[_ ->]|[_ ->]].
        all: rewrite !elem_of_cons; auto.
      * rewrite !elem_of_cons; auto.
    + apply Forall_cons in Hall as [Hh Hall].
      repeat constructor; [lia|lia|done].
Qed.

Lemma check_bounds_ok (a : list Z) (bound : Z) :
  a ≠ [] → Forall (λ v, - bound ≤ v < bound) a →
  check_bounds a bound = Ok tt.
Proof.
  intros Hne Hall. destruct a as [|h t]; [done|]. unfold check_bounds. simpl.
  destruct (foldl_max_spec t h) as [Hmax _].
  destruct (foldl_min_spec t h) as [Hmin _].
  rewrite Forall_forall in Hall.
  apply Hall in Hmax. apply Hall in Hmin.
  rewrite decide_False by lia. by rewrite decide_False by lia.
Qed.




(** ** Cached flags under mutation *)

Lemma _insert_many_flags (m : matrix) (i j : list Z) (x : list float) :
  _has_sorted_indices (_insert_many m i j x) = _has_sorted_indices m ∧
  _has_canonical_format (_insert_many m i j x) = _has_canonical_format m ∧
  fmt (_insert_many m i j x) = fmt m ∧
  shape (_insert_many m i j x) = shape m.
Proof.
  unfold _insert_many.
  destruct (_select_last_indices _ _ _) as [[ii jj] xx].
  destruct (unique ii) as [rows ui]. unfold _perform_insert.
  by destruct (_insert_many_populate_arrays _ _ _ _ _ _ _ _ _ _).
Qed.

Lemma _set_many_flags (m : matrix) (i j : list Z) (x : list float) :
  _has_sorted_indices (snd (_set_many m i j x)) = _has_sorted_indices m ∧
  _has_canonical_format (snd (_set_many m i j x)) = _has_canonical_format m.
Proof.
  unfold _set_many. destruct (_prepare_indices m i j) as [[[[i' j'] M] N]|e];
    [|done].
  destruct (forallb _ _); [done|]. simpl.
  by destruct (_insert_many_flags
                 (set_data m (scatter (data m)
                    (compress ((λ o, bool_decide (o > -1))
                                 <$> sample_offsets m i' j' M N)
                       (sample_offsets m i' j' M N))
                    (compress ((λ o, bool_decide (o > -1))
                                 <$> sample_offsets m i' j' M N) x)))
                 (wrap_negative M
                    (compress (negb <$> ((λ o, bool_decide (o > -1))
                                 <$> sample_offsets m i' j' M N)) i'))
                 (wrap_negative N
                    (compress (negb <$> ((λ o, bool_decide (o > -1))
                                 <$> sample_offsets m i' j' M N)) j'))
                 (compress (negb <$> ((λ o, bool_decide (o > -1))
                                 <$> sample_offsets m i' j' M N)) x))
    as (-> & -> & _).
Qed.

Lemma _zero_many_flags (m : matrix) (i j : list Z) :
  _has_sorted_indices (snd (_zero_many m i j)) = _has_sorted_indices m ∧
  _has_canonical_format (snd (_zero_many m i j)) = _has_canonical_format m.
Proof.
  unfold _zero_many.
  by destruct (_prepare_indices m i j) as [[[[i' j'] M] N]|e].
Qed.

(** C8, as the code has it: no mutation resets the cached flags.  Batch
    insertion, batch set (value-only or not) and batch zero leave
    [_has_sorted_indices] and [_has_canonical_format] exactly as they were,
    and on a matrix with stored entries a read of a cached flag returns the
    cached value without launching the check kernel. *)
Theorem mutation_keeps_cached_flags (m : matrix) (i j : list Z)
    (x : list float) :
  (_has_sorted_indices (_insert_many m i j x) = _has_sorted_indices m ∧
   _has_canonical_format (_insert_many m i j x) = _has_canonical_format m) ∧
  (_has_sorted_indices (snd (_set_many m i j x)) = _has_sorted_indices m ∧
   _has_canonical_format (snd (_set_many m i j x))
     = _has_canonical_format m) ∧
  (_has_sorted_indices (snd (_zero_many m i j)) = _has_sorted_indices m ∧
   _has_canonical_format (snd (_zero_many m i j))
     = _has_canonical_format m) ∧
  (∀ v, size (data m) ≠ 0 → _has_sorted_indices m = Some v →
        get_has_sorted_indices m = FlagRead v m false) ∧
  (∀ v, size (data m) ≠ 0 → _has_sorted_indices m ≠ Some false →
        _has_canonical_format m = Some v →
        get_has_canonical_format m = FlagRead v m false).
Proof.
  split; [by destruct (_insert_many_flags m i j x) as (-> & -> & _)|].
  split; [apply _set_many_flags|].
  split; [apply _zero_many_flags|].
  split.
  - intros v Hsz Hs. unfold get_has_sorted_indices.
    rewrite decide_False by done. by rewrite Hs.
  - intros v Hsz Hs Hc. unfold get_has_canonical_format.
    rewrite decide_False by done. rewrite Hc.
    by destruct (_has_sorted_indices m) as [[]|].
Qed.

Lemma mutation_keeps_cached_flags_witness :
  let m := Matrix CSR (5, 5) [7%float; 9%float] [2; 4] [0; 0; 1; 1; 2; 2]
                  (Some true) (Some true) in
  get_has_sorted_indices m = FlagRead true m false ∧
  get_has_canonical_format m = FlagRead true m false.
Proof.
  pose proof (mutation_keeps_cached_flags
                (Matrix CSR (5, 5) [7%float; 9%float] [2; 4]
                        [0; 0; 1; 1; 2; 2] (Some true) (Some true))
                [0] [0] [1%float]) as (_ & _ & _ & Hs & Hc).
  split.
  - apply Hs; [intros H; discriminate H | reflexivity].
  - apply Hc; [intros H; discriminate H | intros H; discriminate H
              | reflexivity].
Defined.

(** C8, as stated, fails: a matrix whose flags were cached by a read keeps
    them through a batch insertion (they are not back to the unknown
    state), and the next read answers from the cache without launching the
    check kernel. *)
Lemma insertion_resets_flags_counterexample :
  let m0 := Matrix CSR (5, 5) [7%float; 9%float] [2; 4] [0; 0; 1; 1; 2; 2]
                   None None in
  let m1 := read_self (get_has_sorted_indices m0) in
  let m2 := read_self (get_has_canonical_format m1) in
  let m3 := _insert_many m2 [0; 1] [3; 0] [1%float; 2%float] in
  indices m3 = [3; 0; 2; 4] ∧
  _has_sorted_indices m3 ≠ None ∧
  _has_canonical_format m3 ≠ None ∧
  read_launched (get_has_sorted_indices m3) = false ∧
  read_launched (get_has_canonical_format m3) = false.
Proof.
  vm_compute. repeat split; discriminate.
Qed.

(** ** Slices *)

Lemma slice_lookup {A} (a : list A) (lo hi : Z) (k : nat) :
  0 ≤ lo → lo + Z.of_nat k < hi →
  slice a lo hi !! k = a !! (Z.to_nat lo + k)%nat.
Proof.
  intros Hlo Hk. unfold slice.
  rewrite lookup_take_lt by lia. by rewrite lookup_drop.
Qed.

Lemma slice_lookup_ge {A} (a : list A) (lo hi : Z) (k : nat) :
  hi ≤ lo + Z.of_nat k → slice a lo hi !! k = None.
Proof.
  intros Hk. unfold slice. apply lookup_ge_None.
  rewrite length_take. lia.
Qed.

Lemma length_slice {A} (a : list A) (lo hi : Z) :
  0 ≤ lo → lo ≤ hi → hi ≤ size a →
  length (slice a lo hi) = Z.to_nat (hi - lo).
Proof.
  intros Hlo Hle Hhi. unfold slice, size in *.
  rewrite length_take, length_drop. lia.
Qed.

Lemma slice_rd {A} (d : A) (a : list A) (lo hi : Z) (k : nat) :
  0 ≤ lo → lo + Z.of_nat k < hi → hi ≤ size a →
  slice a lo hi !! k = Some (rd d a (lo + Z.of_nat k)).
Proof.
  intros Hlo Hk Hhi. rewrite slice_lookup by done.
  unfold rd, size in *. rewrite decide_True by lia.
  replace (Z.to_nat (lo + Z.of_nat k)) with (Z.to_nat lo + k)%nat by lia.
  destruct (lookup_lt_is_Some_2 a (Z.to_nat lo + k)) as [v ->]; [lia|done].
Qed.

(** ** Scalar get *)


(** ** Row offsets of a well-formed matrix *)

Lemma diff_lookup (a : list Z) (k : nat) :
  (k + 1 < length a)%nat →
  diff a !! k = Some (rd 0 a (Z.of_nat k + 1) - rd 0 a (Z.of_nat k)).
Proof.
  intros Hk. unfold diff. apply lookup_zip_with_Some.
  destruct (lookup_lt_is_Some_2 a k) as [u Hu]; [lia|].
  destruct (lookup_lt_is_Some_2 a (k + 1)) as [v Hv]; [lia|].
  exists u, v. split; [|split; [done|]].
  - replace (Z.of_nat k + 1) with (Z.of_nat (k + 1)) by lia.
    by rewrite !rd_of_nat, Hu, Hv.
  - rewrite lookup_drop. by rewrite Nat.add_comm.
Qed.

Lemma nondecreasing_step (a : list Z) (k : nat) :
  Forall (λ d, 0 ≤ d) (diff a) → (k + 1 < length a)%nat →
  rd 0 a (Z.of_nat k) ≤ rd 0 a (Z.of_nat k + 1).
Proof.
  intros Hall Hk. rewrite Forall_forall in Hall.
  pose proof (diff_lookup a k Hk) as Hd.
  apply list_elem_of_lookup_2 in Hd. apply Hall in Hd. lia.
Qed.

Lemma nondecreasing_rd (a : list Z) (i j : nat) :
  Forall (λ d, 0 ≤ d) (diff a) → (i ≤ j)%nat → (j < length a)%nat →
  rd 0 a (Z.of_nat i) ≤ rd 0 a (Z.of_nat j).
Proof.
  intros Hall Hij Hj. induction j as [|j IH].
  - by replace i with 0%nat by lia.
  - destruct (decide (i = S j)) as [->|Hne]; [done|].
    transitivity (rd 0 a (Z.of_nat j)); [apply IH; lia|].
    replace (Z.of_nat (S j)) with (Z.of_nat j + 1) by lia.
    apply nondecreasing_step; [done|lia].
Qed.

Lemma wf_indptr_mono (m : matrix) (r r' : Z) :
  wf_matrix m → 0 ≤ r → r ≤ r' → r' ≤ major_dim m →
  rd 0 (indptr m) r ≤ rd 0 (indptr m) r'.
Proof.
  intros (HM & Hsz & H0 & Hdiff & Hlast & Hlen & Hind) Hr Hrr Hr'.
  unfold size in Hsz.
  pose proof (nondecreasing_rd (indptr m) (Z.to_nat r) (Z.to_nat r') Hdiff)
    as Hmono.
  rewrite !Z2Nat.id in Hmono by lia. apply Hmono; lia.
Qed.

Lemma wf_row_bounds (m : matrix) (r : Z) :
  wf_matrix m → 0 ≤ r < major_dim m →
  0 ≤ rd 0 (indptr m) r ∧ rd 0 (indptr m) r ≤ rd 0 (indptr m) (r + 1)
  ∧ rd 0 (indptr m) (r + 1) ≤ nnz m.
Proof.
  intros Hwf Hr.
  pose proof (wf_indptr_mono m 0 r Hwf) as H1.
  pose proof (wf_indptr_mono m r (r + 1) Hwf) as H2.
  pose proof (wf_indptr_mono m (r + 1) (major_dim m) Hwf) as H3.
  destruct Hwf as (HM & Hsz & H0 & Hdiff & Hlast & Hlen & Hind).
  rewrite H0 in H1. rewrite Hlast in H3. lia.
Qed.


(** Closed arithmetic facts on concrete inputs. *)
Ltac by_compute :=
  vm_compute;
  repeat match goal with
         | |- _ ∧ _ => split
         | |- _ → False => let H := fresh in intros H; discriminate H
         | |- ¬ _ => let H := fresh in intros H; discriminate H
         | |- _ = _ => reflexivity
         | |- Forall _ _ => constructor
         | |- True => exact I
         end.


(** ** Writes *)

Lemma length_wr {A} (a : list A) (i : Z) (v : A) :
  length (wr a i v) = length a.
Proof. unfold wr. destruct (decide _); [apply length_insert|done]. Qed.

Lemma rd_wr_eq {A} (d : A) (a : list A) (i : Z) (v : A) :
  0 ≤ i < size a → rd d (wr a i v) i = v.
Proof.
  intros [Hi Hlt]. unfold rd, wr, size in *. rewrite !decide_True by done.
  by rewrite list_lookup_insert_eq by lia.
Qed.

Lemma rd_wr_ne {A} (d : A) (a : list A) (i j : Z) (v : A) :
  i ≠ j → rd d (wr a i v) j = rd d a j.
Proof.
  intros Hne. unfold rd, wr.
  destruct (decide (0 ≤ j)); [|done]. destruct (decide (0 ≤ i)); [|done].
  by rewrite list_lookup_insert_ne by lia.
Qed.

Lemma rd_wr_oob {A} (d : A) (a : list A) (i j : Z) (v : A) :
  ¬ (0 ≤ i < size a) → rd d (wr a i v) j = rd d a j.
Proof.
  intros Hi. unfold wr, size in *. destruct (decide (0 ≤ i)); [|done].
  by rewrite list_insert_ge by lia.
Qed.

Lemma scatter_cons {A} (a : list A) (k : Z) (ks : list Z) (v : A)
    (vs : list A) :
  scatter a (k :: ks) (v :: vs) = scatter (wr a k v) ks vs.
Proof. done. Qed.

Lemma length_scatter {A} (idx : list Z) (vals : list A) (a : list A) :
  length (scatter a idx vals) = length a.
Proof.
  revert a vals. induction idx as [|k ks IH]; intros a [|v vs]; try done.
  rewrite scatter_cons, IH. apply length_wr.
Qed.


(** ** Lookup of a coordinate *)

Lemma find_offset_Some (indptr indices : list Z) (major minor p : Z) :
  find_offset indptr indices major minor = Some p ↔
  rd 0 indptr major ≤ p < rd 0 indptr (major + 1)
  ∧ rd 0 indices p = minor
  ∧ ∀ q, rd 0 indptr major ≤ q < p → rd 0 indices q ≠ minor.
Proof.
  unfold find_offset.
  set (lo := rd 0 indptr major). set (hi := rd 0 indptr (major + 1)).
  split.
  - intros Hf. apply fmap_Some in Hf as ([k p'] & Hf & ->). simpl.
    apply list_find_Some in Hf as (Hk & Hp & Hfirst).
    apply lookup_seqZ in Hk as [-> Hk].
    split; [lia|]. split; [done|]. intros q Hq.
    apply (Hfirst (Z.to_nat (q - lo)) q); [|lia].
    apply lookup_seqZ. lia.
  - intros (Hp & Hm & Hfirst). apply fmap_Some.
    exists (Z.to_nat (p - lo), p). split; [|done].
    apply list_find_Some. split; [apply lookup_seqZ; lia|].
    split; [done|]. intros j y Hj Hlt.
    apply lookup_seqZ in Hj as [-> Hj]. apply Hfirst. lia.
Qed.

Lemma find_offset_None (indptr indices : list Z) (major minor : Z) :
  find_offset indptr indices major minor = None ↔
  ∀ q, rd 0 indptr major ≤ q < rd 0 indptr (major + 1) →
       rd 0 indices q ≠ minor.
Proof.
  unfold find_offset. rewrite fmap_None, list_find_None, Forall_forall.
  split.
  - intros H q Hq. apply H. apply elem_of_seqZ. lia.
  - intros H q Hq. apply H. apply elem_of_seqZ in Hq. lia.
Qed.

Lemma rd_seqZ (d n p : Z) : 0 ≤ p < n → rd d (seqZ 0 n) p = p.
Proof.
  intros Hp. apply rd_lookup; [lia|]. apply lookup_seqZ. lia.
Qed.

Lemma float32_of_index_exact (k : Z) :
  k ≤ 2 ^ 24 → float32_of_index k = k.
Proof.
  intros Hk. unfold float32_of_index.
  destruct (decide (k < 2 ^ 24)) as [|Hge]; [done|].
  assert (k = 2 ^ 24) as -> by lia. by vm_compute.
Qed.

Lemma rd_arange_float32 (d n p : Z) :
  0 ≤ p < n → rd d (arange_float32 n) p = float32_of_index p.
Proof.
  intros Hp. apply rd_lookup; [lia|]. unfold arange_float32.
  rewrite list_lookup_fmap.
  replace (seqZ 0 n !! Z.to_nat p) with (Some p); [done|].
  symmetry. apply lookup_seqZ. lia.
Qed.

Lemma wrap_index_range (bound v : Z) :
  - bound ≤ v < bound → 0 ≤ wrap_index bound v < bound.
Proof. unfold wrap_index. destruct (decide _); lia. Qed.

Lemma wrap_index_nonneg (bound v : Z) : 0 ≤ v → wrap_index bound v = v.
Proof. intros Hv. unfold wrap_index. by rewrite decide_False by lia. Qed.

Lemma wf_rows_disjoint (m : matrix) (r r' p : Z) :
  wf_matrix m → 0 ≤ r < major_dim m → 0 ≤ r' < major_dim m →
  rd 0 (indptr m) r ≤ p < rd 0 (indptr m) (r + 1) →
  rd 0 (indptr m) r' ≤ p < rd 0 (indptr m) (r' + 1) →
  r = r'.
Proof.
  intros Hwf Hr Hr' Hp Hp'.
  destruct (Z.lt_trichotomy r r') as [Hlt|[->|Hgt]]; [|done|].
  - pose proof (wf_indptr_mono m (r + 1) r' Hwf). lia.
  - pose proof (wf_indptr_mono m (r' + 1) r Hwf). lia.
Qed.



Lemma _prepare_indices_ok (m : matrix) (i j : list Z) :
  i ≠ [] → length i = length j →
  Forall (λ v, - major_dim m ≤ v < major_dim m) i →
  Forall (λ v, - minor_dim m ≤ v < minor_dim m) j →
  _prepare_indices m i j = Ok (i, j, major_dim m, minor_dim m).
Proof.
  intros Hne Hlen Hi Hj. unfold _prepare_indices.
  rewrite !check_bounds_ok; try done.
  intros ->. by destruct i.
Qed.


Example zero_many_small_matrix :
  let m := Matrix CSR (5, 5) [7%float; 9%float] [2; 4] [0; 0; 1; 1; 2; 2]
                  None None in
  let m' := snd (_zero_many m [1; -2] [2; -4]) in
  fst (_zero_many m [1; -2] [2; -4]) = Ok tt ∧
  indices m' = indices m ∧ indptr m' = indptr m ∧
  data m' = [0%float; 9%float].
Proof. by vm_compute. Qed.

Lemma rd_zeros {A} (d v : A) (n p : Z) : 0 ≤ p < n → rd d (zeros v n) p = v.
Proof.
  intros Hp. apply rd_lookup; [lia|]. unfold zeros.
  apply lookup_replicate_2. lia.
Qed.

(** The one-row matrix with every position stored is well formed, and the
    entry of column [c] is at offset [c]. *)
Lemma dense_row_facts (n : Z) (v : float) :
  0 ≤ n →
  wf_matrix (dense_row n v) ∧
  major_dim (dense_row n v) = 1 ∧ minor_dim (dense_row n v) = n ∧
  ∀ c, 0 ≤ c < n →
    find_offset (indptr (dense_row n v)) (indices (dense_row n v)) 0 c
      = Some c
    ∧ rd 0%float (data (dense_row n v)) c = v.
Proof.
  intros Hn.
  assert (rd 0 [0; n] 0 = 0) as H0 by done.
  assert (rd 0 [0; n] 1 = n) as H1 by done.
  split; [|split; [done|split; [done|]]].
  - unfold wf_matrix, major_dim, minor_dim, nnz, size, dense_row, zeros.
    cbn [fmt shape data indices indptr _swap fst snd].
    rewrite length_replicate, length_seqZ, H0, H1.
    split; [lia|]. split; [done|]. split; [done|].
    split; [repeat constructor; lia|]. split; [lia|]. split; [done|].
    apply Forall_forall. intros c Hc. apply elem_of_seqZ in Hc. lia.
  - intros c Hc. unfold dense_row.
    cbn [fmt shape data indices indptr]. split; [|by apply rd_zeros].
    apply find_offset_Some. change (0 + 1) with 1. rewrite H0, H1.
    split; [lia|]. split; [by apply rd_seqZ|].
    intros q Hq. rewrite rd_seqZ by lia. lia.
Qed.

(** C7: batch zero does not hold on every matrix.  The position of a stored
    entry reaches the write as a [float32] value, and 16777217 = 2^24 + 1
    is not one: when the entry of the coordinate (r, c) is stored at offset
    16777217, batch zero of (r, c) leaves its value as it was and writes
    the zero at offset 16777216, over the value of another entry. *)
Theorem zero_many_float32_offset (m : matrix) (r c : Z) :
  wf_matrix m → 0 ≤ r < major_dim m → 0 ≤ c < minor_dim m →
  find_offset (indptr m) (indices m) r c = Some 16777217 →
  let m' := snd (_zero_many m [r] [c]) in
  fst (_zero_many m [r] [c]) = Ok tt ∧
  rd 0%float (data m') 16777217 = rd 0%float (data m) 16777217 ∧
  rd 0%float (data m') 16777216 = 0%float.
Proof.
  intros Hwf Hr Hc Hf m'. subst m'. unfold _zero_many.
  rewrite _prepare_indices_ok;
    [|done|done|constructor; [lia|constructor]
     |constructor; [lia|constructor]].
  assert (0 ≤ 16777217 < nnz m) as Hp.
  { apply find_offset_Some in Hf as (Hp & _).
    pose proof (wf_row_bounds m r Hwf Hr). lia. }
  assert (sample_offsets m [r] [c] (major_dim m) (minor_dim m) = [16777216])
    as ->.
  { unfold sample_offsets, _csr_sample_values. cbn [zip_with].
    rewrite !wrap_index_nonneg by lia. rewrite Hf.
    by rewrite rd_arange_float32 by done. }
  rewrite filter_cons_True by lia. rewrite filter_nil.
  change (scatter (data m) [16777216] (zeros 0%float (size [16777216])))
    with (wr (data m) 16777216 0%float).
  cbn [fst snd data set_data set_arrays].
  split; [done|]. split.
  - by apply rd_wr_ne.
  - apply rd_wr_eq. unfold nnz in Hp. lia.
Qed.

Lemma zero_many_float32_offset_witness :
  let m := dense_row 16777218 1%float in
  let m' := snd (_zero_many m [0] [16777217]) in
  rd 0%float (data m) 16777216 = 1%float ∧
  rd 0%float (data m') 16777217 = 1%float ∧
  rd 0%float (data m') 16777216 = 0%float.
Proof.
  intros m m'.
  destruct (dense_row_facts 16777218 1%float) as (Hwf & HM & HN & Hrow);
    [lia|].
  destruct (Hrow 16777217) as [Hf Hv]; [lia|].
  destruct (Hrow 16777216) as [_ Hv']; [lia|].
  destruct (zero_many_float32_offset m 0 16777217 Hwf)
    as (_ & Hkept & Hzero).
  - subst m. rewrite HM. lia.
  - subst m. rewrite HN. lia.
  - exact Hf.
  - split; [exact Hv'|]. split; [|exact Hzero].
    subst m'. rewrite Hkept. exact Hv.
Defined.

(** ** The stable sort *)

Section SortingFacts.
Context {A K : Type} (key : A → K) (le : relation K) `{!RelDecision le}.
Context `{!Total le, !Transitive le}.

Local Abbreviation key_le := (λ a b : A, le (key a) (key b)).

Lemma le_refl_total (k : K) : le k k.
Proof. by destruct (total le k k). Qed.

Lemma insert_by_Permutation (a : A) (l : list A) :
  insert_by key le a l ≡ₚ a :: l.
Proof.
  induction l as [|h t IH]; [done|]. simpl.
  destruct (decide _); [done|]. rewrite IH. apply Permutation_swap.
Qed.

Lemma stable_sort_Permutation (l : list A) : stable_sort key le l ≡ₚ l.
Proof.
  induction l as [|a l IH]; [done|]. simpl.
  by rewrite insert_by_Permutation, IH.
Qed.

Lemma insert_by_sorted (a : A) (l : list A) :
  StronglySorted key_le l → StronglySorted key_le (insert_by key le a l).
Proof.
  induction 1 as [|h t Hs IH Hall]; simpl.
  - repeat constructor.
  - destruct (decide (le (key a) (key h))) as [Hle|Hnle].
    + constructor; [by constructor|]. constructor; [done|].
      eapply Forall_impl; [exact Hall|]. intros b Hb. by transitivity (key h).
    + constructor; [done|].
      rewrite insert_by_Permutation. constructor; [|done].
      by destruct (total le (key a) (key h)).
Qed.

Lemma stable_sort_sorted (l : list A) :
  StronglySorted key_le (stable_sort key le l).
Proof.
  induction l as [|a l IH]; simpl; [constructor|]. by apply insert_by_sorted.
Qed.

(** Stability: the elements of one key appear in their original order. *)
Lemma insert_by_filter `{!EqDecision K} (c : K) (a : A) (l : list A) :
  filter (λ b, key b = c) (insert_by key le a l)
  = filter (λ b, key b = c) (a :: l).
Proof.
  induction l as [|h t IH]; [done|]. simpl.
  destruct (decide (le (key a) (key h))) as [Hle|Hnle]; [done|].
  rewrite (filter_cons _ h), IH, !filter_cons.
  destruct (decide (key h = c)) as [Hh|Hh]; [|done].
  destruct (decide (key a = c)) as [Ha|Ha]; [|done].
  destruct Hnle. rewrite Ha, Hh. apply le_refl_total.
Qed.

Lemma stable_sort_filter `{!EqDecision K} (c : K) (l : list A) :
  filter (λ b, key b = c) (stable_sort key le l) = filter (λ b, key b = c) l.
Proof.
  induction l as [|a l IH]; [done|]. simpl.
  by rewrite insert_by_filter, !filter_cons, IH.
Qed.

Lemma insert_by_fmap {B} (f : B → A) (b : B) (l : list B) :
  f <$> insert_by (λ x, key (f x)) le b l = insert_by key le (f b) (f <$> l).
Proof.
  induction l as [|h t IH]; [done|]. simpl.
  destruct (decide _); [done|]. simpl. f_equal. apply IH.
Qed.

Lemma stable_sort_fmap {B} (f : B → A) (l : list B) :
  f <$> stable_sort (λ x, key (f x)) le l = stable_sort key le (f <$> l).
Proof.
  induction l as [|b l IH]; [done|]. simpl.
  rewrite insert_by_fmap. f_equal. apply IH.
Qed.
End SortingFacts.

(** ** Runs of equal keys in a sorted list *)

Lemma sumZ_cons (a : Z) (l : list Z) : sumZ (a :: l) = a + sumZ l.
Proof. done. Qed.

Lemma sumZ_app (l1 l2 : list Z) : sumZ (l1 ++ l2) = sumZ l1 + sumZ l2.
Proof. induction l1 as [|a l1 IH]; simpl; [done|]. rewrite IH. lia. Qed.

Section Runs.
Context {A : Type} (key : A → Z).

Local Abbreviation key_le := (λ a b : A, key a ≤ key b).

Lemma filter_lt_nil (c : Z) (l : list A) :
  Forall (λ b, c ≤ key b) l → filter (λ b, key b < c) l = [].
Proof.
  induction 1 as [|a l Ha _ IH]; [done|].
  rewrite filter_cons, decide_False by lia. done.
Qed.

Lemma filter_eq_nil (c : Z) (l : list A) :
  Forall (λ b, c < key b) l → filter (λ b, key b = c) l = [].
Proof.
  induction 1 as [|a l Ha _ IH]; [done|].
  rewrite filter_cons, decide_False by lia. done.
Qed.

Lemma filter_gt_all (c : Z) (l : list A) :
  Forall (λ b, c < key b) l → filter (λ b, c < key b) l = l.
Proof.
  induction 1 as [|a l Ha _ IH]; [done|].
  rewrite filter_cons, decide_True by lia. by rewrite IH.
Qed.

(** A list sorted by key is the keys below [c], then the keys equal to
    [c], then the keys above [c]. *)
Lemma sorted_three_way (c : Z) (l : list A) :
  StronglySorted key_le l →
  l = filter (λ b, key b < c) l ++ filter (λ b, key b = c) l
      ++ filter (λ b, c < key b) l.
Proof.
  induction 1 as [|a l Hs IH Hall]; [done|].
  rewrite !filter_cons.
  destruct (Z.lt_trichotomy (key a) c) as [Hlt|[Heq|Hgt]].
  - rewrite decide_True, decide_False, decide_False by lia. simpl.
    by rewrite <- IH.
  - rewrite decide_False, decide_True, decide_False by lia.
    rewrite filter_lt_nil.
    2:{ eapply Forall_impl; [exact Hall|]. simpl. lia. }
    rewrite filter_lt_nil in IH.
    2:{ eapply Forall_impl; [exact Hall|]. simpl. lia. }
    simpl in *. by rewrite <- IH.
  - rewrite decide_False, decide_False, decide_True by lia.
    assert (Forall (λ b, c < key b) l) as Hbig.
    { eapply Forall_impl; [exact Hall|]. simpl. lia. }
    rewrite filter_lt_nil by (eapply Forall_impl; [exact Hbig|]; simpl; lia).
    rewrite filter_eq_nil by done. simpl. by rewrite filter_gt_all.
Qed.

(** The run of key [c] sits between the number of smaller keys and the
    number of keys up to [c]. *)
Lemma sorted_run (c : Z) (l : list A) :
  StronglySorted key_le l →
  let lo := Z.of_nat (length (filter (λ b, key b < c) l)) in
  let n := Z.of_nat (length (filter (λ b, key b = c) l)) in
  slice l lo (lo + n) = filter (λ b, key b = c) l.
Proof.
  intros Hs lo n. unfold slice.
  rewrite (sorted_three_way c l Hs) at 1.
  subst lo n. rewrite Nat2Z.id.
  rewrite drop_app_length.
  replace (Z.to_nat _) with (length (filter (λ b, key b = c) l)) by lia.
  by rewrite take_app_length.
Qed.

Lemma length_filter_lt_succ (c : Z) (l : list A) :
  length (filter (λ b, key b < c + 1) l)
  = (length (filter (λ b, (key b < c)%Z) l)
     + length (filter (λ b, key b = c) l))%nat.
Proof.
  induction l as [|a l IH]; [done|]. rewrite !filter_cons.
  destruct (Z.lt_trichotomy (key a) c) as [Hlt|[Heq|Hgt]].
  - rewrite decide_True, decide_True, decide_False by lia. simpl. lia.
  - rewrite decide_True, decide_False, decide_True by lia. simpl. lia.
  - rewrite decide_False, decide_False, decide_False by lia. lia.
Qed.

(** With non-negative keys, the number of keys below [c] is the sum of the
    per-key counts of [0 .. c-1]. *)
Lemma length_filter_lt_sum (n : nat) (l : list A) :
  Forall (λ b, 0 ≤ key b) l →
  Z.of_nat (length (filter (λ b, key b < Z.of_nat n) l))
  = sumZ ((λ v, Z.of_nat (length (filter (λ b, key b = v) l)))
            <$> seqZ 0 (Z.of_nat n)).
Proof.
  intros Hnn. induction n as [|n IH].
  - simpl. rewrite filter_lt_nil; [done|].
    eapply Forall_impl; [exact Hnn|]. simpl. lia.
  - replace (Z.of_nat (S n)) with (Z.of_nat n + 1) by lia.
    rewrite seqZ_succ by lia. rewrite fmap_app, sumZ_app, <- IH.
    rewrite length_filter_lt_succ. simpl.
    replace (0 + Z.of_nat n) with (Z.of_nat n) by lia. lia.
Qed.
End Runs.

(** ** Prefix sums *)

Lemma length_cumsum_from (acc : Z) (l : list Z) :
  length (cumsum_from acc l) = length l.
Proof.
  revert acc. induction l as [|a l IH]; intros acc; simpl; [done|].
  by rewrite IH.
Qed.

Lemma length_cumsum (l : list Z) : length (cumsum l) = length l.
Proof. apply length_cumsum_from. Qed.

Lemma cumsum_from_lookup (l : list Z) (acc : Z) (k : nat) :
  (k < length l)%nat →
  cumsum_from acc l !! k = Some (acc + sumZ (take (S k) l)).
Proof.
  revert acc k. induction l as [|a l IH]; intros acc k Hk; simpl in *; [lia|].
  destruct k as [|k]; simpl.
  - f_equal. lia.
  - rewrite IH by lia. f_equal. simpl. lia.
Qed.

Lemma cumsum_cons_0 (l : list Z) : cumsum (0 :: l) = 0 :: cumsum l.
Proof. done. Qed.

(** Slot [r] of [0 :: cumsum l] is the sum of the first [r] elements. *)
Lemma rd_prefix (l : list Z) (r : nat) :
  (r ≤ length l)%nat →
  rd 0 (0 :: cumsum l) (Z.of_nat r) = sumZ (take r l).
Proof.
  intros Hr. rewrite rd_of_nat. destruct r as [|r]; [done|].
  simpl. unfold cumsum. rewrite cumsum_from_lookup by lia. simpl. lia.
Qed.

Lemma last_prefix (l : list Z) :
  default 0 (last (0 :: cumsum l)) = sumZ l.
Proof.
  rewrite last_lookup.
  replace (Nat.pred (length (0 :: cumsum l))) with (length l)
    by (simpl; by rewrite length_cumsum).
  pose proof (rd_prefix l (length l)) as H. rewrite rd_of_nat in H.
  rewrite H by lia. by rewrite firstn_all.
Qed.

Lemma diff_prefix (l : list Z) : diff (0 :: cumsum l) = l.
Proof.
  apply list_eq. intros k.
  destruct (decide (k < length l)%nat) as [Hk|Hk].
  - rewrite diff_lookup by (simpl; rewrite length_cumsum; lia).
    replace (Z.of_nat k + 1) with (Z.of_nat (S k)) by lia.
    rewrite !rd_prefix by lia.
    destruct (lookup_lt_is_Some_2 l k Hk) as [v Hv].
    rewrite (take_S_r _ _ _ Hv), sumZ_app, Hv. simpl. f_equal. lia.
  - rewrite (lookup_ge_None_2 l) by lia. apply lookup_ge_None_2.
    unfold diff. rewrite length_zip_with, length_drop, length_cons.
    rewrite length_cumsum. lia.
Qed.

Lemma cumsum_from_diff (t : list Z) (acc : Z) :
  cumsum_from acc (diff (acc :: t)) = t.
Proof.
  revert acc. induction t as [|b t IH]; intros acc; [done|].
  unfold diff in *. simpl in *.
  replace (acc + (b - acc)) with b by lia. f_equal. apply IH.
Qed.

(** A non-empty array starting at 0 is the prefix sums of its
    differences. *)
Lemma prefix_diff (a : list Z) :
  rd 0 a 0 = 0 → a ≠ [] → 0 :: cumsum (diff a) = a.
Proof.
  intros H0 Hne. destruct a as [|h t]; [done|].
  unfold rd in H0. simpl in H0. subst h. f_equal. apply cumsum_from_diff.
Qed.

(** ** Counting by repeated increment *)

Lemma count_cons (v c : Z) (l : list Z) :
  count v (c :: l) = (if decide (c = v) then 1 else 0) + count v l.
Proof.
  unfold count. rewrite filter_cons. destruct (decide (c = v)); simpl; lia.
Qed.

Lemma count_nonneg (v : Z) (l : list Z) : 0 ≤ count v l.
Proof. unfold count. lia. Qed.

Lemma count_le_size (v : Z) (l : list Z) : count v l ≤ size l.
Proof.
  unfold count, size. pose proof (length_filter (λ w, w = v) l). lia.
Qed.

Lemma length_incr_all (f : list Z → Z → Z) (l : list Z) (cnt : list Z) :
  length (foldl (λ cnt c, wr cnt c (f cnt c)) cnt l) = length cnt.
Proof.
  revert cnt. induction l as [|c l IH]; intros cnt; simpl; [done|].
  by rewrite IH, length_wr.
Qed.

(** After one increment per element of [l], slot [v] has grown by the
    number of occurrences of [v] in [l]. *)
Lemma rd_incr_all (l : list Z) (cnt : list Z) (v : Z) :
  0 ≤ v < size cnt →
  rd 0 (foldl (λ cnt c, wr cnt c (rd 0 cnt c + 1)) cnt l) v
  = rd 0 cnt v + count v l.
Proof.
  revert cnt. induction l as [|c l IH]; intros cnt Hv; simpl.
  - unfold count. simpl. lia.
  - rewrite IH by (unfold size in *; by rewrite length_wr).
    rewrite count_cons. destruct (decide (c = v)) as [->|Hne].
    + rewrite rd_wr_eq by done. lia.
    + rewrite rd_wr_ne by done. lia.
Qed.

(** ** Machine integers *)

Lemma int32_id (z : Z) : - 2 ^ 31 ≤ z < 2 ^ 31 → int32 z = z.
Proof. intros Hz. unfold int32. rewrite Z.mod_small by lia. lia. Qed.

Lemma fmap_int32_id (l : list Z) :
  Forall (λ z, - 2 ^ 31 ≤ z < 2 ^ 31) l → int32 <$> l = l.
Proof.
  induction 1 as [|z l Hz _ IH]; [done|].
  by rewrite fmap_cons, IH, int32_id.
Qed.

Lemma sumZ_nonneg (l : list Z) : Forall (λ c, 0 ≤ c) l → 0 ≤ sumZ l.
Proof. induction 1 as [|c l Hc _ IH]; [done|]. rewrite sumZ_cons. lia. Qed.

(** While no counter leaves the range of [int32], counting with
    wrap-around is counting. *)
Lemma incr_all_int32 (l cnt : list Z) :
  (∀ v, 0 ≤ rd 0 cnt v ∧ rd 0 cnt v + count v l < 2 ^ 31) →
  foldl (λ cnt c, wr cnt c (int32 (rd 0 cnt c + 1))) cnt l
  = foldl (λ cnt c, wr cnt c (rd 0 cnt c + 1)) cnt l.
Proof.
  revert cnt. induction l as [|c l IH]; intros cnt Hb; [done|]. simpl.
  assert (int32 (rd 0 cnt c + 1) = rd 0 cnt c + 1) as ->.
  { apply int32_id. pose proof (Hb c) as Hc.
    rewrite count_cons, decide_True in Hc by done.
    pose proof (count_nonneg c l). lia. }
  apply IH. intros v. pose proof (Hb v) as Hv. rewrite count_cons in Hv.
  pose proof (count_nonneg v l).
  destruct (decide (c = v)) as [->|Hne].
  - destruct (decide (0 ≤ v < size cnt)).
    + rewrite rd_wr_eq by done. lia.
    + rewrite rd_wr_oob by done. lia.
  - rewrite rd_wr_ne by done. lia.
Qed.

(** While the running sum stays in the range of [int32], the prefix sums
    with wrap-around are the prefix sums. *)
Lemma cumsum_int32_from_eq (l : list Z) (acc : Z) :
  0 ≤ acc → Forall (λ c, 0 ≤ c) l → acc + sumZ l < 2 ^ 31 →
  cumsum_int32_from acc l = cumsum_from acc l.
Proof.
  revert acc. induction l as [|h l IH]; intros acc Hacc Hl Hs; [done|].
  apply Forall_cons in Hl as [Hh Hl]. rewrite sumZ_cons in Hs.
  pose proof (sumZ_nonneg l Hl). simpl.
  rewrite int32_id by lia. f_equal. apply IH; [lia|done|lia].
Qed.

Lemma foldl_sum_int32 {A} (g : A → Z) (l : list A) (acc : Z) :
  0 ≤ acc → Forall (λ p, 0 ≤ g p) l → acc + sumZ (g <$> l) < 2 ^ 31 →
  foldl (λ acc p, int32 (acc + g p)) acc l = acc + sumZ (g <$> l).
Proof.
  revert acc. induction l as [|p l IH]; intros acc Hacc Hl Hs.
  - simpl. unfold sumZ. simpl. lia.
  - apply Forall_cons in Hl as [Hp Hl].
    rewrite fmap_cons, sumZ_cons in *. simpl.
    assert (0 ≤ sumZ (g <$> l)) as Hnn
      by (apply sumZ_nonneg, Forall_fmap; exact Hl).
    rewrite int32_id by lia. rewrite IH by (lia || done). lia.
Qed.

Lemma foldl_ext_in {S E} (f g : S → E → S) (a : S) (l : list E) :
  (∀ s x, x ∈ l → f s x = g s x) → foldl f a l = foldl g a l.
Proof.
  revert a. induction l as [|x l IH]; intros a Hfg; simpl; [done|].
  rewrite Hfg by apply list_elem_of_here.
  apply IH. intros s y Hy. apply Hfg. by apply list_elem_of_further.
Qed.

Lemma fmap_rd_seqZ {A} (d : A) (a : list A) :
  rd d a <$> seqZ 0 (size a) = a.
Proof.
  apply list_eq. intros k. rewrite list_lookup_fmap.
  destruct (decide (k < length a)%nat) as [Hk|Hk].
  - rewrite lookup_seqZ_lt by (unfold size; lia). simpl.
    rewrite Z.add_0_l, rd_of_nat.
    by destruct (lookup_lt_is_Some_2 a k Hk) as [v ->].
  - rewrite lookup_seqZ_ge by (unfold size; lia).
    by rewrite lookup_ge_None_2 by lia.
Qed.

Lemma foldl_fmap_list {A B C} (f : A → C → A) (g : B → C) (a : A)
    (l : list B) :
  foldl f a (g <$> l) = foldl (λ a x, f a (g x)) a l.
Proof. revert a. induction l as [|x l IH]; intros a; simpl; [done|]. apply IH. Qed.

Lemma rd_zeros_0 (n v : Z) : rd 0 (zeros 0 n) v = 0.
Proof.
  unfold rd, zeros. destruct (decide _); [|done].
  destruct (replicate _ _ !! _) as [z|] eqn:Hz; [|done].
  by apply lookup_replicate in Hz as [-> _].
Qed.

(** On fewer than 2^31 indices no counter of [bincount_idx_global] wraps
    around. *)
Lemma bincount_int32 (idx : list Z) (n : Z) :
  size idx < 2 ^ 31 →
  bincount_idx_global (size idx) idx (zeros 0 n)
  = foldl (λ cnt c, wr cnt c (rd 0 cnt c + 1)) (zeros 0 n) idx.
Proof.
  intros Hn. unfold bincount_idx_global.
  rewrite <- (foldl_fmap_list
                (λ cnt c, wr cnt c (int32 (rd 0 cnt c + 1))) (rd 0 idx)).
  rewrite fmap_rd_seqZ. apply incr_all_int32. intros v.
  rewrite rd_zeros_0.
  pose proof (count_le_size v idx). pose proof (count_nonneg v idx). lia.
Qed.

Lemma bincount_spec (idx : list Z) (n v : Z) :
  size idx < 2 ^ 31 → 0 ≤ v < n →
  rd 0 (bincount_idx_global (size idx) idx (zeros 0 n)) v = count v idx.
Proof.
  intros Hn Hv. rewrite bincount_int32 by done. rewrite rd_incr_all.
  - by rewrite rd_zeros_0.
  - unfold zeros, size. rewrite length_replicate. lia.
Qed.

Lemma length_bincount (idx : list Z) (n : Z) :
  length (bincount_idx_global (size idx) idx (zeros 0 n)) = Z.to_nat n.
Proof.
  unfold bincount_idx_global.
  rewrite <- (foldl_fmap_list
                (λ cnt c, wr cnt c (int32 (rd 0 cnt c + 1))) (rd 0 idx)).
  rewrite fmap_rd_seqZ.
  rewrite (length_incr_all (λ cnt c, int32 (rd 0 cnt c + 1))).
  apply length_replicate.
Qed.

(** ** Writing blocks into an array *)

Lemma length_splice {A} (B : list A) (o : nat) (blk : list A) :
  (o + length blk ≤ length B)%nat → length (splice B o blk) = length B.
Proof.
  intros H. unfold splice. rewrite !length_app, length_take, length_drop. lia.
Qed.

Lemma splice_nil {A} (B : list A) (o : nat) : splice B o [] = B.
Proof. unfold splice. simpl. rewrite Nat.add_0_r. apply take_drop. Qed.

Lemma splice_all {A} (B blk : list A) :
  length blk = length B → splice B 0 blk = blk.
Proof.
  intros H. unfold splice. simpl. rewrite drop_ge by lia.
  by rewrite app_nil_r.
Qed.

Lemma splice_adjacent {A} (B : list A) (o : nat) (b1 b2 : list A) :
  (o + length b1 + length b2 ≤ length B)%nat →
  splice (splice B o b1) (o + length b1) b2 = splice B o (b1 ++ b2).
Proof.
  intros H. unfold splice.
  assert (length (take o B) = o) as Hto by (rewrite length_take; lia).
  rewrite (app_assoc (take o B) b1).
  rewrite take_app_length' by (rewrite length_app; lia).
  rewrite drop_app_ge by (rewrite length_app; lia).
  rewrite drop_drop, !length_app, <- !app_assoc.
  rewrite Hto.
  by replace (o + length b1 + (o + length b1 + length b2 - (o + length b1)))%nat
    with (o + (length b1 + length b2))%nat by lia.
Qed.

Lemma list_inserts_splice {A} (B : list A) (o : nat) (blk : list A) :
  (o + length blk ≤ length B)%nat → list_inserts o blk B = splice B o blk.
Proof.
  intros H. unfold splice.
  rewrite <- (take_drop o B) at 1.
  replace o with (length (take o B) + 0)%nat at 1
    by (rewrite length_take; lia).
  rewrite list_inserts_app_r. f_equal.
  rewrite <- (take_drop (length blk) (drop o B)) at 1.
  rewrite list_inserts_0_r by (rewrite length_take, length_drop; lia).
  by rewrite drop_drop.
Qed.

(** The loop [for (k = 0; k < n; ++k) B[o + k] = f(k)] writes a block. *)
Lemma write_loop_splice {A} (f : Z → A) (B : list A) (o : Z) (n : nat) :
  0 ≤ o → o + Z.of_nat n ≤ size B →
  foldl (λ B k, wr B (o + k) (f k)) B (seqZ 0 (Z.of_nat n))
  = splice B (Z.to_nat o) (f <$> seqZ 0 (Z.of_nat n)).
Proof.
  intros Ho. induction n as [|n IH]; intros Hn.
  - simpl. by rewrite splice_nil.
  - replace (Z.of_nat (S n)) with (Z.of_nat n + 1) by lia.
    rewrite seqZ_succ by lia. rewrite foldl_app, fmap_app. simpl foldl.
    rewrite IH by lia. unfold size in *.
    rewrite <- splice_adjacent
      by (rewrite length_fmap, length_seqZ; simpl; lia).
    rewrite length_fmap, length_seqZ.
    set (B' := splice B (Z.to_nat o) (f <$> seqZ 0 (Z.of_nat n))).
    assert (length B' = length B) as HB'.
    { apply length_splice. rewrite length_fmap, length_seqZ. lia. }
    unfold wr. rewrite decide_True by lia.
    replace (Z.to_nat (o + (0 + Z.of_nat n)))
      with (Z.to_nat o + Z.to_nat (Z.of_nat n))%nat by lia.
    set (p := (Z.to_nat o + Z.to_nat (Z.of_nat n))%nat).
    unfold splice. simpl.
    rewrite <- (take_drop p B') at 1.
    rewrite insert_app_r_alt by (rewrite length_take; lia).
    rewrite length_take. replace (p - p `min` length B')%nat with 0%nat by lia.
    f_equal. destruct (drop p B') as [|x rest] eqn:Hd.
    { apply (f_equal length) in Hd. rewrite length_drop in Hd.
      simpl in Hd. lia. }
    simpl. f_equal.
    rewrite <- (drop_drop B' 1 p), Hd. done.
Qed.

(** ** Minor-axis fancy indexing: the ordering of [idx] *)

#[local] Instance Z_le_total_inst : Total Z.le.
Proof. intros x y. lia. Qed.

Lemma filter_fmap_eq {A} (f : A → Z) (c : Z) (l : list A) :
  filter (λ w, w = c) (f <$> l) = f <$> filter (λ a, f a = c) l.
Proof.
  induction l as [|a l IH]; [done|]. rewrite fmap_cons, !filter_cons.
  destruct (decide (f a = c)); [|done]. by rewrite fmap_cons, IH.
Qed.

Lemma count_positions (idx : list Z) (c : Z) :
  count c idx = Z.of_nat (length (positions idx c)).
Proof.
  unfold count, positions.
  rewrite <- (fmap_rd_seqZ 0 idx) at 1.
  by rewrite filter_fmap_eq, length_fmap.
Qed.

Lemma argsort_filter (idx : list Z) (c : Z) :
  filter (λ k, rd 0 idx k = c) (argsort idx) = positions idx c.
Proof. unfold argsort. by rewrite (stable_sort_filter (rd 0 idx) Z.le). Qed.

Lemma argsort_Permutation (idx : list Z) :
  argsort idx ≡ₚ seqZ 0 (size idx).
Proof. apply stable_sort_Permutation. Qed.

Lemma length_argsort (idx : list Z) : length (argsort idx) = length idx.
Proof.
  rewrite argsort_Permutation, length_seqZ. unfold size. lia.
Qed.

Lemma rd_nonneg (a : list Z) (k : Z) :
  Forall (λ c, 0 ≤ c) a → 0 ≤ rd 0 a k.
Proof.
  intros Hall. unfold rd. destruct (decide _); [|done].
  destruct (a !! Z.to_nat k) as [v|] eqn:Hv; [|done]. simpl.
  rewrite Forall_forall in Hall. apply Hall.
  by eapply list_elem_of_lookup_2.
Qed.

(** The counts of the minor indices below [c], as [col_offset] has them. *)
Lemma take_col_counts (idx : list Z) (N : Z) (c : nat) :
  size idx < 2 ^ 31 → Z.of_nat c ≤ N →
  take c (bincount_idx_global (size idx) idx (zeros 0 N))
  = (λ v, Z.of_nat (length (filter (λ k, rd 0 idx k = v) (argsort idx))))
      <$> seqZ 0 (Z.of_nat c).
Proof.
  intros Hn Hc. apply list_eq. intros k.
  rewrite list_lookup_fmap.
  destruct (decide (k < c)%nat) as [Hk|Hk].
  - rewrite lookup_take_lt by done.
    rewrite lookup_seqZ_lt by lia. simpl. rewrite Z.add_0_l.
    rewrite argsort_filter, <- count_positions.
    pose proof (bincount_spec idx N (Z.of_nat k) Hn) as Hb.
    rewrite rd_of_nat in Hb.
    destruct (lookup_lt_is_Some_2
                (bincount_idx_global (size idx) idx (zeros 0 N)) k)
      as [v Hv]; [rewrite length_bincount; lia|].
    rewrite Hv in *. simpl in Hb. rewrite Hb by lia. done.
  - rewrite lookup_take_ge by lia.
    by rewrite lookup_seqZ_ge by lia.
Qed.

(** The counts add up to at most the number of indices. *)
Lemma col_counts_total (idx : list Z) (N : Z) :
  size idx < 2 ^ 31 → Forall (λ c, 0 ≤ c) idx →
  let col_counts := bincount_idx_global (size idx) idx (zeros 0 N) in
  Forall (λ c, 0 ≤ c) col_counts ∧ sumZ col_counts ≤ size idx.
Proof.
  intros Hn Hnn col_counts.
  destruct (decide (0 ≤ N)) as [HN|HN].
  2:{ assert (col_counts = []) as ->.
      { apply length_zero_iff_nil. subst col_counts.
        rewrite length_bincount. lia. }
      split; [constructor|]. unfold sumZ, size. simpl. lia. }
  assert (col_counts
          = (λ v, Z.of_nat (length (filter (λ k, rd 0 idx k = v)
                                      (argsort idx))))
              <$> seqZ 0 (Z.of_nat (Z.to_nat N))) as ->.
  { rewrite <- (take_col_counts idx N (Z.to_nat N)) by lia.
    subst col_counts. symmetry. apply take_ge.
    rewrite length_bincount. lia. }
  split.
  - apply Forall_fmap, Forall_forall. intros v _. simpl. lia.
  - rewrite <- (length_filter_lt_sum (rd 0 idx)).
    + pose proof (length_filter (λ k, rd 0 idx k < Z.of_nat (Z.to_nat N))
                    (argsort idx)) as Hle.
      rewrite length_argsort in Hle. unfold size. lia.
    + apply Forall_forall. intros k _. by apply rd_nonneg.
Qed.

(** [start] and [cnt] of [fill_B] locate the run of [col] in
    [col_order]. *)
Lemma col_offset_run (idx : list Z) (N col : Z) :
  size idx < 2 ^ 31 → Forall (λ c, 0 ≤ c) idx → 0 ≤ col < N →
  let col_counts := bincount_idx_global (size idx) idx (zeros 0 N) in
  let col_offset := cumsum col_counts in
  let col_order := argsort idx in
  let stop := rd 0 col_offset col in
  let start := if decide (col = 0) then 0 else rd 0 col_offset (col - 1) in
  0 ≤ start ∧
  stop - start = Z.of_nat (length (positions idx col)) ∧
  stop ≤ size col_order ∧
  slice col_order start stop = positions idx col.
Proof.
  intros Hn Hnn Hcol col_counts col_offset col_order stop start.
  assert (∀ c : nat, Z.of_nat c ≤ N →
            rd 0 (0 :: col_offset) (Z.of_nat c)
            = Z.of_nat (length (filter (λ k, rd 0 idx k < Z.of_nat c)
                                  col_order))) as Hprefix.
  { intros c Hc. subst col_offset.
    rewrite rd_prefix
      by (subst col_counts; rewrite length_bincount; lia).
    subst col_counts. rewrite take_col_counts by done.
    rewrite <- (length_filter_lt_sum (rd 0 idx)); [done|].
    apply Forall_forall. intros k _. by apply rd_nonneg. }
  assert (∀ c, 0 ≤ c → rd 0 col_offset c = rd 0 (0 :: col_offset) (c + 1))
    as Hshift.
  { intros c Hc. unfold rd. rewrite !decide_True by lia.
    by replace (Z.to_nat (c + 1)) with (S (Z.to_nat c)) by lia. }
  assert (start = rd 0 (0 :: col_offset) col) as Hstart.
  { subst start. destruct (decide (col = 0)) as [->|Hne]; [done|].
    rewrite Hshift by lia. f_equal. lia. }
  assert (stop = rd 0 (0 :: col_offset) (col + 1)) as Hstop
    by (subst stop; apply Hshift; lia).
  pose proof (Hprefix (Z.to_nat col)) as Hlo.
  pose proof (Hprefix (Z.to_nat (col + 1))) as Hhi.
  rewrite Z2Nat.id in Hlo, Hhi by lia.
  rewrite <- Hstart in Hlo by lia. rewrite <- Hstop in Hhi by lia.
  specialize (Hlo ltac:(lia)). specialize (Hhi ltac:(lia)).
  assert (stop ≤ size col_order) as Hsz.
  { rewrite Hhi. unfold size.
    pose proof (length_filter (λ k, rd 0 idx k < col + 1) col_order). lia. }
  assert (filter (λ k, rd 0 idx k = col) col_order = positions idx col)
    as Heq by apply argsort_filter.
  rewrite length_filter_lt_succ, Heq in Hhi.
  split; [lia|]. split; [lia|]. split; [done|].
  pose proof (sorted_run (rd 0 idx) col col_order) as Hrun.
  cbv zeta in Hrun. rewrite Heq in Hrun.
  rewrite <- Hrun by apply (stable_sort_sorted (rd 0 idx) Z.le).
  f_equal; lia.
Qed.

(** ** Rows written one after the other *)

Lemma fmap_rd_offset {A} (d : A) (l : list A) (s : Z) (n : nat) :
  0 ≤ s → s + Z.of_nat n ≤ size l →
  (λ k, rd d l (s + k)) <$> seqZ 0 (Z.of_nat n) = slice l s (s + Z.of_nat n).
Proof.
  intros Hs Hn. apply list_eq. intros k. rewrite list_lookup_fmap.
  destruct (decide (k < n)%nat) as [Hk|Hk].
  - rewrite lookup_seqZ_lt by lia. simpl. rewrite Z.add_0_l.
    by rewrite (slice_rd d) by lia.
  - rewrite lookup_seqZ_ge by lia. by rewrite slice_lookup_ge by lia.
Qed.

Lemma foldl_pair {A B C} (f : A → C → A) (g : B → C → B) (a : A) (b : B)
    (l : list C) :
  foldl (λ s k, (f (fst s) k, g (snd s) k)) (a, b) l
  = (foldl f a l, foldl g b l).
Proof.
  revert a b. induction l as [|k l IH]; intros a b; simpl; [done|]. apply IH.
Qed.

Lemma foldl_sum {A} (g : A → Z) (l : list A) (acc : Z) :
  foldl (λ acc p, acc + g p) acc l = acc + sumZ (g <$> l).
Proof.
  revert acc. induction l as [|p l IH]; intros acc.
  - simpl. unfold sumZ. simpl. lia.
  - rewrite fmap_cons, sumZ_cons. simpl. rewrite IH. lia.
Qed.

Lemma length_mjoin_sum {A B} (blk : B → list A) (l : list B) :
  Z.of_nat (length (mjoin (blk <$> l)))
  = sumZ ((λ r, Z.of_nat (length (blk r))) <$> l).
Proof.
  induction l as [|r l IH]; [done|].
  rewrite !fmap_cons, sumZ_cons, <- IH. simpl. rewrite length_app. lia.
Qed.

Lemma take_fmap_seqZ {A} (f : Z → A) (n M : nat) :
  (n ≤ M)%nat →
  take n (f <$> seqZ 0 (Z.of_nat M)) = f <$> seqZ 0 (Z.of_nat n).
Proof.
  intros Hn. replace (Z.of_nat M) with (Z.of_nat n + Z.of_nat (M - n)) by lia.
  rewrite seqZ_app, fmap_app by lia.
  by rewrite take_app_length' by (rewrite length_fmap, length_seqZ; lia).
Qed.

Lemma length_mjoin_blocks {A B} (blkA : Z → list A) (blkB : Z → list B)
    (M n : nat) :
  (∀ r, 0 ≤ r < Z.of_nat M → length (blkA r) = length (blkB r)) →
  (n ≤ M)%nat →
  length (mjoin (blkB <$> seqZ 0 (Z.of_nat n)))
  = length (mjoin (blkA <$> seqZ 0 (Z.of_nat n))).
Proof.
  intros blk_lengths Hn. induction n as [|n IH]; [done|].
  replace (Z.of_nat (S n)) with (Z.of_nat n + 1) by lia.
  rewrite seqZ_succ, !fmap_app, !join_app, !length_app by lia.
  rewrite IH by lia. simpl. rewrite !length_app. simpl.
  rewrite blk_lengths by lia. done.
Qed.

Lemma length_mjoin_mono {A} (blkA : Z → list A) (M n : nat) :
  (n ≤ M)%nat →
  (length (mjoin (blkA <$> seqZ 0 (Z.of_nat n)))
   ≤ length (mjoin (blkA <$> seqZ 0 (Z.of_nat M))))%nat.
Proof.
  intros Hn. replace (Z.of_nat M) with (Z.of_nat n + Z.of_nat (M - n)) by lia.
  rewrite seqZ_app, fmap_app, join_app, length_app by lia. lia.
Qed.

(** The slice of row [r] in the concatenation of the row blocks. *)
Lemma slice_rows {A} (blkA : Z → list A) (off : Z → Z) (M : nat) (r : Z) :
  (∀ n : nat, (n ≤ M)%nat →
     off (Z.of_nat n)
     = Z.of_nat (length (mjoin (blkA <$> seqZ 0 (Z.of_nat n))))) →
  0 ≤ r < Z.of_nat M →
  slice (mjoin (blkA <$> seqZ 0 (Z.of_nat M))) (off r) (off (r + 1))
  = blkA r.
Proof.
  intros off_spec Hr.
  pose proof (off_spec (Z.to_nat r) ltac:(lia)) as Hlo.
  pose proof (off_spec (Z.to_nat (r + 1)) ltac:(lia)) as Hhi.
  rewrite Z2Nat.id in Hlo, Hhi by lia.
  rewrite (seqZ_succ 0 r), fmap_app, join_app, length_app in Hhi by lia.
  simpl in Hhi. rewrite app_nil_r, Z.add_0_l in Hhi.
  replace (Z.of_nat M) with (r + (1 + (Z.of_nat M - r - 1))) by lia.
  rewrite seqZ_app, fmap_app, join_app by lia.
  rewrite (seqZ_app (0 + r) 1), fmap_app, join_app by lia.
  rewrite (seqZ_cons (0 + r) 1) by lia.
  rewrite (seqZ_nil (Z.succ (0 + r)) (Z.pred 1)) by lia.
  simpl. rewrite app_nil_r, Z.add_0_l.
  unfold slice. rewrite Hlo, Hhi, Nat2Z.id, drop_app_length.
  replace (Z.to_nat _) with (length (blkA r)) by lia.
  by rewrite take_app_length.
Qed.

Section RowsWritten.
Context {A B : Type}.
Variable step : list A * list B → Z → list A * list B.
Variable blkA : Z → list A.
Variable blkB : Z → list B.
Variable off : Z → Z.
Variable B0 : list A * list B.
Variable M : nat.

Hypothesis blk_lengths :
  ∀ r, 0 ≤ r < Z.of_nat M → length (blkA r) = length (blkB r).
Hypothesis off_spec :
  ∀ n : nat, (n ≤ M)%nat →
    off (Z.of_nat n) = Z.of_nat (length (mjoin (blkA <$> seqZ 0 (Z.of_nat n)))).
Hypothesis B0_lengths :
  length (fst B0) = length (mjoin (blkA <$> seqZ 0 (Z.of_nat M)))
  ∧ length (snd B0) = length (fst B0).
Hypothesis step_spec :
  ∀ Bs r, 0 ≤ r < Z.of_nat M →
    length (fst Bs) = length (fst B0) → length (snd Bs) = length (snd B0) →
    step Bs r = (splice (fst Bs) (Z.to_nat (off r)) (blkA r),
                 splice (snd Bs) (Z.to_nat (off r)) (blkB r)).

Lemma rows_written_prefix (n : nat) :
  (n ≤ M)%nat →
  foldl step B0 (seqZ 0 (Z.of_nat n))
  = (splice (fst B0) 0 (mjoin (blkA <$> seqZ 0 (Z.of_nat n))),
     splice (snd B0) 0 (mjoin (blkB <$> seqZ 0 (Z.of_nat n)))).
Proof.
  destruct B0_lengths as [HlenA HlenB].
  induction n as [|n IH]; intros Hn.
  - simpl. rewrite !splice_nil. by destruct B0.
  - replace (Z.of_nat (S n)) with (Z.of_nat n + 1) by lia.
    rewrite seqZ_succ by lia. rewrite foldl_app, IH by lia. simpl foldl.
    pose proof (length_mjoin_mono blkA M (S n) Hn) as Hmono.
    replace (Z.of_nat (S n)) with (Z.of_nat n + 1) in Hmono by lia.
    rewrite seqZ_succ, fmap_app, join_app, length_app in Hmono by lia.
    simpl in Hmono. rewrite length_app in Hmono. simpl in Hmono.
    pose proof (length_mjoin_blocks blkA blkB M n blk_lengths ltac:(lia))
      as HAB.
    pose proof (blk_lengths (0 + Z.of_nat n) ltac:(lia)) as Hblk.
    rewrite Z.add_0_l in *.
    rewrite step_spec; simpl;
      [|lia|rewrite length_splice; simpl; lia
       |rewrite length_splice; simpl; lia].
    rewrite off_spec, Nat2Z.id by lia.
    rewrite !fmap_app, !join_app. simpl. rewrite !app_nil_r.
    f_equal.
    + rewrite <- (splice_adjacent (fst B0) 0) by (simpl; lia). done.
    + rewrite <- HAB.
      rewrite <- (splice_adjacent (snd B0) 0) by (simpl; lia). done.
Qed.

Lemma rows_written :
  foldl step B0 (seqZ 0 (Z.of_nat M))
  = (mjoin (blkA <$> seqZ 0 (Z.of_nat M)),
     mjoin (blkB <$> seqZ 0 (Z.of_nat M))).
Proof.
  destruct B0_lengths as [HlenA HlenB].
  rewrite rows_written_prefix by done. f_equal.
  - by apply splice_all.
  - apply splice_all.
    rewrite (length_mjoin_blocks blkA blkB M M) by done. lia.
Qed.

End RowsWritten.

(** ** Minor-axis fancy indexing: the output arrays *)

Lemma Forall_rd_range (a : list Z) (N p : Z) :
  Forall (λ c, 0 ≤ c < N) a → 0 ≤ p < size a → 0 ≤ rd 0 a p < N.
Proof.
  intros Hall Hp. unfold rd, size in *. rewrite decide_True by lia.
  destruct (lookup_lt_is_Some_2 a (Z.to_nat p)) as [v Hv]; [lia|].
  rewrite Hv. simpl. rewrite Forall_forall in Hall. apply Hall.
  by eapply list_elem_of_lookup_2.
Qed.

Lemma zip_mjoin {A B C} (f : C → list A) (g : C → list B) (l : list C) :
  (∀ c, length (f c) = length (g c)) →
  zip (mjoin (f <$> l)) (mjoin (g <$> l))
  = mjoin ((λ c, zip (f c) (g c)) <$> l).
Proof.
  intros Hlen. induction l as [|c l IH]; [done|]. simpl.
  rewrite zip_with_app by apply Hlen. f_equal. apply IH.
Qed.

Lemma row_entries_in_order (m : matrix) (r : Z) :
  wf_matrix m → 0 ≤ r < major_dim m →
  row_entries m r
  = (λ p, (rd 0 (indices m) p, rd 0%float (data m) p))
      <$> in_order (indptr m) r.
Proof.
  intros Hwf Hr. destruct (wf_row_bounds m r Hwf Hr) as (Hlo & Hle & Hhi).
  destruct Hwf as (_ & _ & _ & _ & _ & Hlen & _).
  unfold row_entries, in_order, nnz, size in *.
  set (lo := rd 0 (indptr m) r) in *.
  set (hi := rd 0 (indptr m) (r + 1)) in *.
  apply list_eq. intros k. rewrite list_lookup_fmap.
  destruct (decide (lo + Z.of_nat k < hi)) as [Hk|Hk].
  - rewrite lookup_seqZ_lt by lia. simpl.
    replace (lo + Z.of_nat k) with (Z.of_nat k + lo) by lia.
    apply lookup_zip_with_Some. eexists _, _. split; [done|].
    replace (Z.of_nat k + lo) with (lo + Z.of_nat k) by lia.
    rewrite (slice_rd 0), (slice_rd 0%float) by (unfold size; lia). done.
  - rewrite lookup_seqZ_ge by lia. simpl.
    apply lookup_ge_None_2. rewrite length_zip_with.
    rewrite !length_slice by (unfold size; lia). lia.
Qed.

Lemma sumZ_Permutation (l1 l2 : list Z) : l1 ≡ₚ l2 → sumZ l1 = sumZ l2.
Proof.
  induction 1 as [|x l1 l2 _ IH|x y l|l1 l2 l3 _ IH1 _ IH2];
    rewrite ?sumZ_cons; lia.
Qed.

Section FancyIndex.
Variable sched : Z → list Z.
Variable m : matrix.
Variable idx : list Z.
Hypothesis Hwf : wf_matrix m.
Hypothesis Hidx : Forall (λ c, 0 ≤ c < minor_dim m) idx.
Hypothesis Hsched :
  ∀ r, 0 ≤ r < major_dim m → sched r ≡ₚ in_order (indptr m) r.
Hypothesis Hn : size idx < 2 ^ 31.
Hypothesis Hout : fancy_nnz m idx < 2 ^ 31.

Let col_counts := bincount_idx_global (size idx) idx (zeros 0 (minor_dim m)).
Let col_offset := cumsum_int32 col_counts.
Let col_order := int32 <$> argsort idx.
Local Abbreviation blockj := (fill_block_j m idx).
Local Abbreviation blockx := (fill_block_x m idx).
Local Abbreviation rowj := (fill_row_j sched m idx).
Local Abbreviation rowx := (fill_row_x sched m idx).
Local Abbreviation Bp := (fill_indptr sched m idx).

Lemma idx_nonneg : Forall (λ c, 0 ≤ c) idx.
Proof. eapply Forall_impl; [exact Hidx|]. simpl. lia. Qed.

Lemma major_dim_nat : Z.of_nat (Z.to_nat (major_dim m)) = major_dim m.
Proof. destruct Hwf as (HM & _). lia. Qed.

Lemma length_blockx (p : Z) : length (blockx p) = length (blockj p).
Proof. unfold fill_block_x, fill_block_j. by rewrite length_fmap. Qed.

Lemma length_mjoin_blockx (ps : list Z) :
  length (mjoin (blockx <$> ps)) = length (mjoin (blockj <$> ps)).
Proof.
  induction ps as [|q ps IH]; [done|].
  rewrite !fmap_cons. simpl. by rewrite !length_app, IH, length_blockx.
Qed.

Lemma length_rowx (r : Z) : length (rowx r) = length (rowj r).
Proof. apply length_mjoin_blockx. Qed.

Lemma zip_blocks (p : Z) :
  zip (blockj p) (blockx p)
  = expand_entry idx (rd 0 (indices m) p, rd 0%float (data m) p).
Proof.
  unfold fill_block_j, fill_block_x, expand_entry. simpl.
  induction (positions idx (rd 0 (indices m) p)) as [|k l IH]; [done|].
  simpl. f_equal. apply IH.
Qed.

Lemma fancy_row_entries (r : Z) :
  0 ≤ r < major_dim m →
  zip (rowj r) (rowx r) ≡ₚ mjoin (expand_entry idx <$> row_entries m r).
Proof.
  intros Hr. unfold fill_row_j, fill_row_x.
  rewrite zip_mjoin by (intros; symmetry; apply length_blockx).
  rewrite row_entries_in_order by done.
  rewrite <- list_fmap_compose.
  rewrite (Hsched r Hr). apply reflexive_eq.
  f_equal. apply list_fmap_ext. intros k p _. apply zip_blocks.
Qed.

(** The rows that [fill_B] writes hold [fancy_nnz] entries in all. *)
Lemma total_fancy_nnz :
  Z.of_nat (length (mjoin (rowj <$> seqZ 0 (major_dim m)))) = fancy_nnz m idx.
Proof.
  rewrite length_mjoin_sum. unfold fancy_nnz. f_equal.
  apply list_fmap_ext. intros k r Hk. apply lookup_seqZ in Hk as [-> Hk].
  rewrite <- (fancy_row_entries (0 + Z.of_nat k)) by lia.
  rewrite length_zip_with, length_rowx. f_equal. lia.
Qed.

Lemma row_bound (r : Z) :
  0 ≤ r < major_dim m → Z.of_nat (length (rowj r)) < 2 ^ 31.
Proof.
  intros Hr.
  pose proof (length_mjoin_mono rowj (Z.to_nat (major_dim m))
                (Z.to_nat (r + 1)) ltac:(lia)) as Hmono.
  rewrite major_dim_nat, Z2Nat.id in Hmono by lia.
  rewrite (seqZ_succ 0 r), fmap_app, join_app, length_app in Hmono by lia.
  simpl in Hmono. rewrite app_nil_r, Z.add_0_l in Hmono.
  pose proof total_fancy_nnz. lia.
Qed.

(** No prefix sum of the column counts wraps around. *)
Lemma col_offset_ideal : col_offset = cumsum col_counts.
Proof.
  destruct (col_counts_total idx (minor_dim m) Hn idx_nonneg)
    as [Hnn Hsum].
  apply cumsum_int32_from_eq; [done|done|]. fold col_counts in Hsum. lia.
Qed.

Lemma col_order_ideal : col_order = argsort idx.
Proof.
  apply fmap_int32_id. rewrite argsort_Permutation.
  apply Forall_forall. intros k Hk. apply elem_of_seqZ in Hk. lia.
Qed.

Lemma fill_B_entry_spec (cur : Z) (Bj : list Z) (Bx : list float) (p : Z) :
  0 ≤ rd 0 (indices m) p < minor_dim m →
  0 ≤ cur → cur + Z.of_nat (length (blockj p)) ≤ size Bj →
  size Bj < 2 ^ 31 →
  length Bx = length Bj →
  fill_B_entry (indices m) (data m) col_offset col_order (cur, Bj, Bx) p
  = (cur + Z.of_nat (length (blockj p)),
     splice Bj (Z.to_nat cur) (blockj p),
     splice Bx (Z.to_nat cur) (blockx p)).
Proof.
  intros Hcol Hcur Hfit Hsz Hlen. unfold fill_B_entry.
  rewrite col_offset_ideal, col_order_ideal.
  destruct (col_offset_run idx (minor_dim m) (rd 0 (indices m) p)
              Hn idx_nonneg Hcol) as (Hstart & Hcnt & Hstop & Hrun).
  fold col_counts in Hstart, Hcnt, Hstop, Hrun.
  set (stop := rd 0 (cumsum col_counts) (rd 0 (indices m) p)) in *.
  set (start := if decide (rd 0 (indices m) p = 0) then 0
                else rd 0 (cumsum col_counts) (rd 0 (indices m) p - 1)) in *.
  fold (blockj p) in Hcnt, Hrun.
  assert (stop ≤ size idx) as Hstop'
    by (unfold size in *; rewrite length_argsort in Hstop; lia).
  rewrite (int32_id (stop - start)) by lia.
  destruct (decide (stop - start = 0)) as [Hz|Hnz].
  - assert (blockj p = []) as Hnil
      by (apply length_zero_iff_nil; lia).
    unfold fill_block_x. fold (blockj p). rewrite Hnil. simpl.
    rewrite !splice_nil. f_equal. f_equal. lia.
  - rewrite (int32_id (cur + (stop - start))) by lia.
    rewrite (foldl_ext_in _
               (λ B k, (wr (fst B) (cur + k) (rd 0 (argsort idx) (start + k)),
                        wr (snd B) (cur + k) (rd 0%float (data m) p)))).
    2:{ intros B k Hk. apply elem_of_seqZ in Hk.
        by rewrite !int32_id by lia. }
    rewrite (foldl_pair
               (λ B k, wr B (cur + k) (rd 0 (argsort idx) (start + k)))
               (λ B k, wr B (cur + k) (rd 0%float (data m) p))).
    rewrite Hcnt.
    rewrite !write_loop_splice by (unfold size in *; lia).
    rewrite fmap_rd_offset by lia.
    rewrite <- Hcnt.
    replace (start + (stop - start)) with stop by lia.
    rewrite Hrun. f_equal. unfold fill_block_x. fold (blockj p). f_equal.
    rewrite Hcnt.
    rewrite (const_fmap _ _ (rd 0%float (data m) p)) by done.
    rewrite (const_fmap _ (blockj p) (rd 0%float (data m) p)) by done.
    rewrite length_seqZ. f_equal. lia.
Qed.

Lemma fill_B_entries (ps : list Z) :
  ∀ (cur : Z) (Bj : list Z) (Bx : list float),
  Forall (λ p, 0 ≤ rd 0 (indices m) p < minor_dim m) ps →
  0 ≤ cur →
  cur + Z.of_nat (length (mjoin (blockj <$> ps))) ≤ size Bj →
  size Bj < 2 ^ 31 →
  length Bx = length Bj →
  foldl (fill_B_entry (indices m) (data m) col_offset col_order)
        (cur, Bj, Bx) ps
  = (cur + Z.of_nat (length (mjoin (blockj <$> ps))),
     splice Bj (Z.to_nat cur) (mjoin (blockj <$> ps)),
     splice Bx (Z.to_nat cur) (mjoin (blockx <$> ps))).
Proof.
  induction ps as [|p ps IH]; intros cur Bj Bx Hall Hcur Hfit Hsz Hlen.
  - simpl. rewrite !splice_nil. f_equal. f_equal. lia.
  - apply Forall_cons in Hall as [Hp Hall].
    change (mjoin (blockj <$> p :: ps))
      with (blockj p ++ mjoin (blockj <$> ps)) in *.
    change (mjoin (blockx <$> p :: ps))
      with (blockx p ++ mjoin (blockx <$> ps)).
    rewrite length_app in Hfit. unfold size in *.
    match goal with
    | |- foldl ?f ?a (p :: ps) = _ =>
        change (foldl f a (p :: ps)) with (foldl f (f a p) ps)
    end.
    rewrite fill_B_entry_spec by (unfold size; lia || done).
    rewrite IH; try done; try lia.
    2:{ rewrite length_splice by lia. lia. }
    2:{ rewrite length_splice by lia. lia. }
    2:{ rewrite !length_splice by (rewrite ?length_blockx; lia). done. }
    rewrite length_app.
    replace (Z.to_nat (cur + Z.of_nat (length (blockj p))))
      with (Z.to_nat cur + length (blockj p))%nat by lia.
    rewrite splice_adjacent by lia.
    rewrite <- (length_blockx p) at 2.
    rewrite splice_adjacent
      by (rewrite length_blockx, length_mjoin_blockx; lia).
    f_equal. f_equal. lia.
Qed.

Lemma sched_valid (r : Z) :
  0 ≤ r < major_dim m →
  Forall (λ p, 0 ≤ rd 0 (indices m) p < minor_dim m) (sched r).
Proof.
  intros Hr. rewrite (Hsched r Hr). apply Forall_forall. intros p Hp.
  unfold in_order in Hp. apply elem_of_seqZ in Hp.
  destruct (wf_row_bounds m r Hwf Hr) as (Hlo & Hle & Hhi).
  destruct Hwf as (_ & _ & _ & _ & _ & Hlen & Hind).
  apply Forall_rd_range; [done|]. unfold nnz, size in *. lia.
Qed.

Lemma col_counts_spec (c : Z) :
  0 ≤ c < minor_dim m →
  rd 0 col_counts c = Z.of_nat (length (positions idx c)).
Proof.
  intros Hc. unfold col_counts. rewrite bincount_spec by done.
  apply count_positions.
Qed.

(** The sum that [row_kept_count] takes over a row does not wrap around. *)
Lemma row_count_spec (r : Z) :
  0 ≤ r < major_dim m →
  row_kept_count (indptr m) (indices m) col_counts r
  = Z.of_nat (length (rowj r)).
Proof.
  intros Hr. unfold row_kept_count. fold (in_order (indptr m) r).
  assert (sumZ ((λ p, rd 0 col_counts (rd 0 (indices m) p))
                  <$> in_order (indptr m) r)
          = Z.of_nat (length (rowj r))) as Hsum.
  { unfold fill_row_j. rewrite length_mjoin_sum.
    assert (∀ ps, Forall (λ p, 0 ≤ rd 0 (indices m) p < minor_dim m) ps →
              sumZ ((λ p, rd 0 col_counts (rd 0 (indices m) p)) <$> ps)
              = sumZ ((λ p, Z.of_nat (length (blockj p))) <$> ps)) as Hext.
    { induction 1 as [|p ps Hp _ IH]; [done|].
      rewrite !fmap_cons, !sumZ_cons, IH.
      by rewrite col_counts_spec by done. }
    rewrite <- Hext by (by apply sched_valid).
    apply sumZ_Permutation, fmap_Permutation. symmetry. by apply Hsched. }
  pose proof (row_bound r Hr) as Hb.
  rewrite foldl_sum_int32; [lia|done| |lia].
  apply Forall_forall. intros p _. apply rd_nonneg.
  apply (col_counts_total idx (minor_dim m) Hn idx_nonneg).
Qed.

Lemma foldl_ext_eq {S E} (f g : S → E → S) (a : S) (l : list E) :
  (∀ s x, f s x = g s x) → foldl f a l = foldl g a l.
Proof.
  intros Hfg. revert a. induction l as [|x l IH]; intros a; simpl; [done|].
  by rewrite Hfg, IH.
Qed.

Lemma calc_Bp_spec :
  _calc_Bp_minor (major_dim m) (indptr m) (indices m) col_counts
    (wr (zeros 0 (major_dim m + 1)) 0 0)
  = 0 :: (row_kept_count (indptr m) (indices m) col_counts
            <$> seqZ 0 (major_dim m)).
Proof.
  destruct Hwf as (HM & _). unfold _calc_Bp_minor.
  rewrite (foldl_ext_eq _
             (λ Bp row, wr Bp (1 + row)
                (row_kept_count (indptr m) (indices m) col_counts row)))
    by (intros; f_equal; lia).
  assert (wr (zeros 0 (major_dim m + 1)) 0 0 = zeros 0 (major_dim m + 1))
    as -> by (unfold wr, zeros; simpl; apply insert_replicate).
  replace (seqZ 0 (major_dim m))
    with (seqZ 0 (Z.of_nat (Z.to_nat (major_dim m))))
    by (by rewrite Z2Nat.id by lia).
  rewrite write_loop_splice
    by (unfold size, zeros; rewrite ?length_replicate; lia).
  unfold splice, zeros.
  rewrite take_replicate, drop_replicate, length_fmap, length_seqZ.
  replace (Z.to_nat 1 `min` Z.to_nat (major_dim m + 1))%nat with 1%nat by lia.
  replace (Z.to_nat (major_dim m + 1) - _)%nat with 0%nat by lia.
  simpl. by rewrite app_nil_r.
Qed.

(** The prefix sums of the row counts do not wrap around. *)
Lemma Bp_final :
  let Bp1 := _calc_Bp_minor (major_dim m) (indptr m) (indices m) col_counts
               (wr (zeros 0 (major_dim m + 1)) 0 0) in
  take 1 Bp1 ++ cumsum_int32 (drop 1 Bp1) = Bp.
Proof.
  intros Bp1. subst Bp1. rewrite calc_Bp_spec. simpl. rewrite drop_0.
  unfold fill_indptr. do 2 f_equal.
  assert (row_kept_count (indptr m) (indices m) col_counts
            <$> seqZ 0 (major_dim m)
          = (λ r, Z.of_nat (length (rowj r))) <$> seqZ 0 (major_dim m))
    as ->.
  { apply list_fmap_ext. intros k r Hk.
    apply lookup_seqZ in Hk as [-> Hk]. apply row_count_spec. lia. }
  apply cumsum_int32_from_eq; [done| |].
  - apply Forall_fmap, Forall_forall. intros r _. simpl. lia.
  - rewrite <- length_mjoin_sum, total_fancy_nnz. lia.
Qed.

Lemma Bp_off (n : nat) :
  (n ≤ Z.to_nat (major_dim m))%nat →
  rd 0 Bp (Z.of_nat n)
  = Z.of_nat (length (mjoin (rowj <$> seqZ 0 (Z.of_nat n)))).
Proof.
  intros Hle. unfold fill_indptr.
  rewrite rd_prefix by (rewrite length_fmap, length_seqZ; lia).
  rewrite <- major_dim_nat, take_fmap_seqZ by done.
  by rewrite length_mjoin_sum.
Qed.

Lemma nnzB_spec :
  default 0 (last Bp)
  = Z.of_nat (length (mjoin (rowj <$> seqZ 0 (major_dim m)))).
Proof. unfold fill_indptr. by rewrite last_prefix, length_mjoin_sum. Qed.

Lemma fill_B_row_spec (Bs : list Z * list float) (r : Z) :
  0 ≤ r < major_dim m →
  length (fst Bs) = length (mjoin (rowj <$> seqZ 0 (major_dim m))) →
  length (snd Bs) = length (fst Bs) →
  fill_B_row (indices m) (data m) col_offset col_order Bp (sched r) Bs r
  = (splice (fst Bs) (Z.to_nat (rd 0 Bp r)) (rowj r),
     splice (snd Bs) (Z.to_nat (rd 0 Bp r)) (rowx r)).
Proof.
  intros Hr HlA HlB. unfold fill_B_row.
  pose proof (Bp_off (Z.to_nat r) ltac:(lia)) as Hlo.
  pose proof (Bp_off (Z.to_nat (r + 1)) ltac:(lia)) as Hhi.
  rewrite Z2Nat.id in Hlo, Hhi by lia.
  rewrite (seqZ_succ 0 r), fmap_app, join_app, length_app in Hhi by lia.
  simpl in Hhi. rewrite app_nil_r, Z.add_0_l in Hhi.
  pose proof (length_mjoin_mono rowj (Z.to_nat (major_dim m))
                (Z.to_nat (r + 1)) ltac:(lia)) as Hmono.
  rewrite major_dim_nat, Z2Nat.id in Hmono by lia.
  rewrite (seqZ_succ 0 r), fmap_app, join_app, length_app in Hmono by lia.
  simpl in Hmono. rewrite app_nil_r, Z.add_0_l in Hmono.
  pose proof total_fancy_nnz as Htotal.
  rewrite fill_B_entries; [done|by apply sched_valid|lia| | |done].
  - fold (rowj r). unfold size. lia.
  - unfold size. lia.
Qed.

Lemma fill_B_spec :
  fill_B (major_dim m) (indices m) (data m) col_offset col_order Bp sched
    (zeros 0 (default 0 (last Bp))) (zeros 0%float (default 0 (last Bp)))
  = (mjoin (rowj <$> seqZ 0 (major_dim m)),
     mjoin (rowx <$> seqZ 0 (major_dim m))).
Proof.
  unfold fill_B. rewrite nnzB_spec.
  pose proof (rows_written
           (λ B row, fill_B_row (indices m) (data m) col_offset col_order
                       Bp (sched row) B row)
           rowj rowx (rd 0 Bp)
           (zeros 0 (Z.of_nat (length (mjoin (rowj <$> seqZ 0 (major_dim m))))),
            zeros 0%float
              (Z.of_nat (length (mjoin (rowj <$> seqZ 0 (major_dim m))))))
           (Z.to_nat (major_dim m))) as H.
  rewrite major_dim_nat in H. apply H.
  - intros r _. symmetry. apply length_rowx.
  - apply Bp_off.
  - cbn [fst snd]. unfold zeros. rewrite !length_replicate. lia.
  - intros Bs r Hr HlA HlB. cbn [fst snd] in HlA, HlB.
    unfold zeros in HlA, HlB.
    rewrite length_replicate in HlA. rewrite length_replicate in HlB.
    apply fill_B_row_spec; [done|lia|lia].
Qed.
End FancyIndex.

Lemma mjoin_all_nil {A B} (f : A → list B) (l : list A) :
  (∀ a, f a = []) → mjoin (f <$> l) = [].
Proof.
  intros Hf. induction l as [|a l IH]; [done|].
  rewrite fmap_cons. simpl. by rewrite Hf, IH.
Qed.

Lemma swap_swap (f : format) (x y : Z) :
  _swap f (fst (_swap f x y)) (snd (_swap f x y)) = (x, y).
Proof. by destruct f. Qed.

(** C1: minor-axis fancy indexing of a well-formed matrix by an array of
    minor indices (repeats allowed, any order), for every order in which
    the threads of a block take their turn at the row cursor.  The sizes
    are those an [int32] holds: fewer than 2^31 indices and fewer than 2^31
    entries to put out.  The result is a matrix of the same format with the
    minor dimension [len(idx)], and the entries of each of its major rows
    are, up to their order in storage, the entries of the source row, each
    one copied to every output position [k] with [idx[k]] equal to its
    minor index.  The 2x3 matrix with (0,1)=5 and (1,2)=6 indexed with
    [1,1,2] gives the 2x3 matrix with (0,0)=5, (0,1)=5 and (1,2)=6. *)
Theorem minor_index_fancy_spec :
  (∀ (sched : Z → list Z) (m : matrix) (idx : list Z),
     wf_matrix m →
     Forall (λ c, 0 ≤ c < minor_dim m) idx →
     (∀ r, 0 ≤ r < major_dim m → sched r ≡ₚ in_order (indptr m) r) →
     size idx < 2 ^ 31 → fancy_nnz m idx < 2 ^ 31 →
     ∃ B, _minor_index_fancy sched m idx = Ok B ∧
          fmt B = fmt m ∧
          shape B = _swap (fmt m) (major_dim m) (size idx) ∧
          size (indptr B) = major_dim m + 1 ∧
          ∀ r, 0 ≤ r < major_dim m →
               row_entries B r
               ≡ₚ mjoin (expand_entry idx <$> row_entries m r)) ∧
  (let m := Matrix CSR (2, 3) [5%float; 6%float] [1; 2] [0; 1; 2]
                   None None in
   ∃ B, _minor_index_fancy (in_order (indptr m)) m [1; 1; 2] = Ok B ∧
        shape B = (2, 3) ∧
        row_entries B 0 = [(0, 5%float); (1, 5%float)] ∧
        row_entries B 1 = [(2, 6%float)]).
Proof.
  split; [|eexists; by vm_compute].
  intros sched m idx Hwf Hidx Hsched Hsize Hout. unfold _minor_index_fancy.
  destruct (decide (nnz m = 0 ∨ size idx = 0)) as [Hempty|Hfull].
  - eexists. split; [done|]. unfold init_empty. simpl.
    split; [done|]. split; [by destruct (fmt m)|].
    split.
    { rewrite swap_swap. unfold size, zeros. rewrite length_replicate.
      destruct Hwf as (HM & _). simpl. lia. }
    intros r Hr. unfold row_entries at 1. simpl.
    unfold slice. rewrite !drop_nil, !take_nil. simpl.
    destruct Hempty as [Hnnz|Hn].
    + unfold row_entries, nnz, size in *.
      assert (data m = []) as -> by (apply length_zero_iff_nil; lia).
      unfold slice. rewrite drop_nil, take_nil, zip_with_nil_r. done.
    + assert (idx = []) as ->
        by (apply length_zero_iff_nil; unfold size in Hn; lia).
      by rewrite mjoin_all_nil.
  - cbv zeta.
    pose proof (Bp_final sched m idx Hwf Hidx Hsched Hsize Hout) as HBp.
    pose proof (fill_B_spec sched m idx Hwf Hidx Hsched Hsize Hout) as Hfill.
    pose proof (Bp_off sched m idx Hwf) as Hoff.
    pose proof (fancy_row_entries sched m idx Hwf Hsched) as Hrows.
    pose proof (length_rowx sched m idx) as Hlenx.
    cbv zeta in HBp. rewrite HBp, Hfill. unfold init_arrays.
    assert (∀ n : nat, (n ≤ Z.to_nat (major_dim m))%nat →
              length (mjoin (fill_row_x sched m idx <$> seqZ 0 (Z.of_nat n)))
              = length (mjoin (fill_row_j sched m idx
                                 <$> seqZ 0 (Z.of_nat n)))) as Hlen.
    { intros n Hn.
      apply length_mjoin_blocks with (M := Z.to_nat (major_dim m)); [|done].
      intros r' _. symmetry. apply Hlenx. }
    pose proof (Hlen (Z.to_nat (major_dim m)) ltac:(lia)) as HlenM.
    rewrite (major_dim_nat m Hwf) in HlenM.
    rewrite decide_False by lia.
    rewrite swap_swap. simpl fst.
    assert (size (fill_indptr sched m idx) = major_dim m + 1) as HszBp.
    { unfold size, fill_indptr.
      rewrite length_cons, length_cumsum, length_fmap, length_seqZ.
      destruct Hwf as (HM & _). lia. }
    rewrite decide_False by lia.
    eexists. split; [done|]. simpl.
    split; [done|]. split; [done|]. split; [done|].
    intros r Hr. rewrite <- (Hrows r Hr).
    unfold row_entries. simpl.
    rewrite <- (major_dim_nat m Hwf).
    rewrite (slice_rows (fill_row_j sched m idx) _
               (Z.to_nat (major_dim m)) r Hoff) by lia.
    rewrite (slice_rows (fill_row_x sched m idx) _
               (Z.to_nat (major_dim m)) r); [done| |lia].
    intros n Hn. rewrite Hoff by done. f_equal. symmetry. by apply Hlen.
Qed.

Lemma minor_index_fancy_spec_witness :
  let m := Matrix CSR (2, 3) [5%float; 6%float; 7%float] [1; 2; 0] [0; 1; 3]
                  None None in
  let sched := λ r, if decide (r = 1) then [2; 1] else in_order (indptr m) r in
  ∃ B, _minor_index_fancy sched m [1; 1; 2] = Ok B ∧
       ∀ r, 0 ≤ r < major_dim m →
            row_entries B r
            ≡ₚ mjoin (expand_entry [1; 1; 2] <$> row_entries m r).
Proof.
  intros m sched. destruct minor_index_fancy_spec as [H _].
  destruct (H sched m [1; 1; 2]) as (B & HB & _ & _ & _ & Hrows).
  - unfold wf_matrix. by_compute.
  - by_compute.
  - intros r Hr. change (0 ≤ r < 2) in Hr.
    assert (r = 0 ∨ r = 1) as [->| ->] by lia.
    + reflexivity.
    + apply Permutation_swap.
  - by vm_compute.
  - by vm_compute.
  - exists B. split; [exact HB|exact Hrows].
Defined.

(** ** Batch insertion: which entries are kept *)

#[local] Instance coord_le_total : Total coord_le.
Proof. intros a b. unfold coord_le. lia. Qed.

#[local] Instance coord_le_trans : Transitive coord_le.
Proof. intros a b c. unfold coord_le. lia. Qed.

Lemma coord_le_antisym (a b : Z * Z) : coord_le a b → coord_le b a → a = b.
Proof.
  destruct a as [a1 a2], b as [b1 b2]. unfold coord_le. simpl.
  intros H1 H2. f_equal; lia.
Qed.

Lemma option_last_cons {A} (a : A) (l : list A) :
  l ≠ [] → last (a :: l) = last l.
Proof. by destruct l. Qed.

(** [keep_last] holds, for every coordinate, the last entry the batch has
    for it. *)
Lemma filter_nil_Forall {A} (P : A → Prop) `{!∀ x, Decision (P x)}
    (l : list A) :
  Forall (λ x, ¬ P x) l → filter P l = [].
Proof.
  induction 1 as [|x l Hx _ IH]; [done|].
  by rewrite filter_cons, decide_False.
Qed.

Lemma keep_last_filter (c : Z * Z) (E : list entry) :
  filter (λ e, e_coord e = c) (keep_last E)
  = option_list (last (filter (λ e, e_coord e = c) E)).
Proof.
  induction E as [|e t IH]; [done|]. simpl keep_last.
  rewrite (filter_cons _ e t).
  destruct (decide (e_coord e ∈ e_coord <$> t)) as [Hin|Hnin].
  - rewrite IH. destruct (decide (e_coord e = c)) as [Hc|Hc]; [|done].
    rewrite option_last_cons; [done|].
    apply list_elem_of_fmap in Hin as (e' & Heq & He').
    intros Hnil. assert (e' ∈ filter (λ e, e_coord e = c) t) as Hmem
      by (apply list_elem_of_filter; split; [congruence|done]).
    rewrite Hnil in Hmem. by apply elem_of_nil in Hmem.
  - rewrite filter_cons, IH.
    destruct (decide (e_coord e = c)) as [Hc|Hc]; [|done].
    assert (filter (λ e, e_coord e = c) t = []) as ->; [|done].
    apply filter_nil_Forall, Forall_forall. intros e' He' Heq.
    apply Hnin. rewrite Hc, <- Heq. by apply list_elem_of_fmap_2.
Qed.

Lemma keep_last_coords (E : list entry) :
  e_coord <$> keep_last E = remove_dups (e_coord <$> E).
Proof.
  induction E as [|e t IH]; [done|].
  rewrite fmap_cons. cbn [keep_last remove_dups].
  destruct (decide (e_coord e ∈ e_coord <$> t)) as [Hin|Hnin].
  - rewrite IH. by destruct (decide_rel _ _ _).
  - rewrite fmap_cons, IH. by destruct (decide_rel _ _ _).
Qed.

Lemma drop_shadowed_subseteq (l : list entry) (e : entry) :
  e ∈ drop_shadowed l → e ∈ l.
Proof.
  induction l as [|a t IH]; [done|]. simpl.
  destruct t as [|b t']; [done|].
  destruct (decide (e_coord a = e_coord b)).
  - intros H. apply list_elem_of_further. by apply IH.
  - intros H. apply elem_of_cons in H as [->|H]; [apply list_elem_of_here|].
    apply list_elem_of_further. by apply IH.
Qed.

Lemma drop_shadowed_sorted (R : relation entry) (l : list entry) :
  StronglySorted R l → StronglySorted R (drop_shadowed l).
Proof.
  induction 1 as [|a t Hs IH Hall]; [constructor|]. simpl.
  destruct t as [|b t']; [by repeat constructor|].
  destruct (decide (e_coord a = e_coord b)); [done|].
  constructor; [done|]. apply Forall_forall. intros e He.
  rewrite Forall_forall in Hall. by apply Hall, drop_shadowed_subseteq.
Qed.

(** In a list sorted by coordinate, [drop_shadowed] holds, for every
    coordinate, the last entry the list has for it. *)
Lemma drop_shadowed_filter (c : Z * Z) (S : list entry) :
  StronglySorted (λ a b, coord_le (e_coord a) (e_coord b)) S →
  filter (λ e, e_coord e = c) (drop_shadowed S)
  = option_list (last (filter (λ e, e_coord e = c) S)).
Proof.
  induction 1 as [|a t Hs IH Hall]; [done|].
  destruct t as [|b t'].
  { simpl. rewrite filter_cons, filter_nil. by destruct (decide _). }
  change (drop_shadowed (a :: b :: t'))
    with (if decide (e_coord a = e_coord b) then drop_shadowed (b :: t')
          else a :: drop_shadowed (b :: t')).
  rewrite (filter_cons _ a (b :: t')).
  destruct (decide (e_coord a = e_coord b)) as [Hab|Hab].
  - rewrite IH. destruct (decide (e_coord a = c)) as [Hc|Hc]; [|done].
    rewrite option_last_cons; [done|].
    rewrite filter_cons, decide_True by congruence. done.
  - rewrite filter_cons, IH.
    destruct (decide (e_coord a = c)) as [Hc|Hc]; [|done].
    assert (filter (λ e, e_coord e = c) (b :: t') = []) as ->; [|done].
    apply filter_nil_Forall, Forall_forall. intros e He Heq.
    apply StronglySorted_inv in Hs as [_ Hb].
    rewrite Forall_forall in Hall, Hb.
    pose proof (Hall b (list_elem_of_here _ _)) as Hab'.
    apply Hab. apply coord_le_antisym; [done|].
    apply elem_of_cons in He as [->|He].
    + rewrite Heq, <- Hc. apply (le_refl_total coord_le).
    + transitivity (e_coord e); [by apply Hb|]. rewrite Heq, <- Hc.
      apply (le_refl_total coord_le).
Qed.

(** Two lists that agree, key by key, up to order are permutations of each
    other. *)
Lemma Permutation_by_key {A K} `{!EqDecision K} (key : A → K)
    (l1 l2 : list A) :
  (∀ c, filter (λ a, key a = c) l1 ≡ₚ filter (λ a, key a = c) l2) →
  l1 ≡ₚ l2.
Proof.
  revert l2. induction l1 as [|a t IH]; intros l2 Hf.
  - destruct l2 as [|b l2]; [done|].
    specialize (Hf (key b)). rewrite filter_cons, decide_True in Hf by done.
    by apply Permutation_nil_cons in Hf.
  - assert (a ∈ l2) as Hin.
    { assert (a ∈ filter (λ x, key x = key a) l2) as Hm.
      { rewrite <- Hf, filter_cons, decide_True by done.
        apply list_elem_of_here. }
      by apply list_elem_of_filter in Hm as [_ ?]. }
    apply elem_of_Permutation in Hin as [l2' Hl2].
    rewrite Hl2. constructor. apply IH. intros c.
    specialize (Hf c). rewrite Hl2, !filter_cons in Hf.
    destruct (decide (key a = c)); [|done].
    by apply Permutation_cons_inv in Hf.
Qed.

Lemma StronglySorted_weaken {A} (R R' : relation A) (l : list A) :
  (∀ a b, R a b → R' a b) → StronglySorted R l → StronglySorted R' l.
Proof.
  intros HR. induction 1 as [|a t _ IH Hall]; constructor; [done|].
  eapply Forall_impl; [exact Hall|]. apply HR.
Qed.

Lemma zip3_fmap {A} (fi fj : A → Z) (fx : A → float) (l : list A) :
  zip3 (fi <$> l) (fj <$> l) (fx <$> l) = (λ k, (fi k, fj k, fx k)) <$> l.
Proof.
  unfold zip3. induction l as [|k l IH]; [done|]. simpl. f_equal. apply IH.
Qed.

(** Taking [i], [j] and [x] in the order of [argsort(i)] sorts the batch
    stably by major index. *)
Lemma gather_argsort (i j : list Z) (x : list float) :
  length j = length i → length x = length i →
  zip3 (gather 0 i (argsort i)) (gather 0 j (argsort i))
       (gather 0%float x (argsort i))
  = stable_sort e_major Z.le (zip3 i j x).
Proof.
  intros Hj Hx. unfold gather. rewrite zip3_fmap. unfold argsort.
  change (rd 0 i)
    with (λ k, e_major (rd 0 i k, rd 0 j k, rd 0%float x k)) at 2.
  rewrite (stable_sort_fmap e_major Z.le
             (λ k, (rd 0 i k, rd 0 j k, rd 0%float x k))).
  f_equal. rewrite <- zip3_fmap.
  assert (size j = size i) as Hsj by (unfold size; lia).
  assert (size x = size i) as Hsx by (unfold size; lia).
  rewrite (fmap_rd_seqZ 0 i).
  rewrite <- Hsj, (fmap_rd_seqZ 0 j).
  by rewrite Hsj, <- Hsx, (fmap_rd_seqZ 0%float x).
Qed.

Lemma filter_coord_split (c : Z * Z) (l : list entry) :
  filter (λ e, e_coord e = c) l
  = filter (λ e, e_minor e = snd c) (filter (λ e, e_major e = fst c) l).
Proof.
  rewrite list_filter_filter. apply list_filter_iff.
  intros [[a b] v]. destruct c as [c1 c2].
  unfold e_coord, e_minor, e_major. simpl. split.
  - intros H. by inversion H.
  - intros [-> ->]. done.
Qed.

Section Kept.
Variable E : list entry.

Let S := stable_sort e_coord coord_le (stable_sort e_major Z.le E).
Let K := drop_shadowed S.

Lemma sorted_batch_filter (c : Z * Z) :
  filter (λ e, e_coord e = c) S = filter (λ e, e_coord e = c) E.
Proof.
  unfold S. rewrite (stable_sort_filter e_coord coord_le).
  rewrite (filter_coord_split c (stable_sort e_major Z.le E)).
  rewrite (filter_coord_split c E).
  by rewrite (stable_sort_filter e_major Z.le).
Qed.

Lemma kept_Permutation : K ≡ₚ keep_last E.
Proof.
  apply (Permutation_by_key e_coord). intros c.
  unfold K. rewrite drop_shadowed_filter
    by apply (stable_sort_sorted e_coord coord_le).
  by rewrite sorted_batch_filter, keep_last_filter.
Qed.

Lemma kept_sorted_major :
  StronglySorted (λ a b, e_major a ≤ e_major b) K.
Proof.
  unfold K. apply drop_shadowed_sorted.
  eapply StronglySorted_weaken;
    [|apply (stable_sort_sorted e_coord coord_le)].
  intros a b. unfold coord_le, e_major, e_coord. simpl. lia.
Qed.

Lemma kept_elem (e : entry) : e ∈ K → e ∈ E.
Proof.
  intros He. apply drop_shadowed_subseteq in He. unfold S in He.
  rewrite (stable_sort_Permutation e_coord coord_le) in He.
  by rewrite (stable_sort_Permutation e_major Z.le) in He.
Qed.
End Kept.

(** ** Batch insertion: the per-row counts *)

Lemma filter_ext_in {A} (P Q : A → Prop) `{!∀ x, Decision (P x)}
    `{!∀ x, Decision (Q x)} (l : list A) :
  (∀ x, x ∈ l → (P x ↔ Q x)) → filter P l = filter Q l.
Proof.
  induction l as [|a l IH]; intros Hpq; [done|].
  rewrite !filter_cons, IH
    by (intros x Hx; apply Hpq; by apply list_elem_of_further).
  pose proof (Hpq a (list_elem_of_here _ _)) as Ha.
  destruct (decide (P a)), (decide (Q a)); tauto || done.
Qed.

Lemma remove_dups_sorted (l : list Z) :
  StronglySorted Z.le l → StronglySorted Z.lt (remove_dups l).
Proof.
  induction 1 as [|x t _ IH Hall]; [constructor|]. cbn [remove_dups].
  destruct (decide_rel _ _ _) as [Hin|Hnin]; [done|].
  constructor; [done|]. apply Forall_forall. intros e He.
  rewrite elem_of_remove_dups in He. rewrite Forall_forall in Hall.
  pose proof (Hall e He). assert (e ≠ x) by (by intros ->). lia.
Qed.

Lemma searchsorted1_lookup (rows : list Z) (t : nat) (e : Z) :
  StronglySorted Z.lt rows → rows !! t = Some e →
  searchsorted1 rows e = Z.of_nat t.
Proof.
  intros Hs. revert t. induction Hs as [|h tl _ IH Hall]; intros t Ht;
    [done|].
  destruct t as [|t]; simpl in *.
  - inversion Ht; subst. by rewrite decide_False by lia.
  - rewrite Forall_forall in Hall.
    pose proof (Hall e (list_elem_of_lookup_2 _ _ _ Ht)).
    rewrite decide_True by done. rewrite (IH t Ht). lia.
Qed.

Lemma unique_rows_spec (ii : list Z) :
  StronglySorted Z.lt (fst (unique ii))
  ∧ NoDup (fst (unique ii))
  ∧ (∀ e, e ∈ fst (unique ii) ↔ e ∈ ii)
  ∧ length (snd (unique ii)) = length (fst (unique ii)).
Proof.
  unfold unique. simpl. split; [|split; [|split]].
  - apply remove_dups_sorted. apply (stable_sort_sorted id Z.le).
  - apply NoDup_remove_dups.
  - intros e. rewrite elem_of_remove_dups.
    by rewrite (stable_sort_Permutation id Z.le).
  - by rewrite length_fmap.
Qed.

(** The counts that [_insert_many] computes with [searchsorted] and
    [add.at]: slot [t] counts the inserted entries of major row
    [rows[t]]. *)
Lemma row_counts_spec (rows ii : list Z) (t : nat) (r : Z) :
  StronglySorted Z.lt rows → NoDup rows → (∀ e, e ∈ ii → e ∈ rows) →
  rows !! t = Some r →
  rd 0 (add_at_1 (zeros 0 (size rows)) (searchsorted rows ii)) (Z.of_nat t)
  = count r ii.
Proof.
  intros Hs Hnd Hsub Ht. unfold add_at_1, searchsorted.
  pose proof (lookup_lt_Some _ _ _ Ht) as Hlt.
  rewrite rd_incr_all
    by (unfold size, zeros; rewrite length_replicate; lia).
  unfold zeros. rewrite (rd_lookup 0 _ _ 0);
    [|lia|apply lookup_replicate; split; [done|unfold size; lia]].
  unfold count. rewrite filter_fmap_eq, length_fmap, Z.add_0_l.
  do 2 f_equal.
  apply filter_ext_in. intros e He.
  apply Hsub, list_elem_of_lookup in He as [t' Ht'].
  rewrite (searchsorted1_lookup rows t' e Hs Ht'). split.
  - intros Heq. assert (t' = t) as -> by lia. congruence.
  - intros ->. f_equal. by eapply NoDup_lookup.
Qed.

Lemma length_add_at_1 (a idx : list Z) :
  length (add_at_1 a idx) = length a.
Proof. apply length_incr_all. Qed.

(** ** Scattered writes at distinct positions *)

Lemma rd_scatter_miss {A} (d : A) (ks : list Z) (vs : list A) (a : list A)
    (k : Z) :
  k ∉ ks → rd d (scatter a ks vs) k = rd d a k.
Proof.
  revert a vs. induction ks as [|k0 ks IH]; intros a vs Hk; [done|].
  destruct vs as [|v vs]; [done|]. rewrite scatter_cons.
  apply not_elem_of_cons in Hk as [Hne Hk].
  rewrite IH by done. by apply rd_wr_ne.
Qed.

Lemma rd_scatter_hit {A} (d : A) (ks : list Z) (vs : list A) (a : list A)
    (t : nat) (k : Z) (v : A) :
  NoDup ks → ks !! t = Some k → vs !! t = Some v → 0 ≤ k < size a →
  rd d (scatter a ks vs) k = v.
Proof.
  revert a vs t. induction ks as [|k0 ks IH]; intros a vs t Hnd Hk Hv Hr;
    [done|].
  destruct vs as [|v0 vs]; [done|]. rewrite scatter_cons.
  apply NoDup_cons in Hnd as [Hnin Hnd].
  destruct t as [|t]; simpl in *.
  - inversion Hk; inversion Hv; subst.
    rewrite rd_scatter_miss by done. by apply rd_wr_eq.
  - apply (IH _ _ t); try done. unfold size in *. by rewrite length_wr.
Qed.

(** ** Batch insertion: the new arrays *)

Lemma prefix_off {A} (blk : Z → list A) (M n : nat) :
  (n ≤ M)%nat →
  rd 0 (0 :: cumsum ((λ r, Z.of_nat (length (blk r)))
                       <$> seqZ 0 (Z.of_nat M))) (Z.of_nat n)
  = Z.of_nat (length (mjoin (blk <$> seqZ 0 (Z.of_nat n)))).
Proof.
  intros Hn. rewrite rd_prefix by (rewrite length_fmap, length_seqZ; lia).
  by rewrite take_fmap_seqZ, length_mjoin_sum.
Qed.

Lemma length_diff (a : list Z) : length (diff a) = (length a - 1)%nat.
Proof. unfold diff. rewrite length_zip_with, length_drop. lia. Qed.

Lemma sumZ_fmap_add {A} (f g : A → Z) (l : list A) :
  sumZ ((λ a, f a + g a) <$> l) = sumZ (f <$> l) + sumZ (g <$> l).
Proof.
  induction l as [|a l IH]; [done|].
  rewrite !fmap_cons, !sumZ_cons, IH. lia.
Qed.

Lemma slice_fmap {A B} (f : A → B) (l : list A) (lo hi : Z) :
  slice (f <$> l) lo hi = f <$> slice l lo hi.
Proof. unfold slice. by rewrite fmap_take, fmap_drop. Qed.

Lemma zip_fmap_same {A B C} (f : A → B) (g : A → C) (l : list A) :
  zip (f <$> l) (g <$> l) = (λ a, (f a, g a)) <$> l.
Proof. induction l as [|a l IH]; [done|]. simpl. f_equal. apply IH. Qed.

Lemma filter_all {A} (P : A → Prop) `{!∀ x, Decision (P x)} (l : list A) :
  Forall P l → filter P l = l.
Proof.
  induction 1 as [|a l Ha _ IH]; [done|].
  by rewrite filter_cons, decide_True, IH.
Qed.

Lemma length_inserted_row (K : list entry) (r : Z) :
  Z.of_nat (length (inserted_row K r)) = count r (e_major <$> K).
Proof.
  unfold inserted_row, count. by rewrite filter_fmap_eq, !length_fmap.
Qed.

Lemma length_merged_row (m : matrix) (K : list entry) (r : Z) :
  length (merged_row m K r)
  = (length (row_entries m r) + length (inserted_row K r))%nat.
Proof. unfold merged_row. by rewrite merge_Permutation, length_app. Qed.

Lemma length_row_entries (m : matrix) (r : Z) :
  wf_matrix m → 0 ≤ r < major_dim m →
  Z.of_nat (length (row_entries m r))
  = rd 0 (indptr m) (r + 1) - rd 0 (indptr m) r.
Proof.
  intros Hwf Hr. rewrite row_entries_in_order by done.
  unfold in_order. rewrite length_fmap, length_seqZ.
  pose proof (wf_row_bounds m r Hwf Hr). lia.
Qed.

Lemma rd_diff (m : matrix) (r : Z) :
  wf_matrix m → 0 ≤ r < major_dim m →
  rd 0 (diff (indptr m)) r = Z.of_nat (length (row_entries m r)).
Proof.
  intros Hwf Hr. rewrite length_row_entries by done.
  destruct Hwf as (HM & Hsz & _). unfold size in Hsz.
  apply rd_lookup; [lia|].
  rewrite diff_lookup by lia. by rewrite Z2Nat.id by lia.
Qed.

Lemma sum_row_lengths (m : matrix) :
  wf_matrix m →
  sumZ ((λ r, Z.of_nat (length (row_entries m r))) <$> seqZ 0 (major_dim m))
  = nnz m.
Proof.
  intros Hwf.
  assert ((λ r, Z.of_nat (length (row_entries m r))) <$> seqZ 0 (major_dim m)
          = diff (indptr m)) as ->.
  { rewrite <- (fmap_rd_seqZ 0 (diff (indptr m))).
    assert (size (diff (indptr m)) = major_dim m) as ->.
    { unfold size. rewrite length_diff.
      destruct Hwf as (HM & Hsz & _). unfold size in Hsz. lia. }
    apply list_fmap_ext. intros k r Hk.
    apply lookup_seqZ in Hk as [-> Hk]. symmetry. apply rd_diff; [done|lia]. }
  destruct Hwf as (HM & Hsz & H0 & _ & Hlast & _). unfold size in Hsz.
  rewrite <- Hlast.
  rewrite <- (prefix_diff (indptr m)) at 2;
    [|done|intros Hnil; rewrite Hnil in Hsz; simpl in Hsz; lia].
  rewrite <- (Z2Nat.id (major_dim m)) at 1 by lia.
  rewrite rd_prefix by (rewrite length_diff; lia).
  rewrite firstn_all2 by (rewrite length_diff; lia). done.
Qed.

Lemma mjoin_fmap_fmap {A B C} (f : A → B) (blk : C → list A) (l : list C) :
  mjoin ((λ r, f <$> blk r) <$> l) = f <$> mjoin (blk <$> l).
Proof.
  induction l as [|r l IH]; [done|].
  rewrite !fmap_cons. simpl. by rewrite fmap_app, IH.
Qed.

Section PerformInsert.
Variable m : matrix.
Variable K : list entry.
Hypothesis Hwf : wf_matrix m.
Hypothesis HK_sorted : StronglySorted (λ a b, e_major a ≤ e_major b) K.
Hypothesis HK_range : Forall (λ e, 0 ≤ e_major e < major_dim m) K.

Local Abbreviation rows := (fst (unique (e_major <$> K))).
Local Abbreviation rc :=
  (add_at_1 (zeros 0 (size rows)) (searchsorted rows (e_major <$> K))).
Local Abbreviation cnts :=
  ((λ r, Z.of_nat (length (inserted_row K r))) <$> seqZ 0 (major_dim m)).

Lemma rows_range (r : Z) : r ∈ rows → 0 ≤ r < major_dim m.
Proof.
  intros Hr. destruct (unique_rows_spec (e_major <$> K)) as (_ & _ & Hel & _).
  apply Hel, list_elem_of_fmap in Hr as (e & -> & He).
  rewrite Forall_forall in HK_range. by apply HK_range.
Qed.

Lemma not_in_rows (r : Z) : r ∉ rows → inserted_row K r = [].
Proof.
  intros Hr. destruct (unique_rows_spec (e_major <$> K)) as (_ & _ & Hel & _).
  unfold inserted_row. rewrite filter_nil_Forall; [done|].
  apply Forall_forall. intros e He Heq. apply Hr, Hel.
  rewrite <- Heq. by apply list_elem_of_fmap_2.
Qed.

Lemma length_rc : length rc = length rows.
Proof.
  rewrite length_add_at_1. unfold zeros, size.
  rewrite length_replicate. lia.
Qed.

Lemma rc_lookup (t : nat) (r : Z) :
  rows !! t = Some r →
  rc !! t = Some (Z.of_nat (length (inserted_row K r))).
Proof.
  intros Ht.
  destruct (unique_rows_spec (e_major <$> K)) as (Hs & Hnd & Hel & _).
  pose proof (row_counts_spec rows (e_major <$> K) t r Hs Hnd) as Hrc.
  rewrite rd_of_nat in Hrc.
  destruct (lookup_lt_is_Some_2 rc t) as [v Hv].
  { rewrite length_rc. by eapply lookup_lt_Some. }
  rewrite Hv in *. simpl in Hrc. f_equal.
  rewrite length_inserted_row. apply Hrc; [|done].
  intros e He. by apply Hel.
Qed.

Lemma new_diff_spec :
  scatter (diff (indptr m)) rows
    (zip_with Z.add (gather 0 (diff (indptr m)) rows) rc)
  = (λ r, Z.of_nat (length (merged_row m K r))) <$> seqZ 0 (major_dim m).
Proof.
  destruct (unique_rows_spec (e_major <$> K)) as (Hs & Hnd & Hel & _).
  set (d := diff (indptr m)).
  assert (size d = major_dim m) as Hszd.
  { unfold size, d. rewrite length_diff.
    destruct Hwf as (HM & Hsz & _). unfold size in Hsz. lia. }
  set (d' := scatter d rows (zip_with Z.add (gather 0 d rows) rc)).
  rewrite <- (fmap_rd_seqZ 0 d').
  assert (size d' = major_dim m) as ->
    by (unfold size, d'; rewrite length_scatter; apply Hszd).
  apply list_fmap_ext. intros k r Hk. apply lookup_seqZ in Hk as [-> Hk].
  rewrite Z.add_0_l in *. set (r := Z.of_nat k) in *.
  rewrite length_merged_row, Nat2Z.inj_add.
  rewrite <- (rd_diff m r Hwf) by lia. fold d.
  destruct (decide (r ∈ rows)) as [Hin|Hnin].
  - apply list_elem_of_lookup in Hin as [t Ht].
    unfold d'. apply (rd_scatter_hit 0 _ _ _ t); [done|done| |lia].
    apply lookup_zip_with_Some. eexists _, _. split; [done|]. split.
    + unfold gather. by rewrite list_lookup_fmap, Ht.
    + by apply rc_lookup.
  - unfold d'. rewrite rd_scatter_miss by done.
    rewrite not_in_rows by done. simpl. lia.
Qed.

Lemma lookup_spec :
  scatter (zeros 0 (major_dim m + 1)) ((λ r, r + 1) <$> rows) rc
  = 0 :: cnts.
Proof.
  destruct (unique_rows_spec (e_major <$> K)) as (Hs & Hnd & Hel & _).
  destruct Hwf as (HM & _).
  set (L := scatter (zeros 0 (major_dim m + 1)) ((λ r, r + 1) <$> rows) rc).
  assert (size L = major_dim m + 1) as HszL.
  { unfold size, L, zeros. rewrite length_scatter, length_replicate. lia. }
  assert (∀ v, rd 0 (zeros 0 (major_dim m + 1)) v = 0) as Hzero.
  { intros v. unfold rd, zeros. destruct (decide _); [|done].
    destruct (replicate _ _ !! _) eqn:Hl; [|done].
    by apply lookup_replicate in Hl as [-> _]. }
  rewrite <- (fmap_rd_seqZ 0 L), HszL.
  rewrite (seqZ_cons 0) by lia. rewrite fmap_cons. f_equal.
  - unfold L. rewrite rd_scatter_miss; [apply Hzero|].
    intros Hin. apply list_elem_of_fmap in Hin as (r & Hr0 & Hr).
    apply rows_range in Hr. lia.
  - replace (Z.succ 0) with (1 + 0) by lia.
    replace (Z.pred (major_dim m + 1)) with (major_dim m) by lia.
    rewrite <- (fmap_add_seqZ 1 0), <- list_fmap_compose.
    apply list_fmap_ext. intros k r Hk. apply lookup_seqZ in Hk as [-> Hk].
    rewrite Z.add_0_l in *. simpl. set (r := Z.of_nat k) in *.
    destruct (decide (r ∈ rows)) as [Hin|Hnin].
    + apply list_elem_of_lookup in Hin as [t Ht].
      unfold L. apply (rd_scatter_hit 0 _ _ _ t).
      * assert (Inj eq eq (λ r : Z, r + 1)) by (intros a b ?; lia).
        by apply NoDup_fmap_2.
      * rewrite list_lookup_fmap, Ht. simpl. f_equal. lia.
      * by apply rc_lookup.
      * unfold size, zeros. rewrite length_replicate. lia.
    + unfold L. rewrite rd_scatter_miss.
      * rewrite Hzero, not_in_rows by done. done.
      * intros Hin. apply list_elem_of_fmap in Hin as (r' & Heq & Hr').
        assert (r' = r) as -> by lia. done.
Qed.
Lemma major_nonneg : Forall (λ e, 0 ≤ e_major e) K.
Proof. eapply Forall_impl; [exact HK_range|]. simpl. lia. Qed.

Lemma lookup_off (r : Z) :
  0 ≤ r ≤ major_dim m →
  rd 0 (cumsum (0 :: cnts)) r
  = Z.of_nat (length (filter (λ e, e_major e < r) K)).
Proof.
  intros Hr. rewrite cumsum_cons_0.
  rewrite <- (Z2Nat.id r) by lia.
  rewrite rd_prefix by (rewrite length_fmap, length_seqZ; lia).
  rewrite <- (Z2Nat.id (major_dim m)) at 1 by lia.
  rewrite take_fmap_seqZ by lia.
  rewrite (length_filter_lt_sum e_major) by apply major_nonneg.
  f_equal. apply list_fmap_ext. intros k v _.
  unfold inserted_row. by rewrite length_fmap.
Qed.

Lemma inserted_slice (r : Z) :
  0 ≤ r < major_dim m →
  zip (slice (e_minor <$> K) (rd 0 (cumsum (0 :: cnts)) r)
             (rd 0 (cumsum (0 :: cnts)) (r + 1)))
      (slice (e_value <$> K) (rd 0 (cumsum (0 :: cnts)) r)
             (rd 0 (cumsum (0 :: cnts)) (r + 1)))
  = inserted_row K r.
Proof.
  intros Hr. rewrite !slice_fmap, zip_fmap_same. unfold inserted_row.
  f_equal. rewrite !lookup_off by lia.
  rewrite length_filter_lt_succ, Nat2Z.inj_add.
  apply (sorted_run e_major r K HK_sorted).
Qed.

Lemma insert_off (n : nat) :
  (n ≤ Z.to_nat (major_dim m))%nat →
  rd 0 (insert_indptr m K) (Z.of_nat n)
  = Z.of_nat (length (mjoin ((λ r, fst <$> merged_row m K r)
                               <$> seqZ 0 (Z.of_nat n)))).
Proof.
  intros Hn. unfold insert_indptr.
  rewrite <- (major_dim_nat m Hwf) at 1.
  rewrite prefix_off by done. by rewrite mjoin_fmap_fmap, length_fmap.
Qed.

Lemma populate_row_spec (Bs : list Z * list float) (r : Z) :
  0 ≤ r < major_dim m →
  length (fst Bs)
  = length (mjoin ((λ r, fst <$> merged_row m K r)
                     <$> seqZ 0 (major_dim m))) →
  length (snd Bs) = length (fst Bs) →
  populate_row (e_minor <$> K) (e_value <$> K) (cumsum (0 :: cnts))
    (indptr m) (indices m) (data m) (insert_indptr m K) Bs r
  = (splice (fst Bs) (Z.to_nat (rd 0 (insert_indptr m K) r))
       (fst <$> merged_row m K r),
     splice (snd Bs) (Z.to_nat (rd 0 (insert_indptr m K) r))
       (snd <$> merged_row m K r)).
Proof.
  intros Hr HlA HlB. unfold populate_row. cbv zeta.
  rewrite inserted_slice by done.
  fold (row_entries m r). fold (merged_row m K r).
  pose proof (insert_off (Z.to_nat r) ltac:(lia)) as Hlo.
  pose proof (insert_off (Z.to_nat (r + 1)) ltac:(lia)) as Hhi.
  rewrite Z2Nat.id in Hlo, Hhi by lia.
  rewrite (seqZ_succ 0 r), fmap_app, join_app, length_app in Hhi by lia.
  simpl in Hhi. rewrite app_nil_r, Z.add_0_l in Hhi.
  pose proof (length_mjoin_mono (λ r, fst <$> merged_row m K r)
                (Z.to_nat (major_dim m)) (Z.to_nat (r + 1)) ltac:(lia))
    as Hmono.
  rewrite (major_dim_nat m Hwf), Z2Nat.id in Hmono by lia.
  rewrite (seqZ_succ 0 r), fmap_app, join_app, length_app in Hmono by lia.
  simpl in Hmono. rewrite app_nil_r, Z.add_0_l in Hmono.
  rewrite length_fmap in Hmono.
  rewrite !list_inserts_splice by (rewrite length_fmap; lia). done.
Qed.

Lemma perform_insert_spec :
  _perform_insert m (e_minor <$> K) (e_value <$> K) rows rc
  = set_arrays m
      (snd <$> mjoin (merged_row m K <$> seqZ 0 (major_dim m)))
      (fst <$> mjoin (merged_row m K <$> seqZ 0 (major_dim m)))
      (insert_indptr m K).
Proof.
  unfold _perform_insert. cbv zeta. rewrite new_diff_spec.
  change (cumsum (0 :: ?l)) with (0 :: cumsum l).
  fold (insert_indptr m K).
  assert (size (insert_indptr m K) = major_dim m + 1) as ->.
  { unfold size, insert_indptr.
    rewrite length_cons, length_cumsum, length_fmap, length_seqZ.
    destruct Hwf as (HM & _). lia. }
  rewrite lookup_spec.
  assert (size (indptr m) - 1 = major_dim m) as ->
    by (destruct Hwf as (_ & -> & _); lia).
  unfold _insert_many_populate_arrays.
  pose proof (rows_written
    (populate_row (e_minor <$> K) (e_value <$> K) (cumsum (0 :: cnts))
       (indptr m) (indices m) (data m) (insert_indptr m K))
    (λ r, fst <$> merged_row m K r) (λ r, snd <$> merged_row m K r)
    (rd 0 (insert_indptr m K))
    (zeros 0 (default 0 (last (insert_indptr m K))),
     zeros 0%float (default 0 (last (insert_indptr m K))))
    (Z.to_nat (major_dim m))) as Hrw.
  rewrite (major_dim_nat m Hwf) in Hrw.
  assert (default 0 (last (insert_indptr m K))
          = Z.of_nat (length (mjoin ((λ r, fst <$> merged_row m K r)
                                       <$> seqZ 0 (major_dim m))))) as Hnnz.
  { unfold insert_indptr.
    by rewrite last_prefix, <- length_mjoin_sum, mjoin_fmap_fmap,
      length_fmap. }
  change (0 :: cumsum cnts) with (cumsum (0 :: cnts)).
  rewrite Hrw.
  - by rewrite !mjoin_fmap_fmap.
  - intros r _. by rewrite !length_fmap.
  - apply insert_off.
  - cbn [fst snd]. unfold zeros. rewrite !length_replicate, Hnnz. lia.
  - intros Bs r Hr HlA HlB. cbn [fst snd] in HlA, HlB.
    unfold zeros in HlA, HlB.
    rewrite length_replicate in HlA. rewrite length_replicate in HlB.
    rewrite Hnnz in HlA, HlB.
    apply populate_row_spec; [done|lia|lia].
Qed.
End PerformInsert.

Lemma insert_many_unfold (m : matrix) (i j : list Z) (x : list float) :
  length j = length i → length x = length i →
  let K := drop_shadowed
             (stable_sort e_coord coord_le
                (stable_sort e_major Z.le (zip3 i j x))) in
  let rows := fst (unique (e_major <$> K)) in
  _insert_many m i j x
  = _perform_insert m (e_minor <$> K) (e_value <$> K) rows
      (add_at_1 (zeros 0 (size rows)) (searchsorted rows (e_major <$> K))).
Proof.
  intros Hj Hx K rows. unfold _insert_many, _select_last_indices.
  rewrite gather_argsort by done. fold K.
  destruct (unique_rows_spec (e_major <$> K)) as (_ & _ & _ & Hlen).
  fold rows in Hlen.
  destruct (unique (e_major <$> K)) as [rows' ui] eqn:Hu.
  simpl in rows, Hlen. subst rows.
  replace (size (ui ++ [size (gather 0 j (argsort i))]) - 1)
    with (size rows'); [done|].
  unfold size. rewrite length_app. simpl. lia.
Qed.

Lemma inserted_row_Permutation (K K' : list entry) (r : Z) :
  K ≡ₚ K' → inserted_row K r ≡ₚ inserted_row K' r.
Proof. intros HK. unfold inserted_row. by rewrite HK. Qed.

(** C2: batch insertion into a well-formed matrix.  Of the batch entries
    that share a coordinate only the last one in batch order is kept: every
    major row of the result holds its old entries and, once each, the
    coordinates the batch has for that row with the value of their last
    occurrence; nothing is summed.  The number of stored entries grows by
    the number of distinct coordinates of the batch. *)
Theorem insert_many_last_write_wins (m : matrix) (i j : list Z)
    (x : list float) :
  wf_matrix m → length j = length i → length x = length i →
  Forall (λ v, 0 ≤ v < major_dim m) i →
  let m' := _insert_many m i j x in
  let E := zip3 i j x in
  nnz m' = nnz m + Z.of_nat (length (remove_dups (zip i j))) ∧
  (∀ r, 0 ≤ r < major_dim m →
        row_entries m' r ≡ₚ row_entries m r ++ inserted_row (keep_last E) r) ∧
  (∀ c, filter (λ e, e_coord e = c) (keep_last E)
        = option_list (last (filter (λ e, e_coord e = c) E))).
Proof.
  intros Hwf Hj Hx Hi m' E.
  split; [|split; [|intros c; apply keep_last_filter]].
  all: subst m'; rewrite insert_many_unfold by done; cbv zeta; fold E.
  all: set (K := drop_shadowed
                   (stable_sort e_coord coord_le
                      (stable_sort e_major Z.le E))).
  all: pose proof (kept_Permutation E) as HKperm; cbv zeta in HKperm;
    fold K in HKperm.
  all: pose proof (kept_sorted_major E) as HKsorted; cbv zeta in HKsorted;
    fold K in HKsorted.
  all: assert (Forall (λ e, 0 ≤ e_major e < major_dim m) K) as HKrange.
  1,3: apply Forall_forall; intros e He;
    apply (kept_elem E) in He;
    apply list_elem_of_lookup in He as [k Hk];
    apply lookup_zip_with_Some in Hk as (ab & v & -> & Hab & _);
    apply lookup_zip_with_Some in Hab as (a & b & -> & Ha & _);
    rewrite Forall_forall in Hi; apply Hi;
    by eapply list_elem_of_lookup_2.
  all: rewrite (perform_insert_spec m K Hwf HKsorted HKrange).
  - unfold nnz, size. simpl. rewrite length_fmap.
    rewrite length_mjoin_sum.
    rewrite (list_fmap_ext _
               (λ r, Z.of_nat (length (row_entries m r))
                     + Z.of_nat (length (inserted_row K r)))
               (seqZ 0 (major_dim m)))
      by (intros; rewrite length_merged_row; lia).
    rewrite sumZ_fmap_add, sum_row_lengths by done.
    fold (nnz m). unfold nnz, size. f_equal.
    rewrite (list_fmap_ext
               (λ r, Z.of_nat (length (inserted_row K r)))
               (λ v, Z.of_nat (length (filter (λ e, e_major e = v) K)))
               (seqZ 0 (major_dim m)))
      by (intros; unfold inserted_row; by rewrite length_fmap).
    rewrite <- (major_dim_nat m Hwf).
    rewrite <- (length_filter_lt_sum e_major)
      by (eapply Forall_impl; [exact HKrange|]; simpl; lia).
    rewrite (major_dim_nat m Hwf).
    rewrite filter_all
      by (eapply Forall_impl; [exact HKrange|]; simpl; lia).
    rewrite HKperm.
    rewrite <- (length_fmap e_coord), keep_last_coords.
    change (e_coord <$> E) with (fst <$> zip (zip i j) x).
    rewrite fst_zip; [done|]. rewrite length_zip_with. lia.
  - intros r Hr. unfold row_entries at 1. simpl.
    rewrite !slice_fmap, zip_fst_snd.
    unfold insert_indptr.
    rewrite <- (major_dim_nat m Hwf).
    rewrite (slice_rows (merged_row m K) _ (Z.to_nat (major_dim m)) r)
      by (try apply prefix_off; lia).
    unfold merged_row. rewrite merge_Permutation.
    by rewrite (inserted_row_Permutation K (keep_last E)).
Qed.

Lemma insert_many_last_write_wins_witness :
  let m := Matrix CSR (5, 5) [7%float; 9%float] [2; 4] [0; 0; 1; 1; 2; 2]
                  None None in
  let m' := _insert_many m [1; 1; 1; 0; 4; 1] [3; 0; 3; 2; 2; 3]
              [1%float; 2%float; 3%float; 4%float; 5%float; 6%float] in
  nnz m' = nnz m + 4 ∧
  row_entries m' 1 ≡ₚ [(2, 7%float)] ++ [(0, 2%float); (3, 6%float)].
Proof.
  intros m m'.
  destruct (insert_many_last_write_wins m [1; 1; 1; 0; 4; 1]
              [3; 0; 3; 2; 2; 3]
              [1%float; 2%float; 3%float; 4%float; 5%float; 6%float])
    as (Hnnz & Hrows & _).
  - unfold wf_matrix. by_compute.
  - reflexivity.
  - reflexivity.
  - by_compute.
  - split; [exact Hnnz|]. apply (Hrows 1). by_compute.
Defined.

(** * Further properties *)

(** ** The check kernels of the format flags *)

Lemma foldl_flag {E} (bad : E → bool) (l : list E) (b : bool) :
  foldl (λ diff_out jj, if bad jj then false else diff_out) b l = true
  ↔ b = true ∧ Forall (λ jj, bad jj = false) l.
Proof.
  revert b. induction l as [|jj l IH]; intros b; simpl.
  - split; [intros ->; by split|by intros [-> _]].
  - rewrite IH, Forall_cons. destruct (bad jj).
    + split; [by intros [? _]|by intros [_ [? _]]].
    + split; [by intros [-> ?]|by intros [-> [_ ?]]].
Qed.

Lemma sorted_kern_spec (indptr indices : list Z) (i : Z) :
  _has_sorted_indices_kern indptr indices i = true ↔
  ∀ jj, rd 0 indptr i ≤ jj → jj + 1 < rd 0 indptr (i + 1) →
        rd 0 indices jj ≤ rd 0 indices (jj + 1).
Proof.
  unfold _has_sorted_indices_kern.
  rewrite (foldl_flag
             (λ jj, bool_decide (rd 0 indices jj > rd 0 indices (jj + 1)))).
  rewrite Forall_forall. split.
  - intros [_ H] jj Hlo Hhi.
    specialize (H jj). rewrite elem_of_seqZ, bool_decide_eq_false in H.
    specialize (H ltac:(lia)). lia.
  - intros H. split; [done|]. intros jj Hjj.
    apply elem_of_seqZ in Hjj. apply bool_decide_eq_false.
    specialize (H jj). lia.
Qed.

Lemma canonical_kern_spec (indptr indices : list Z) (i : Z) :
  _has_canonical_format_kern indptr indices i = true ↔
  rd 0 indptr i ≤ rd 0 indptr (i + 1) ∧
  ∀ jj, rd 0 indptr i ≤ jj → jj + 1 < rd 0 indptr (i + 1) →
        rd 0 indices jj < rd 0 indices (jj + 1).
Proof.
  unfold _has_canonical_format_kern.
  destruct (bool_decide (rd 0 indptr i > rd 0 indptr (i + 1))) eqn:Hd.
  { apply bool_decide_eq_true in Hd. split; [done|]. intros [? _]. lia. }
  apply bool_decide_eq_false in Hd.
  rewrite (foldl_flag
             (λ jj, bool_decide (rd 0 indices jj >= rd 0 indices (jj + 1)))).
  rewrite Forall_forall. split.
  - intros [_ H]. split; [lia|]. intros jj Hlo Hhi.
    specialize (H jj). rewrite elem_of_seqZ, bool_decide_eq_false in H.
    specialize (H ltac:(lia)). lia.
  - intros [_ H]. split; [done|]. intros jj Hjj.
    apply elem_of_seqZ in Hjj. apply bool_decide_eq_false.
    specialize (H jj). lia.
Qed.

Lemma launch_all_spec (kern : list Z → list Z → Z → bool) (m : matrix) :
  launch_all kern m = true ↔
  ∀ i, 0 ≤ i < size (indptr m) - 1 → kern (indptr m) (indices m) i = true.
Proof.
  unfold launch_all. rewrite forallb_forall. split.
  - intros H i Hi. apply H. apply list_elem_of_In, elem_of_seqZ. lia.
  - intros H i Hi. apply list_elem_of_In, elem_of_seqZ in Hi. apply H. lia.
Qed.

Lemma launch_sorted_spec (m : matrix) :
  launch_all _has_sorted_indices_kern m = true ↔ rows_sorted m.
Proof.
  rewrite launch_all_spec. unfold rows_sorted. split.
  - intros H i jj Hi. by apply sorted_kern_spec, H.
  - intros H i Hi. apply sorted_kern_spec. intros jj. by apply H.
Qed.

Lemma launch_canonical_spec (m : matrix) :
  launch_all _has_canonical_format_kern m = true ↔ rows_canonical m.
Proof.
  rewrite launch_all_spec. unfold rows_canonical. split.
  - intros H i Hi. by apply canonical_kern_spec, H.
  - intros H i Hi. apply canonical_kern_spec. by apply H.
Qed.

Lemma rows_canonical_sorted (m : matrix) : rows_canonical m → rows_sorted m.
Proof.
  intros H i jj Hi Hlo Hhi. destruct (H i Hi) as [_ Hlt].
  specialize (Hlt jj Hlo Hhi). lia.
Qed.

(** X1: on a matrix with stored entries and no cached flag, reading
    [has_sorted_indices] launches the check kernel, gives True exactly when
    the minor indices of every major row are in non-decreasing order, and
    leaves the answer in the cache without touching anything else. *)
Theorem has_sorted_indices_checks_rows (m : matrix) :
  size (data m) ≠ 0 → _has_sorted_indices m = None →
  (read_value (get_has_sorted_indices m) = true ↔ rows_sorted m) ∧
  read_launched (get_has_sorted_indices m) = true ∧
  read_self (get_has_sorted_indices m)
    = set_sorted_attr m (Some (read_value (get_has_sorted_indices m))).
Proof.
  intros Hsz Hnone. unfold get_has_sorted_indices.
  rewrite decide_False by done. rewrite Hnone. simpl.
  split; [apply launch_sorted_spec|done].
Qed.

Lemma has_sorted_indices_checks_rows_witness :
  let m := Matrix CSR (2, 4) [1%float; 2%float; 3%float] [2; 0; 3] [0; 2; 3]
                  None None in
  read_value (get_has_sorted_indices m) = false ∧ ¬ rows_sorted m.
Proof.
  intros m.
  destruct (has_sorted_indices_checks_rows m) as ([H1 H2] & _ & _).
  - intros H. discriminate H.
  - reflexivity.
  - assert (read_value (get_has_sorted_indices m) = false) as Hv
      by reflexivity.
    split; [exact Hv|]. intros Hs. apply H2 in Hs.
    rewrite Hv in Hs. discriminate Hs.
Defined.

(** X2: on a matrix with stored entries whose sorted flag is not cached as
    False and whose canonical flag is not cached, reading
    [has_canonical_format] launches the check kernel and gives True exactly
    when the row offsets do not decrease and the minor indices of every
    major row are strictly increasing (sorted, without duplicates); the
    read leaves [_has_sorted_indices] as it was. *)
Theorem has_canonical_format_checks_rows (m : matrix) :
  size (data m) ≠ 0 → _has_sorted_indices m ≠ Some false →
  _has_canonical_format m = None →
  (read_value (get_has_canonical_format m) = true ↔ rows_canonical m) ∧
  read_launched (get_has_canonical_format m) = true ∧
  _has_sorted_indices (read_self (get_has_canonical_format m))
    = _has_sorted_indices m.
Proof.
  intros Hsz Hs Hnone. unfold get_has_canonical_format.
  rewrite decide_False by done. rewrite Hnone.
  destruct (_has_sorted_indices m) as [[]|] eqn:E; try done; simpl.
  all: split; [apply launch_canonical_spec|done].
Qed.

Lemma has_canonical_format_checks_rows_witness :
  let m := Matrix CSR (2, 4) [1%float; 2%float; 3%float] [0; 0; 3] [0; 2; 3]
                  None None in
  read_value (get_has_canonical_format m) = false ∧ ¬ rows_canonical m ∧
  read_value (get_has_sorted_indices m) = true.
Proof.
  intros m.
  destruct (has_canonical_format_checks_rows m) as ([H1 H2] & _ & _).
  - intros H. discriminate H.
  - intros H. discriminate H.
  - reflexivity.
  - assert (read_value (get_has_canonical_format m) = false) as Hv
      by reflexivity.
    split; [exact Hv|]. split; [|reflexivity]. intros Hs. apply H2 in Hs.
    rewrite Hv in Hs. discriminate Hs.
Defined.

(** X3: [has_canonical_format] implies [has_sorted_indices].  When a read
    of [has_canonical_format] that was not answered from its own cache
    gives True, the read of [has_sorted_indices] that follows gives True as
    well. *)
Theorem canonical_implies_sorted (m : matrix) :
  _has_canonical_format m = None →
  read_value (get_has_canonical_format m) = true →
  read_value (get_has_sorted_indices (read_self (get_has_canonical_format m)))
    = true.
Proof.
  intros Hnone. unfold get_has_canonical_format, get_has_sorted_indices.
  destruct (decide (size (data m) = 0)) as [Hz|Hnz]; simpl.
  { intros _. by rewrite decide_True. }
  rewrite Hnone.
  destruct (_has_sorted_indices m) as [[]|] eqn:E; simpl; try done.
  - intros _. rewrite decide_False by done. by rewrite E.
  - intros Hc. rewrite decide_False by done. rewrite E. simpl.
    by apply launch_sorted_spec, rows_canonical_sorted, launch_canonical_spec.
Qed.

Lemma canonical_implies_sorted_witness :
  let m := Matrix CSR (2, 4) [1%float; 2%float; 3%float] [0; 2; 3] [0; 2; 3]
                  None None in
  read_value (get_has_canonical_format m) = true ∧
  read_value (get_has_sorted_indices (read_self (get_has_canonical_format m)))
    = true.
Proof.
  intros m. split; [reflexivity|].
  apply (canonical_implies_sorted m); reflexivity.
Defined.

(** X4: the flags are cached.  Right after a read of [has_sorted_indices]
    (of [has_canonical_format]) a second read gives the same value,
    launches no kernel and leaves the object as the first read left it. *)
Theorem flag_reads_are_cached (m : matrix) :
  (let r := get_has_sorted_indices m in
   get_has_sorted_indices (read_self r)
     = FlagRead (read_value r) (read_self r) false) ∧
  (let r := get_has_canonical_format m in
   get_has_canonical_format (read_self r)
     = FlagRead (read_value r) (read_self r) false).
Proof.
  split; cbv zeta.
  - unfold get_has_sorted_indices.
    destruct (decide (size (data m) = 0)) as [Hz|Hnz]; simpl.
    + by rewrite decide_True.
    + destruct (_has_sorted_indices m) as [v|] eqn:E; simpl.
      all: rewrite decide_False by done; by rewrite ?E.
  - unfold get_has_canonical_format.
    destruct (decide (size (data m) = 0)) as [Hz|Hnz]; simpl.
    + by rewrite decide_True.
    + destruct (_has_sorted_indices m) as [[]|] eqn:Es; simpl.
      2:{ rewrite decide_False by done. by rewrite Es. }
      all: destruct (_has_canonical_format m) as [v|] eqn:Ec; simpl.
      all: rewrite decide_False by done; by rewrite Es, ?Ec.
Qed.

(** X5: the setters.  After [has_canonical_format = True] both flags read
    True without a kernel launch, whatever the arrays hold; after
    [has_canonical_format = False] the sorted flag is as it was; and on a
    matrix with stored entries, after [has_sorted_indices = False] the
    canonical flag reads False without a kernel launch, whatever it was
    cached as. *)
Theorem flag_setters (m : matrix) :
  (let m' := set_has_canonical_format m true in
   read_value (get_has_canonical_format m') = true ∧
   read_launched (get_has_canonical_format m') = false ∧
   read_value (get_has_sorted_indices m') = true ∧
   read_launched (get_has_sorted_indices m') = false) ∧
  _has_sorted_indices (set_has_canonical_format m false)
    = _has_sorted_indices m ∧
  (size (data m) ≠ 0 →
   let m' := set_has_sorted_indices m false in
   read_value (get_has_canonical_format m') = false ∧
   read_launched (get_has_canonical_format m') = false).
Proof.
  split; [|split; [done|]]; cbv zeta.
  - unfold get_has_canonical_format, get_has_sorted_indices.
    simpl. by destruct (decide (size (data m) = 0)).
  - intros Hsz. unfold get_has_canonical_format. simpl.
    by rewrite decide_False by done.
Qed.

Lemma flag_setters_witness :
  let m := Matrix CSR (2, 4) [1%float; 2%float; 3%float] [0; 2; 3] [0; 2; 3]
                  (Some true) (Some true) in
  read_value (get_has_canonical_format (set_has_sorted_indices m false))
    = false.
Proof.
  intros m. destruct (flag_setters m) as (_ & _ & H).
  destruct H as [Hv _]; [intros E; discriminate E|]. exact Hv.
Defined.

(** ** The order of the stored values *)

Ltac sf_cases :=
  repeat match goal with
         | s : bool |- _ => destruct s
         end;
  simpl in *; try discriminate; try tauto; auto.

Ltac sf_order :=
  repeat match goal with
         | |- context [Z.compare ?a ?b] =>
             destruct (Z.compare_spec a b); try lia; subst
         | |- context [Pos.compare_cont Eq ?a ?b] =>
             change (Pos.compare_cont Eq a b) with (Pos.compare a b);
             destruct (Pos.compare_spec a b); try lia; subst
         end;
  simpl in *; try discriminate; try lia; auto.

Lemma SFltb_trans (a b c : spec_float) :
  SFltb a b = true → SFltb b c = true → SFltb a c = true.
Proof.
  unfold SFltb, SFcompare.
  destruct a as [sa|sa| |sa ma ea], b as [sb|sb| |sb mb eb],
           c as [sc|sc| |sc mc ec]; sf_cases; sf_order.
Qed.

Lemma SFltb_neg_trans (a b c : spec_float) :
  b ≠ S754_nan → SFltb a c = true → SFltb a b = true ∨ SFltb b c = true.
Proof.
  unfold SFltb, SFcompare.
  destruct a as [sa|sa| |sa ma ea], b as [sb|sb| |sb mb eb],
           c as [sc|sc| |sc mc ec]; intros Hb; sf_cases; sf_order.
Qed.

Lemma SFltb_irrefl (a : spec_float) : SFltb a a = false.
Proof.
  unfold SFltb, SFcompare. destruct a as [s|s| |s m e]; sf_cases; sf_order.
Qed.

Lemma SFeqb_refl (a : spec_float) : a ≠ S754_nan → SFeqb a a = true.
Proof.
  unfold SFeqb, SFcompare.
  destruct a as [s|s| |s m e]; intros H; sf_cases; sf_order.
Qed.

(** [v != v] is false exactly on the values that are not NaN. *)
Lemma self_ne_false (v : float) :
  self_ne v = false ↔ Prim2SF v ≠ S754_nan.
Proof.
  unfold self_ne. rewrite FloatAxioms.eqb_spec. split.
  - intros H Hn. rewrite Hn in H. discriminate H.
  - intros H. by rewrite SFeqb_refl.
Qed.

(** On values that are not NaN, [cmp op] is a strict weak order. *)
Lemma cmp_trans (op : red_op) (a b c : float) :
  cmp op a b = true → cmp op b c = true → cmp op a c = true.
Proof.
  destruct op; simpl; rewrite !FloatAxioms.ltb_spec; intros H1 H2.
  - by apply (SFltb_trans _ (Prim2SF b)).
  - by apply (SFltb_trans _ (Prim2SF b)).
Qed.

Lemma cmp_neg_trans (op : red_op) (a b c : float) :
  self_ne b = false → cmp op a c = true →
  cmp op a b = true ∨ cmp op b c = true.
Proof.
  rewrite self_ne_false. destruct op; simpl; rewrite !FloatAxioms.ltb_spec; intros Hb H.
  - destruct (SFltb_neg_trans _ (Prim2SF b) _ Hb H); auto.
  - destruct (SFltb_neg_trans _ (Prim2SF b) _ Hb H); auto.
Qed.

Lemma cmp_irrefl (op : red_op) (a : float) : cmp op a a = false.
Proof. destruct op; simpl; rewrite FloatAxioms.ltb_spec; apply SFltb_irrefl. Qed.

Lemma cmp_asym (op : red_op) (a b : float) :
  cmp op a b = true → cmp op b a = false.
Proof.
  intros H. destruct (cmp op b a) eqn:E; [|done].
  pose proof (cmp_trans op a b a H E) as Haa.
  by rewrite cmp_irrefl in Haa.
Qed.

(** ** The scans of the reduction kernels on rows without NaN *)

(** The running value after the scan is the initial value or a scanned
    value, and neither the initial value nor a scanned value beats it. *)
Lemma reduction_scan_spec (oob_data : float) (op : red_op)
    (data : list float) (entries : list Z) (r0 : float) :
  self_ne r0 = false →
  Forall (λ e, self_ne (rd oob_data data e) = false) entries →
  let R := reduction_scan oob_data op data entries r0 in
  (R = r0 ∨ ∃ e, e ∈ entries ∧ R = rd oob_data data e) ∧
  cmp op r0 R = false ∧
  Forall (λ e, cmp op (rd oob_data data e) R = false) entries.
Proof.
  revert r0. induction entries as [|e rest IH]; intros r0 Hr0 Hall R;
    subst R.
  - simpl. split; [by left|]. split; [apply cmp_irrefl|constructor].
  - apply Forall_cons in Hall as [He Hall]. simpl. rewrite He.
    set (d := rd oob_data data e) in *.
    destruct (cmp op d r0) eqn:Hc.
    + destruct (IH d He Hall) as (Hin & Hd & Hrest).
      set (R := reduction_scan oob_data op data rest d) in *.
      split; [|split; [|by constructor]].
      * right. destruct Hin as [->|(e' & He' & ->)].
        -- exists e. split; [apply list_elem_of_here|done].
        -- exists e'. split; [by apply list_elem_of_further|done].
      * destruct (cmp op r0 R) eqn:E; [|done].
        by rewrite (cmp_trans op d r0 R Hc E) in Hd.
    + destruct (IH r0 Hr0 Hall) as (Hin & Hr & Hrest).
      set (R := reduction_scan oob_data op data rest r0) in *.
      split; [|split; [done|constructor; [|done]]].
      * destruct Hin as [->|(e' & He' & ->)]; [by left|].
        right. exists e'. split; [by apply list_elem_of_further|done].
      * destruct (cmp op d R) eqn:E; [|done].
        destruct (cmp_neg_trans op d r0 R Hr0 E) as [H|H]; congruence.
Qed.

(** The pair after the scan is the initial pair, and then no scanned value
    beats the initial value; or it is the first scanned entry whose value
    no scanned value beats, and then that value beats the initial one. *)
Lemma arg_scan_spec (oob_data : float) (oob_index : Z) (op : red_op)
    (data : list float) (indices entries : list Z) (st : Z * float) :
  self_ne (snd st) = false →
  Forall (λ e, self_ne (rd oob_data data e) = false) entries →
  let R := arg_scan oob_data oob_index op data indices entries st in
  (R = st
   ∧ Forall (λ e, cmp op (rd oob_data data e) (snd st) = false) entries)
  ∨ (∃ k e, entries !! k = Some e
       ∧ R = (rd oob_index indices e, rd oob_data data e)
       ∧ cmp op (rd oob_data data e) (snd st) = true
       ∧ Forall (λ e', cmp op (rd oob_data data e') (rd oob_data data e)
                       = false) entries
       ∧ ∀ k' e', (k' < k)%nat → entries !! k' = Some e' →
           cmp op (rd oob_data data e) (rd oob_data data e') = true).
Proof.
  revert st. induction entries as [|e rest IH]; intros st Hst Hall R;
    subst R.
  - left. by split.
  - apply Forall_cons in Hall as [He Hall]. simpl. rewrite He.
    set (d := rd oob_data data e) in *.
    destruct (cmp op d (snd st)) eqn:Hc.
    + destruct (IH (rd oob_index indices e, d) He Hall)
        as [[-> Hrest]|(k & e2 & Hk & -> & Hbeat & Hmax & Hfirst)].
      * right. exists 0%nat, e. simpl. split; [done|]. split; [done|].
        split; [done|]. split; [|intros; lia].
        constructor; [apply cmp_irrefl|done].
      * right. exists (S k), e2. simpl in *. split; [done|]. split; [done|].
        split; [by apply (cmp_trans op _ d)|].
        split; [constructor; [by apply cmp_asym|done]|].
        intros [|k'] e' Hlt Hk'; simpl in Hk'.
        -- by inversion Hk'; subst.
        -- apply (Hfirst k'); [lia|done].
    + destruct (IH st Hst Hall)
        as [[-> Hrest]|(k & e2 & Hk & -> & Hbeat & Hmax & Hfirst)].
      * left. split; [done|]. by constructor.
      * right. exists (S k), e2. simpl. split; [done|]. split; [done|].
        split; [done|].
        assert (cmp op (rd oob_data data e2) d = true) as Hd.
        { destruct (cmp_neg_trans op _ d _ He Hbeat) as [H|H];
            [done|congruence]. }
        split; [constructor; [by apply cmp_asym|done]|].
        intros [|k'] e' Hlt Hk'; simpl in Hk'.
        -- by inversion Hk'; subst.
        -- apply (Hfirst k'); [lia|done].
Qed.

(** ** Reductions of a whole row *)

Lemma rd_init_indptr (o : Z) (a : list Z) (r : Z) :
  0 ≤ r → r + 1 < size a → rd o (take (length a - 1) a) r = rd 0 a r.
Proof.
  intros Hr Hlt. unfold rd, size in *. rewrite !decide_True by done.
  rewrite lookup_take_lt by lia.
  destruct (lookup_lt_is_Some_2 a (Z.to_nat r)) as [v Hv]; [lia|].
  by rewrite Hv.
Qed.

Lemma rd_tail_indptr (o : Z) (a : list Z) (r : Z) :
  0 ≤ r → r + 1 < size a → rd o (drop 1 a) r = rd 0 a (r + 1).
Proof.
  intros Hr Hlt. unfold rd, size in *. rewrite !decide_True by lia.
  rewrite lookup_drop.
  replace (1 + Z.to_nat r)%nat with (Z.to_nat (r + 1)) by lia.
  destruct (lookup_lt_is_Some_2 a (Z.to_nat (r + 1))) as [v Hv]; [lia|].
  by rewrite Hv.
Qed.

Section RowReductions.
Variable oob_data : float.
Variable oob_index : Z.
Variable m : matrix.
Variable axis : Z.
Variable r : Z.
Hypothesis Hwf : wf_matrix m.
Hypothesis Haxis : shape_at m (1 - axis) = major_dim m.
Hypothesis Hr : 0 ≤ r < major_dim m.

Local Abbreviation lo := (rd 0 (indptr m) r).
Local Abbreviation hi := (rd 0 (indptr m) (r + 1)).
Local Abbreviation x := (take (length (indptr m) - 1) (indptr m)).
Local Abbreviation y := (drop 1 (indptr m)).

Hypothesis Hnan : ∀ p, lo ≤ p < hi → self_ne (rd 0%float (data m) p) = false.

Lemma row_x : rd oob_index x r = lo.
Proof.
  destruct Hwf as (_ & Hsz & _). apply rd_init_indptr; lia.
Qed.

Lemma row_y : rd oob_index y r = hi.
Proof.
  destruct Hwf as (_ & Hsz & _). apply rd_tail_indptr; lia.
Qed.

Lemma row_data (p : Z) :
  lo ≤ p < hi → rd oob_data (data m) p = rd 0%float (data m) p.
Proof.
  intros Hp. apply rd_in_range.
  pose proof (wf_row_bounds m r Hwf Hr). unfold nnz in *. lia.
Qed.

Lemma row_index (p : Z) :
  lo ≤ p < hi → rd oob_index (indices m) p = rd 0 (indices m) p.
Proof.
  intros Hp. apply rd_in_range.
  pose proof (wf_row_bounds m r Hwf Hr).
  destruct Hwf as (_ & _ & _ & _ & _ & Hlen & _).
  unfold nnz, size in *. lia.
Qed.

Lemma row_not_nan :
  Forall (λ e, self_ne (rd oob_data (data m) e) = false)
         (seqZ lo (hi - lo)).
Proof.
  apply Forall_forall. intros e He. apply elem_of_seqZ in He.
  rewrite row_data by lia. apply Hnan. lia.
Qed.

Lemma minor_reduce_lookup (u : ufunc) (nonzero : bool) :
  _minor_reduce oob_data oob_index m u axis nonzero !! Z.to_nat r
  = Some (max_min_reduction oob_data oob_index (ufunc_op u)
            (if nonzero then cond_nonzero else cond_dense)
            (data m) x y (shape_at m axis) r).
Proof.
  unfold _minor_reduce. rewrite list_lookup_fmap, Haxis.
  rewrite lookup_seqZ_lt by lia. simpl. do 3 f_equal. lia.
Qed.

Lemma arg_minor_reduce_lookup (u : arg_ufunc) :
  _arg_minor_reduce oob_data oob_index m u axis !! Z.to_nat r
  = Some (arg_reduction oob_data oob_index (arg_ufunc_op u)
            (data m) (indices m) x y (shape_at m axis) r).
Proof.
  unfold _arg_minor_reduce. rewrite list_lookup_fmap, Haxis.
  rewrite lookup_seqZ_lt by lia. simpl. do 3 f_equal. lia.
Qed.

(** The row starts from its first stored value: the result is a stored
    value of the row that no stored value of the row beats. *)
Lemma reduce_row_from_data (op : red_op) (c : red_cond) :
  lo < hi → eval_cond c (hi - lo) (shape_at m axis) = true →
  ∃ p, lo ≤ p < hi
    ∧ max_min_reduction oob_data oob_index op c (data m) x y
        (shape_at m axis) r = rd 0%float (data m) p
    ∧ ∀ q, lo ≤ q < hi →
        cmp op (rd 0%float (data m) q) (rd 0%float (data m) p) = false.
Proof.
  intros Hne Hc. unfold max_min_reduction, reduction_init.
  rewrite row_x, row_y, Hc.
  destruct (reduction_scan_spec oob_data op (data m) (seqZ lo (hi - lo))
              (rd oob_data (data m) lo)) as (Hin & _ & Hall).
  { rewrite row_data by lia. apply Hnan. lia. }
  { apply row_not_nan. }
  rewrite Forall_forall in Hall.
  assert (∃ p, lo ≤ p < hi
            ∧ reduction_scan oob_data op (data m) (seqZ lo (hi - lo))
                (rd oob_data (data m) lo) = rd oob_data (data m) p)
    as (p & Hp & Heq).
  { destruct Hin as [->|(e & He & ->)].
    - exists lo. split; [lia|done].
    - exists e. apply elem_of_seqZ in He. split; [lia|done]. }
  exists p. split; [done|]. rewrite Heq, row_data by done.
  split; [done|]. intros q Hq.
  specialize (Hall q). rewrite elem_of_seqZ, Heq in Hall.
  rewrite !row_data in Hall by done. apply Hall. lia.
Qed.

End RowReductions.

(** X6: the per-row max (min) of [_minor_reduce] on a row without NaN that
    has stored entries, in nonzero-only mode or when the row is fully
    stored.  The result for the row is one of its stored values, and no
    stored value of the row is greater (smaller) than it. *)
Theorem minor_reduce_extremum (oob_data : float) (oob_index : Z)
    (m : matrix) (u : ufunc) (axis : Z) (nonzero : bool) (r : Z) :
  wf_matrix m → shape_at m (1 - axis) = major_dim m →
  0 ≤ r < major_dim m →
  let lo := rd 0 (indptr m) r in
  let hi := rd 0 (indptr m) (r + 1) in
  (∀ p, lo ≤ p < hi → self_ne (rd 0%float (data m) p) = false) →
  lo < hi → nonzero = true ∨ hi - lo = shape_at m axis →
  ∃ z p,
    _minor_reduce oob_data oob_index m u axis nonzero !! Z.to_nat r = Some z
    ∧ lo ≤ p < hi ∧ z = rd 0%float (data m) p
    ∧ ∀ q, lo ≤ q < hi →
        cmp (ufunc_op u) (rd 0%float (data m) q) z = false.
Proof.
  intros Hwf Haxis Hr lo hi Hnan Hne Hmode.
  rewrite (minor_reduce_lookup oob_data oob_index m axis r Haxis Hr).
  destruct (reduce_row_from_data oob_data oob_index m axis r Hwf Hr Hnan
              (ufunc_op u) (if nonzero then cond_nonzero else cond_dense))
    as (p & Hp & Heq & Hmax); [done| |].
  { unfold eval_cond. fold lo hi.
    destruct nonzero; apply bool_decide_eq_true; [lia|].
    by destruct Hmode. }
  exists (rd 0%float (data m) p), p. rewrite Heq. done.
Qed.

Lemma minor_reduce_extremum_witness :
  let m := Matrix CSR (2, 5) [(-1)%float; (-3)%float; 4%float]
                  [1; 3; 0] [0; 2; 3] None None in
  ∃ z p, _minor_reduce 0%float 0 m amax 1 true !! 0%nat = Some z
    ∧ 0 ≤ p < 2 ∧ z = rd 0%float (data m) p
    ∧ ∀ q, 0 ≤ q < 2 → cmp op_gt (rd 0%float (data m) q) z = false.
Proof.
  intros m.
  apply (minor_reduce_extremum 0%float 0 m amax 1 true 0).
  - unfold wf_matrix. by_compute.
  - reflexivity.
  - by_compute.
  - intros p Hp. change (0 ≤ p < 2) in Hp.
    assert (p = 0 ∨ p = 1) as [->| ->] by lia; reflexivity.
  - reflexivity.
  - by left.
Defined.



Section ArgRowReductions.
Variable oob_data : float.
Variable oob_index : Z.
Variable m : matrix.
Variable axis : Z.
Variable r : Z.
Variable op : red_op.
Hypothesis Hwf : wf_matrix m.
Hypothesis Hr : 0 ≤ r < major_dim m.

Local Abbreviation lo := (rd 0 (indptr m) r).
Local Abbreviation hi := (rd 0 (indptr m) (r + 1)).
Local Abbreviation x := (take (length (indptr m) - 1) (indptr m)).
Local Abbreviation y := (drop 1 (indptr m)).
Local Abbreviation value := (λ p, rd 0%float (data m) p).

Hypothesis Hnan : ∀ p, lo ≤ p < hi → self_ne (value p) = false.

(** What the scan of the row makes of an initial pair [(i0, v0)]. *)
Lemma arg_scan_row (i0 : Z) (v0 : float) :
  self_ne v0 = false →
  let R := arg_scan oob_data oob_index op (data m) (indices m)
             (seqZ lo (hi - lo)) (i0, v0) in
  (fst R = i0 ∧ ∀ q, lo ≤ q < hi → cmp op (value q) v0 = false)
  ∨ (∃ p, lo ≤ p < hi ∧ fst R = rd 0 (indices m) p
       ∧ cmp op (value p) v0 = true
       ∧ (∀ q, lo ≤ q < hi → cmp op (value q) (value p) = false)
       ∧ (∀ q, lo ≤ q < p → cmp op (value p) (value q) = true)).
Proof.
  intros Hv0 R. subst R.
  pose proof (row_data oob_data m r Hwf Hr) as Hdata.
  pose proof (row_index oob_index m r Hwf Hr) as Hindex.
  destruct (arg_scan_spec oob_data oob_index op (data m) (indices m)
              (seqZ lo (hi - lo)) (i0, v0) Hv0)
    as [[-> Hall]|(k & e & Hk & -> & Hbeat & Hmax & Hfirst)].
  { by apply row_not_nan. }
  - left. split; [done|]. intros q Hq. rewrite Forall_forall in Hall.
    specialize (Hall q). rewrite elem_of_seqZ, Hdata in Hall by done.
    apply Hall. lia.
  - right. apply lookup_seqZ in Hk as [-> Hk]. exists (lo + Z.of_nat k).
    simpl in *. rewrite Hdata in * by lia.
    split; [lia|]. split; [apply Hindex; lia|]. split; [done|].
    rewrite Forall_forall in Hmax. split.
    + intros q Hq. specialize (Hmax q).
      rewrite elem_of_seqZ, Hdata in Hmax by done. apply Hmax. lia.
    + intros q Hq.
      specialize (Hfirst (Z.to_nat (q - lo)) q ltac:(lia)).
      rewrite Hdata in Hfirst by lia. apply Hfirst.
      apply lookup_seqZ. lia.
Qed.

End ArgRowReductions.

(** X8: the per-row argmax (argmin) of [_arg_minor_reduce] on a fully
    stored row without NaN.  The result for the row is the minor index of
    the first stored entry whose value no stored value of the row beats:
    every entry stored before it has a smaller (greater) value. *)
Theorem arg_minor_reduce_full_row (oob_data : float) (oob_index : Z)
    (m : matrix) (u : arg_ufunc) (axis : Z) (r : Z) :
  wf_matrix m → shape_at m (1 - axis) = major_dim m →
  0 ≤ r < major_dim m →
  let lo := rd 0 (indptr m) r in
  let hi := rd 0 (indptr m) (r + 1) in
  let value := λ p, rd 0%float (data m) p in
  (∀ p, lo ≤ p < hi → self_ne (value p) = false) →
  lo < hi → hi - lo = shape_at m axis →
  ∃ p,
    _arg_minor_reduce oob_data oob_index m u axis !! Z.to_nat r
      = Some (rd 0 (indices m) p)
    ∧ lo ≤ p < hi
    ∧ (∀ q, lo ≤ q < hi → cmp (arg_ufunc_op u) (value q) (value p) = false)
    ∧ (∀ q, lo ≤ q < p → cmp (arg_ufunc_op u) (value p) (value q) = true).
Proof.
  intros Hwf Haxis Hr lo hi value Hnan Hne Hfull.
  subst lo hi value. cbv beta in *.
  rewrite (arg_minor_reduce_lookup oob_data oob_index m axis r Haxis Hr).
  unfold arg_reduction, arg_init.
  rewrite (row_x oob_index m r Hwf Hr), (row_y oob_index m r Hwf Hr).
  rewrite decide_True by done.
  rewrite (row_data oob_data m r Hwf Hr) by lia.
  rewrite (row_index oob_index m r Hwf Hr) by lia.
  destruct (arg_scan_row oob_data oob_index m r (arg_ufunc_op u) Hwf Hr Hnan
              (rd 0 (indices m) (rd 0 (indptr m) r))
              (rd 0%float (data m) (rd 0 (indptr m) r)))
    as [[-> Hall]|(p & Hp & -> & _ & Hmax & Hfirst)].
  { apply Hnan. lia. }
  - exists (rd 0 (indptr m) r). split; [done|]. split; [lia|].
    split; [done|]. intros q Hq. lia.
  - exists p. done.
Qed.

Lemma arg_minor_reduce_full_row_witness :
  let m := Matrix CSR (1, 3) [2%float; 7%float; 7%float] [0; 1; 2] [0; 3]
                  None None in
  ∃ p, _arg_minor_reduce 0%float 0 m argmax 1 !! 0%nat
         = Some (rd 0 (indices m) p)
    ∧ 0 ≤ p < 3
    ∧ (∀ q, 0 ≤ q < 3 →
         cmp op_gt (rd 0%float (data m) q) (rd 0%float (data m) p) = false)
    ∧ (∀ q, 0 ≤ q < p →
         cmp op_gt (rd 0%float (data m) p) (rd 0%float (data m) q) = true).
Proof.
  intros m.
  apply (arg_minor_reduce_full_row 0%float 0 m argmax 1 0).
  - unfold wf_matrix. by_compute.
  - reflexivity.
  - by_compute.
  - intros p Hp. change (0 ≤ p < 3) in Hp.
    assert (p = 0 ∨ p = 1 ∨ p = 2) as [->|[->| ->]] by lia; reflexivity.
  - reflexivity.
  - reflexivity.
Defined.



(** ** Minor-axis fancy indexing: the matrix it returns *)

Lemma init_empty_wf (f : format) (a b : Z) :
  0 ≤ fst (_swap f a b) → wf_matrix (init_empty f a b).
Proof.
  intros HM.
  assert (major_dim (init_empty f a b) = fst (_swap f a b)) as HMd by done.
  unfold wf_matrix. rewrite HMd. unfold init_empty, nnz, size, zeros. simpl.
  rewrite length_replicate.
  split; [done|]. split; [lia|]. split; [apply rd_zeros_0|].
  split; [|split; [apply rd_zeros_0|split; [done|constructor]]].
  apply Forall_forall. intros d Hd. unfold diff in Hd.
  apply list_elem_of_lookup in Hd as [k Hk].
  apply lookup_zip_with_Some in Hk as (u & v & -> & Hu & Hv).
  rewrite lookup_drop in Hv.
  apply lookup_replicate in Hu as [-> _].
  apply lookup_replicate in Hv as [-> _]. done.
Qed.

Lemma sumZ_zero {A} (f : A → Z) (l : list A) :
  Forall (λ a, f a = 0) l → sumZ (f <$> l) = 0.
Proof.
  induction 1 as [|a l Ha _ IH]; [done|].
  rewrite fmap_cons, sumZ_cons, Ha, IH. done.
Qed.

Lemma fancy_nnz_empty (m : matrix) (idx : list Z) :
  wf_matrix m → nnz m = 0 ∨ size idx = 0 → fancy_nnz m idx = 0.
Proof.
  intros Hwf Hempty. unfold fancy_nnz. apply sumZ_zero, Forall_forall.
  intros r Hr. apply elem_of_seqZ in Hr.
  destruct Hempty as [Hnnz|Hn].
  - pose proof (length_row_entries m r Hwf ltac:(lia)) as Hlen.
    pose proof (wf_row_bounds m r Hwf ltac:(lia)).
    assert (row_entries m r = []) as ->
      by (apply length_zero_iff_nil; lia).
    done.
  - assert (idx = []) as ->
      by (apply length_zero_iff_nil; unfold size in Hn; lia).
    by rewrite mjoin_all_nil.
Qed.

(** What [_minor_index_fancy] returns: a well-formed matrix of the format
    of the source, with the minor dimension [len(idx)], that stores
    [fancy_nnz] entries, each major row holding the entries of the source
    row copied to every position of [idx] that names their minor index. *)
Lemma minor_index_fancy_result (sched : Z → list Z) (m : matrix)
    (idx : list Z) :
  wf_matrix m →
  Forall (λ c, 0 ≤ c < minor_dim m) idx →
  (∀ r, 0 ≤ r < major_dim m → sched r ≡ₚ in_order (indptr m) r) →
  size idx < 2 ^ 31 → fancy_nnz m idx < 2 ^ 31 →
  ∃ B, _minor_index_fancy sched m idx = Ok B ∧
       fmt B = fmt m ∧
       major_dim B = major_dim m ∧ minor_dim B = size idx ∧
       wf_matrix B ∧ nnz B = fancy_nnz m idx ∧
       _has_sorted_indices B = None ∧ _has_canonical_format B = None ∧
       ∀ r, 0 ≤ r < major_dim m →
            row_entries B r ≡ₚ mjoin (expand_entry idx <$> row_entries m r).
Proof.
  intros Hwf Hidx Hsched Hsize Hout. unfold _minor_index_fancy.
  assert (0 ≤ major_dim m) as HM by (by destruct Hwf).
  destruct (decide (nnz m = 0 ∨ size idx = 0)) as [Hempty|Hfull].
  - eexists. split; [done|].
    assert (major_dim (init_empty (fmt m)
              (fst (_swap (fmt m) (major_dim m) (size idx)))
              (snd (_swap (fmt m) (major_dim m) (size idx)))) = major_dim m)
      as HMd by (unfold major_dim; simpl; by rewrite swap_swap).
    split; [done|]. split; [done|].
    split; [unfold minor_dim; simpl; by rewrite swap_swap|].
    split; [apply init_empty_wf; by rewrite swap_swap|].
    split; [by rewrite fancy_nnz_empty|]. split; [done|]. split; [done|].
    intros r Hr. unfold row_entries at 1. simpl.
    unfold slice. rewrite !drop_nil, !take_nil. simpl.
    pose proof (fancy_nnz_empty m idx Hwf Hempty) as Hz.
    destruct Hempty as [Hnnz|Hn].
    + unfold row_entries, nnz, size in *.
      assert (data m = []) as -> by (apply length_zero_iff_nil; lia).
      unfold slice. rewrite drop_nil, take_nil, zip_with_nil_r. done.
    + assert (idx = []) as ->
        by (apply length_zero_iff_nil; unfold size in Hn; lia).
      by rewrite mjoin_all_nil.
  - cbv zeta.
    pose proof (Bp_final sched m idx Hwf Hidx Hsched Hsize Hout) as HBp.
    pose proof (fill_B_spec sched m idx Hwf Hidx Hsched Hsize Hout) as Hfill.
    pose proof (Bp_off sched m idx Hwf) as Hoff.
    pose proof (fancy_row_entries sched m idx Hwf Hsched) as Hrows.
    pose proof (length_rowx sched m idx) as Hlenx.
    pose proof (total_fancy_nnz sched m idx Hwf Hsched) as Htotal.
    cbv zeta in HBp. rewrite HBp, Hfill. unfold init_arrays.
    assert (∀ n : nat, (n ≤ Z.to_nat (major_dim m))%nat →
              length (mjoin (fill_row_x sched m idx <$> seqZ 0 (Z.of_nat n)))
              = length (mjoin (fill_row_j sched m idx
                                 <$> seqZ 0 (Z.of_nat n)))) as Hlen.
    { intros n Hn.
      apply length_mjoin_blocks with (M := Z.to_nat (major_dim m)); [|done].
      intros r' _. symmetry. apply Hlenx. }
    pose proof (Hlen (Z.to_nat (major_dim m)) ltac:(lia)) as HlenM.
    rewrite (major_dim_nat m Hwf) in HlenM.
    rewrite decide_False by lia.
    rewrite swap_swap. simpl fst.
    assert (size (fill_indptr sched m idx) = major_dim m + 1) as HszBp.
    { unfold size, fill_indptr.
      rewrite length_cons, length_cumsum, length_fmap, length_seqZ. lia. }
    rewrite decide_False by lia.
    eexists. split; [done|].
    split; [done|].
    split; [unfold major_dim; simpl; by rewrite swap_swap|].
    split; [unfold minor_dim; simpl; by rewrite swap_swap|].
    split; [|split; [|split; [done|split; [done|]]]].
    + unfold wf_matrix, nnz, major_dim, minor_dim. simpl.
      rewrite swap_swap. simpl. fold (major_dim m).
      split; [done|]. split; [done|]. split; [done|]. split.
      { unfold fill_indptr. rewrite diff_prefix.
        apply Forall_fmap, Forall_forall. intros r _. simpl. lia. }
      split.
      { rewrite <- (major_dim_nat m Hwf) at 1.
        rewrite Hoff by lia. rewrite (major_dim_nat m Hwf).
        unfold size. lia. }
      split; [done|].
      apply Forall_forall. intros k Hk.
      apply list_elem_of_join in Hk as (row & Hk & Hrow).
      apply list_elem_of_fmap in Hrow as (r & -> & _).
      unfold fill_row_j in Hk.
      apply list_elem_of_join in Hk as (blk & Hk & Hblk).
      apply list_elem_of_fmap in Hblk as (p & -> & _).
      unfold fill_block_j, positions in Hk.
      apply list_elem_of_filter in Hk as [_ Hk].
      apply elem_of_seqZ in Hk. lia.
    + unfold nnz, size. simpl. lia.
    + intros r Hr. rewrite <- (Hrows r Hr).
      unfold row_entries. simpl.
      rewrite <- (major_dim_nat m Hwf).
      rewrite (slice_rows (fill_row_j sched m idx) _
                 (Z.to_nat (major_dim m)) r Hoff) by lia.
      rewrite (slice_rows (fill_row_x sched m idx) _
                 (Z.to_nat (major_dim m)) r); [done| |lia].
      intros n Hn. rewrite Hoff by done. f_equal. symmetry. by apply Hlen.
Qed.

(** X10: minor-axis fancy indexing keeps the representation well formed.
    On a well-formed matrix and in-range indices (within the sizes an
    [int32] holds) [_minor_index_fancy] returns a well-formed matrix of the
    same format and major dimension, with the minor dimension [len(idx)]
    and no cached flag; it stores one entry for every pair of a stored
    entry of the source and a position of [idx] that names its minor
    index. *)
Theorem minor_index_fancy_wf (sched : Z → list Z) (m : matrix)
    (idx : list Z) :
  wf_matrix m →
  Forall (λ c, 0 ≤ c < minor_dim m) idx →
  (∀ r, 0 ≤ r < major_dim m → sched r ≡ₚ in_order (indptr m) r) →
  size idx < 2 ^ 31 → fancy_nnz m idx < 2 ^ 31 →
  ∃ B, _minor_index_fancy sched m idx = Ok B ∧
       wf_matrix B ∧ fmt B = fmt m ∧
       major_dim B = major_dim m ∧ minor_dim B = size idx ∧
       nnz B = fancy_nnz m idx ∧
       _has_sorted_indices B = None ∧ _has_canonical_format B = None.
Proof.
  intros Hwf Hidx Hsched Hsize Hout.
  destruct (minor_index_fancy_result sched m idx Hwf Hidx Hsched Hsize Hout)
    as (B & HB & Hfmt & HM & HN & HwfB & Hnnz & Hs & Hc & _).
  exists B. split; [exact HB|]. split; [exact HwfB|].
  split; [exact Hfmt|]. split; [exact HM|]. split; [exact HN|].
  split; [exact Hnnz|]. split; [exact Hs|exact Hc].
Qed.

Lemma minor_index_fancy_wf_witness :
  let m := Matrix CSR (2, 3) [5%float; 6%float; 7%float] [1; 2; 0] [0; 1; 3]
                  None None in
  ∃ B, _minor_index_fancy (in_order (indptr m)) m [1; 1; 2] = Ok B ∧
       wf_matrix B ∧ nnz B = 3.
Proof.
  intros m.
  destruct (minor_index_fancy_wf (in_order (indptr m)) m [1; 1; 2])
    as (B & HB & HwfB & _ & _ & _ & Hnnz & _).
  - unfold wf_matrix. by_compute.
  - by_compute.
  - done.
  - by vm_compute.
  - by vm_compute.
  - exists B. split; [exact HB|]. split; [exact HwfB|]. exact Hnnz.
Defined.

(** ** Indexing twice *)

Lemma filter_or_disjoint {A} (P Q : A → Prop) `{!∀ x, Decision (P x)}
    `{!∀ x, Decision (Q x)} (l : list A) :
  (∀ x, P x → Q x → False) →
  filter (λ x, P x ∨ Q x) l ≡ₚ filter P l ++ filter Q l.
Proof.
  intros Hdis. induction l as [|x l IH]; [done|]. rewrite !filter_cons.
  destruct (decide (P x)) as [HP|HP], (decide (Q x)) as [HQ|HQ].
  - destruct (Hdis x HP HQ).
  - rewrite decide_True by auto. simpl. by rewrite IH.
  - rewrite decide_True by auto. rewrite IH. apply Permutation_middle.
  - rewrite decide_False by tauto. done.
Qed.

Lemma mjoin_filter_keys {A} (f : A → Z) (ks : list Z) (L : list A) :
  NoDup ks →
  mjoin ((λ k, filter (λ t, f t = k) L) <$> ks)
  ≡ₚ filter (λ t, f t ∈ ks) L.
Proof.
  induction 1 as [|k ks Hk _ IH].
  - simpl. rewrite filter_nil_Forall; [done|].
    apply Forall_forall. intros t _ Ht. by apply elem_of_nil in Ht.
  - rewrite fmap_cons. simpl. rewrite IH.
    rewrite <- (filter_or_disjoint (λ t, f t = k) (λ t, f t ∈ ks))
      by (intros t -> Ht; done).
    apply reflexive_eq, filter_ext_in. intros t _.
    rewrite elem_of_cons. done.
Qed.

Lemma positions_NoDup (idx : list Z) (c : Z) : NoDup (positions idx c).
Proof. unfold positions. apply NoDup_filter, NoDup_seqZ. Qed.

Lemma positions_elem (idx : list Z) (c k : Z) :
  k ∈ positions idx c ↔ 0 ≤ k < size idx ∧ rd 0 idx k = c.
Proof.
  unfold positions. rewrite list_elem_of_filter, elem_of_seqZ. lia.
Qed.

Lemma rd_gather (idx1 idx2 : list Z) (t : Z) :
  0 ≤ t < size idx2 →
  rd 0 (gather 0 idx1 idx2) t = rd 0 idx1 (rd 0 idx2 t).
Proof.
  intros Ht. unfold size in Ht.
  destruct (lookup_lt_is_Some_2 idx2 (Z.to_nat t)) as [v Hv]; [lia|].
  rewrite (rd_lookup 0 idx2 t v) by (lia || done).
  apply rd_lookup; [lia|]. unfold gather. by rewrite list_lookup_fmap, Hv.
Qed.

(** The positions of [idx1[idx2]] that hold [c] are the positions of
    [idx2] that hold a position of [idx1] that holds [c]. *)
Lemma positions_compose (idx1 idx2 : list Z) (c : Z) :
  Forall (λ k, 0 ≤ k < size idx1) idx2 →
  mjoin (positions idx2 <$> positions idx1 c)
  ≡ₚ positions (gather 0 idx1 idx2) c.
Proof.
  intros Hrange.
  rewrite (mjoin_filter_keys (rd 0 idx2) (positions idx1 c)
             (seqZ 0 (size idx2))) by apply positions_NoDup.
  change (positions (gather 0 idx1 idx2) c)
    with (filter (λ k, rd 0 (gather 0 idx1 idx2) k = c)
            (seqZ 0 (size (gather 0 idx1 idx2)))).
  assert (size (gather 0 idx1 idx2) = size idx2) as ->
    by (unfold gather, size; by rewrite length_fmap).
  apply reflexive_eq, filter_ext_in. intros t Ht.
  apply elem_of_seqZ in Ht. rewrite positions_elem, rd_gather by lia.
  pose proof (Forall_rd_range idx2 (size idx1) t Hrange ltac:(lia)).
  tauto.
Qed.

Lemma expand_entry_compose (idx1 idx2 : list Z) (cv : Z * float) :
  Forall (λ k, 0 ≤ k < size idx1) idx2 →
  mjoin (expand_entry idx2 <$> expand_entry idx1 cv)
  ≡ₚ expand_entry (gather 0 idx1 idx2) cv.
Proof.
  intros Hrange. unfold expand_entry at 2 3.
  rewrite <- (positions_compose idx1 idx2) by done.
  rewrite <- list_fmap_compose.
  rewrite <- (mjoin_fmap_fmap (λ t, (t, snd cv)) (positions idx2)).
  done.
Qed.

Lemma mjoin_fmap_Permutation {A B} (f g : A → list B) (l : list A) :
  (∀ a, f a ≡ₚ g a) → mjoin (f <$> l) ≡ₚ mjoin (g <$> l).
Proof.
  intros Hfg. induction l as [|a l IH]; [done|].
  rewrite !fmap_cons. simpl. by rewrite Hfg, IH.
Qed.

Lemma mjoin_mjoin_fmap {A B C} (f : A → list B) (g : B → list C)
    (l : list A) :
  mjoin (g <$> mjoin (f <$> l)) = mjoin ((λ a, mjoin (g <$> f a)) <$> l).
Proof.
  induction l as [|a l IH]; [done|].
  rewrite !fmap_cons. simpl. by rewrite fmap_app, join_app, IH.
Qed.

Lemma expand_rows_compose (idx1 idx2 : list Z) (row : list (Z * float)) :
  Forall (λ k, 0 ≤ k < size idx1) idx2 →
  mjoin (expand_entry idx2 <$> mjoin (expand_entry idx1 <$> row))
  ≡ₚ mjoin (expand_entry (gather 0 idx1 idx2) <$> row).
Proof.
  intros Hrange. rewrite mjoin_mjoin_fmap.
  apply mjoin_fmap_Permutation. intros cv.
  by apply expand_entry_compose.
Qed.

(** X11: indexing the minor axis twice is indexing it once with the
    composed index array.  After [B = A[:, idx1]], every major row of
    [B[:, idx2]] holds, up to the order in storage, the entries of the row
    of [A] copied as minor-axis indexing by [idx1[idx2]] copies them. *)
Theorem minor_index_fancy_twice (sched1 : Z → list Z) (m : matrix)
    (idx1 idx2 : list Z) :
  wf_matrix m →
  Forall (λ c, 0 ≤ c < minor_dim m) idx1 →
  Forall (λ k, 0 ≤ k < size idx1) idx2 →
  (∀ r, 0 ≤ r < major_dim m → sched1 r ≡ₚ in_order (indptr m) r) →
  size idx1 < 2 ^ 31 → fancy_nnz m idx1 < 2 ^ 31 →
  size idx2 < 2 ^ 31 → fancy_nnz m (gather 0 idx1 idx2) < 2 ^ 31 →
  ∃ B, _minor_index_fancy sched1 m idx1 = Ok B ∧
    ∀ sched2,
      (∀ r, 0 ≤ r < major_dim m → sched2 r ≡ₚ in_order (indptr B) r) →
      ∃ C, _minor_index_fancy sched2 B idx2 = Ok C ∧
           minor_dim C = size idx2 ∧
           ∀ r, 0 ≤ r < major_dim m →
                row_entries C r
                ≡ₚ mjoin (expand_entry (gather 0 idx1 idx2)
                            <$> row_entries m r).
Proof.
  intros Hwf Hidx1 Hidx2 Hsched1 Hn1 Hout1 Hn2 Hout2.
  destruct (minor_index_fancy_result sched1 m idx1 Hwf Hidx1 Hsched1 Hn1 Hout1)
    as (B & HB & _ & HM & HN & HwfB & _ & _ & _ & HrowsB).
  exists B. split; [done|]. intros sched2 Hsched2.
  assert (fancy_nnz B idx2 = fancy_nnz m (gather 0 idx1 idx2)) as Hnnz.
  { unfold fancy_nnz. rewrite HM. f_equal.
    apply list_fmap_ext. intros k r Hk. apply lookup_seqZ in Hk as [-> Hk].
    f_equal. rewrite (HrowsB (0 + Z.of_nat k)) by lia.
    by rewrite expand_rows_compose. }
  destruct (minor_index_fancy_result sched2 B idx2 HwfB)
    as (C & HC & _ & _ & HNC & _ & _ & _ & _ & HrowsC).
  { by rewrite HN. }
  { by rewrite HM. }
  { done. }
  { by rewrite Hnnz. }
  exists C. split; [done|]. split; [done|]. intros r Hr.
  rewrite HrowsC by (by rewrite HM). rewrite (HrowsB r Hr).
  by apply expand_rows_compose.
Qed.

Lemma minor_index_fancy_twice_witness :
  let m := Matrix CSR (2, 3) [5%float; 6%float; 7%float] [1; 2; 0] [0; 1; 3]
                  None None in
  ∃ B, _minor_index_fancy (in_order (indptr m)) m [1; 1; 2] = Ok B ∧
    ∃ C, _minor_index_fancy (in_order (indptr B)) B [2; 0] = Ok C ∧
         ∀ r, 0 ≤ r < major_dim m →
              row_entries C r
              ≡ₚ mjoin (expand_entry [2; 1] <$> row_entries m r).
Proof.
  intros m.
  destruct (minor_index_fancy_twice (in_order (indptr m)) m [1; 1; 2] [2; 0])
    as (B & HB & HC).
  - unfold wf_matrix. by_compute.
  - by_compute.
  - by_compute.
  - done.
  - by vm_compute.
  - by vm_compute.
  - by vm_compute.
  - by vm_compute.
  - exists B. split; [exact HB|].
    destruct (HC (in_order (indptr B))) as (C & HC' & _ & Hrows); [done|].
    exists C. split; [exact HC'|exact Hrows].
Defined.

(** ** Slices of the minor axis *)

(** After [slice.indices(length)] the step is not zero and both bounds are
    within [0, length] for a positive step, within [-1, length - 1] for a
    negative one. *)
Lemma slice_indices_bounds (idx : pyslice) (length start stop step : Z) :
  0 ≤ length → slice_indices idx length = Ok (start, stop, step) →
  step ≠ 0 ∧
  (0 < step → 0 ≤ start ≤ length ∧ 0 ≤ stop ≤ length) ∧
  (step < 0 → -1 ≤ start ≤ length - 1 ∧ -1 ≤ stop ≤ length - 1).
Proof.
  intros Hlen. unfold slice_indices.
  destruct (decide (default 1 (sl_step idx) = 0)) as [|Hs]; [done|].
  intros Heq. inversion Heq; subst; clear Heq.
  split; [done|]. unfold clamp_bound.
  destruct (sl_start idx), (sl_stop idx);
    repeat destruct (decide _); lia.
Qed.

Lemma arange_size (start stop step : Z) :
  step ≠ 0 → Z.max 0 (- ((start - stop) / step)) = range_len start stop step.
Proof.
  intros Hs. unfold range_len.
  destruct (decide (0 < step ∧ start < stop)) as [[H1 H2]|H].
  - Z.to_euclidean_division_equations. nia.
  - destruct (decide (step < 0 ∧ stop < start)) as [[H1 H2]|H'].
    + Z.to_euclidean_division_equations. nia.
    + Z.to_euclidean_division_equations. nia.
Qed.

Lemma range_elem (start stop step i : Z) :
  0 ≤ i < range_len start stop step →
  (0 < step → start ≤ start + i * step < stop) ∧
  (step < 0 → stop < start + i * step ≤ start).
Proof.
  unfold range_len.
  destruct (decide (0 < step ∧ start < stop)) as [[H1 H2]|H].
  - intros Hi. split; [|lia]. intros _.
    Z.to_euclidean_division_equations. nia.
  - destruct (decide (step < 0 ∧ stop < start)) as [[H1 H2]|H'].
    + intros Hi. split; [lia|]. intros _.
      Z.to_euclidean_division_equations. nia.
    + lia.
Qed.

Lemma range_len_nonneg (start stop step : Z) :
  step ≠ 0 → 0 ≤ range_len start stop step.
Proof. intros Hs. rewrite <- arange_size by done. lia. Qed.

Lemma size_arange (start stop step : Z) :
  step ≠ 0 → size (arange start stop step) = range_len start stop step.
Proof.
  intros Hs. unfold arange, size. rewrite length_fmap, length_seqZ.
  rewrite <- arange_size by done. lia.
Qed.

Lemma arange_range_len (start stop step : Z) :
  step ≠ 0 →
  arange start stop step
  = (λ i, start + i * step) <$> seqZ 0 (range_len start stop step).
Proof.
  intros Hs. unfold arange. rewrite <- arange_size by done.
  destruct (decide (0 ≤ - ((start - stop) / step))).
  - by rewrite Z.max_r by done.
  - rewrite Z.max_l by lia. by rewrite (seqZ_nil 0 (- _)) by lia.
Qed.

Lemma rd_arange (start stop step k : Z) :
  step ≠ 0 → 0 ≤ k < range_len start stop step →
  rd 0 (arange start stop step) k = start + k * step.
Proof.
  intros Hs Hk. rewrite arange_range_len by done.
  apply rd_lookup; [lia|]. rewrite list_lookup_fmap.
  rewrite (lookup_seqZ_lt 0 _ (Z.to_nat k)) by lia. simpl.
  do 2 f_equal. lia.
Qed.

(** The values of a slice of [0 .. length - 1] are distinct positions
    below [length]. *)
Lemma arange_in_range (idx : pyslice) (length start stop step : Z) :
  0 ≤ length → slice_indices idx length = Ok (start, stop, step) →
  Forall (λ c, 0 ≤ c < length) (arange start stop step).
Proof.
  intros Hlen Hidx.
  destruct (slice_indices_bounds idx length start stop step Hlen Hidx)
    as (Hs & Hpos & Hneg).
  rewrite arange_range_len by done.
  apply Forall_fmap, Forall_forall. intros i Hi. simpl.
  apply elem_of_seqZ in Hi.
  destruct (range_elem start stop step i ltac:(lia)) as [Hp Hn]. lia.
Qed.

Lemma arange_NoDup (start stop step : Z) :
  step ≠ 0 → NoDup (arange start stop step).
Proof.
  intros Hs. unfold arange.
  assert (Inj eq eq (λ i, start + i * step)) as Hinj
    by (intros i j Hij; nia).
  apply NoDup_fmap_2; [done|apply NoDup_seqZ].
Qed.

Lemma size_distinct_positions (l : list Z) (N : Z) :
  0 ≤ N → NoDup l → Forall (λ c, 0 ≤ c < N) l → size l ≤ N.
Proof.
  intros HN Hnd Hall.
  assert (l ⊆+ seqZ 0 N) as Hsub.
  { apply NoDup_submseteq; [done|]. intros c Hc.
    rewrite Forall_forall in Hall. apply elem_of_seqZ.
    specialize (Hall c Hc). lia. }
  apply submseteq_length in Hsub. rewrite length_seqZ in Hsub.
  unfold size. lia.
Qed.

Lemma filter_seqZ_unique (P : Z → Prop) `{!∀ k, Decision (P k)} (n k0 : Z) :
  0 ≤ k0 < n → P k0 → (∀ k, 0 ≤ k < n → P k → k = k0) →
  filter P (seqZ 0 n) = [k0].
Proof.
  intros Hk0 HP Huniq.
  replace n with (k0 + (1 + (n - k0 - 1))) by lia.
  rewrite seqZ_app, (seqZ_app (0 + k0) 1) by lia.
  rewrite !filter_app.
  rewrite (filter_nil_Forall P (seqZ 0 k0)).
  2:{ apply Forall_forall. intros k Hk Hpk. apply elem_of_seqZ in Hk.
      specialize (Huniq k ltac:(lia) Hpk). lia. }
  rewrite (filter_nil_Forall P (seqZ (0 + k0 + 1) _)).
  2:{ apply Forall_forall. intros k Hk Hpk. apply elem_of_seqZ in Hk.
      specialize (Huniq k ltac:(lia) Hpk). lia. }
  rewrite Z.add_0_l. change (seqZ k0 1) with [k0].
  by rewrite filter_cons, decide_True by done.
Qed.

(** Where a minor index sits in a slice. *)
Lemma positions_arange (start stop step c : Z) :
  step ≠ 0 →
  positions (arange start stop step) c
  = option_list (slice_pos start step (range_len start stop step) c).
Proof.
  intros Hs. unfold positions. rewrite size_arange by done.
  set (n := range_len start stop step). unfold slice_pos.
  destruct (decide (0 ≤ (c - start) / step < n
                    ∧ start + (c - start) / step * step = c))
    as [[Hk Hc]|Hnone]; simpl.
  - apply filter_seqZ_unique; [done|by rewrite rd_arange|].
    intros k Hkn Hpk. rewrite rd_arange in Hpk by done. nia.
  - apply filter_nil_Forall, Forall_forall. intros k Hk Hpk.
    apply elem_of_seqZ in Hk. rewrite rd_arange in Hpk by (done || lia).
    apply Hnone.
    assert ((c - start) / step = k) as ->.
    { rewrite <- Hpk. replace (start + k * step - start) with (k * step)
        by lia. by apply Z.div_mul. }
    lia.
Qed.

Lemma expand_entry_arange (start stop step : Z) (cv : Z * float) :
  step ≠ 0 →
  expand_entry (arange start stop step) cv
  = slice_entry start step (range_len start stop step) cv.
Proof.
  intros Hs. unfold expand_entry, slice_entry.
  by rewrite positions_arange.
Qed.

Lemma length_slice_entry (start step n : Z) (cv : Z * float) :
  (length (slice_entry start step n cv) ≤ 1)%nat.
Proof.
  unfold slice_entry. rewrite length_fmap.
  destruct (slice_pos start step n (fst cv)); simpl; lia.
Qed.

Lemma length_mjoin_le {A B} (f : A → list B) (l : list A) :
  (∀ a, length (f a) ≤ 1)%nat → (length (mjoin (f <$> l)) ≤ length l)%nat.
Proof.
  intros Hf. induction l as [|a l IH]; [done|].
  rewrite fmap_cons. simpl. rewrite length_app.
  specialize (Hf a). lia.
Qed.

Lemma sumZ_fmap_le {A} (f g : A → Z) (l : list A) :
  (∀ a, f a ≤ g a) → sumZ (f <$> l) ≤ sumZ (g <$> l).
Proof.
  intros Hfg. induction l as [|a l IH]; [done|].
  rewrite !fmap_cons, !sumZ_cons. specialize (Hfg a). lia.
Qed.

(** A slice puts out at most as many entries as are stored. *)
Lemma fancy_nnz_arange (m : matrix) (start stop step : Z) :
  wf_matrix m → step ≠ 0 →
  fancy_nnz m (arange start stop step) ≤ nnz m.
Proof.
  intros Hwf Hs. rewrite <- (sum_row_lengths m Hwf). unfold fancy_nnz.
  apply sumZ_fmap_le. intros r.
  pose proof (length_mjoin_le (expand_entry (arange start stop step))
                (row_entries m r)) as Hle.
  apply inj_le, Hle. intros cv. rewrite expand_entry_arange by done.
  apply length_slice_entry.
Qed.

Section SlicingFacts.
Variable copy_of : matrix → matrix.
Variable submatrix_major submatrix_minor :
  list float → list Z → list Z → Z → Z → list float * list Z * list Z.
Variable row_index :
  list float → list Z → list Z → list Z → list float * list Z * list Z.
Variable sched : matrix → Z → list Z.

Local Abbreviation minor_slice :=
  (_minor_slice copy_of submatrix_minor sched).
Local Abbreviation major_slice :=
  (_major_slice copy_of submatrix_major row_index).
Local Abbreviation get_sliceXslice :=
  (_get_sliceXslice copy_of submatrix_major submatrix_minor row_index sched).

(** A slice with a step other than 1 is fancy indexing by its values. *)
Lemma minor_slice_stepped (m : matrix) (idx : pyslice) (copy : bool)
    (start stop step : Z) :
  slice_indices idx (minor_dim m) = Ok (start, stop, step) → step ≠ 1 →
  0 ≤ minor_dim m →
  minor_slice m idx copy
  = _minor_index_fancy (sched m) m (arange start stop step).
Proof.
  intros Hidx Hstep HN. unfold _minor_slice. rewrite Hidx.
  destruct (slice_indices_bounds idx _ _ _ _ HN Hidx) as (Hs & _).
  rewrite decide_False by lia. cbv zeta.
  unfold _minor_index_fancy. rewrite size_arange by done.
  destruct (decide (range_len start stop step = 0 ∨ nnz m = 0)) as [He|Hne].
  - by rewrite decide_True by tauto.
  - rewrite decide_False by done. rewrite decide_False by tauto. done.
Qed.

(** The full slice of the major axis returns the object itself. *)
Lemma major_slice_full (m : matrix) :
  0 ≤ major_dim m → major_slice m (PySlice None None None) false = Ok m.
Proof.
  intros HM. unfold _major_slice, slice_indices. simpl.
  by rewrite decide_True.
Qed.
End SlicingFacts.

Lemma swap_involutive {A} (f : format) (x y : A) :
  _swap f (fst (_swap f x y)) (snd (_swap f x y)) = (x, y).
Proof. by destruct f. Qed.

Lemma mjoin_singletons {A B} (f : A → list B) (g : A → B) (l : list A) :
  Forall (λ a, f a = [g a]) l → mjoin (f <$> l) = g <$> l.
Proof.
  induction 1 as [|a l Ha _ IH]; [done|].
  rewrite !fmap_cons. simpl. by rewrite Ha, IH.
Qed.

Lemma row_entries_range (m : matrix) (r : Z) :
  wf_matrix m → 0 ≤ r < major_dim m →
  Forall (λ cv, 0 ≤ fst cv < minor_dim m) (row_entries m r).
Proof.
  intros Hwf Hr. rewrite row_entries_in_order by done.
  apply Forall_fmap, Forall_forall. intros p Hp. simpl.
  unfold in_order in Hp. apply elem_of_seqZ in Hp.
  pose proof (wf_row_bounds m r Hwf Hr).
  destruct Hwf as (_ & _ & _ & _ & _ & Hlen & Hind).
  apply Forall_rd_range; [done|]. unfold nnz, size in *. lia.
Qed.

Section SliceResults.
Variable copy_of : matrix → matrix.
Variable submatrix_major submatrix_minor :
  list float → list Z → list Z → Z → Z → list float * list Z * list Z.
Variable row_index :
  list float → list Z → list Z → list Z → list float * list Z * list Z.
Variable sched : matrix → Z → list Z.

Local Abbreviation minor_slice :=
  (_minor_slice copy_of submatrix_minor sched).
Local Abbreviation get_sliceXslice :=
  (_get_sliceXslice copy_of submatrix_major submatrix_minor row_index sched).

(** What a slice of the minor axis with a step other than 1 returns. *)
Lemma minor_slice_stepped_result (m : matrix) (idx : pyslice) (copy : bool)
    (start stop step : Z) :
  wf_matrix m → 0 ≤ minor_dim m < 2 ^ 31 → nnz m < 2 ^ 31 →
  (∀ r, 0 ≤ r < major_dim m → sched m r ≡ₚ in_order (indptr m) r) →
  slice_indices idx (minor_dim m) = Ok (start, stop, step) → step ≠ 1 →
  ∃ B, minor_slice m idx copy = Ok B ∧
       wf_matrix B ∧ fmt B = fmt m ∧ major_dim B = major_dim m ∧
       minor_dim B = range_len start stop step ∧ nnz B ≤ nnz m ∧
       ∀ r, 0 ≤ r < major_dim m →
            row_entries B r
            ≡ₚ mjoin (slice_entry start step (range_len start stop step)
                        <$> row_entries m r).
Proof.
  intros Hwf HN Hnnz Hsched Hidx Hstep.
  destruct (slice_indices_bounds idx _ _ _ _ (proj1 HN) Hidx) as (Hs & _).
  rewrite (minor_slice_stepped copy_of submatrix_minor sched m idx copy
             start stop step Hidx Hstep (proj1 HN)).
  pose proof (arange_in_range idx _ _ _ _ (proj1 HN) Hidx) as Hrange.
  pose proof (fancy_nnz_arange m start stop step Hwf Hs) as Hout.
  pose proof (size_distinct_positions _ _ (proj1 HN)
                (arange_NoDup start stop step Hs) Hrange) as Hsize.
  destruct (minor_index_fancy_result (sched m) m (arange start stop step)
              Hwf Hrange Hsched)
    as (B & HB & Hfmt & HM & HNB & HwfB & HnnzB & _ & _ & Hrows);
    [lia|lia|].
  exists B. split; [done|]. split; [done|]. split; [done|].
  split; [done|]. split; [by rewrite HNB, size_arange|].
  split; [lia|]. intros r Hr. rewrite (Hrows r Hr).
  apply reflexive_eq. f_equal. apply list_fmap_ext. intros k cv _.
  by apply expand_entry_arange.
Qed.

(** The slice [::-1] mirrors every row. *)
Lemma reverse_slice_result (m : matrix) :
  wf_matrix m → 0 ≤ minor_dim m < 2 ^ 31 → nnz m < 2 ^ 31 →
  (∀ r, 0 ≤ r < major_dim m → sched m r ≡ₚ in_order (indptr m) r) →
  ∃ B, get_sliceXslice m
         (fst (_swap (fmt m) (PySlice None None None)
                 (PySlice None None (Some (-1)))))
         (snd (_swap (fmt m) (PySlice None None None)
                 (PySlice None None (Some (-1))))) = Ok B ∧
       wf_matrix B ∧ fmt B = fmt m ∧ major_dim B = major_dim m ∧
       minor_dim B = minor_dim m ∧ nnz B ≤ nnz m ∧
       ∀ r, 0 ≤ r < major_dim m →
            row_entries B r
            ≡ₚ (λ cv, (minor_dim m - 1 - fst cv, snd cv))
                 <$> row_entries m r.
Proof.
  intros Hwf HN Hnnz Hsched. unfold _get_sliceXslice.
  rewrite swap_involutive.
  rewrite (major_slice_full copy_of submatrix_major row_index m)
    by (by destruct Hwf).
  assert (slice_indices (PySlice None None (Some (-1))) (minor_dim m)
          = Ok (minor_dim m - 1, -1, -1)) as Hidx by done.
  destruct (minor_slice_stepped_result m (PySlice None None (Some (-1)))
              (bool_decide (sl_step (PySlice None None None) = Some 1
                            ∨ sl_step (PySlice None None None) = None))
              _ _ _ Hwf HN Hnnz Hsched Hidx)
    as (B & HB & HwfB & Hfmt & HM & HNB & HnnzB & Hrows); [done|].
  assert (range_len (minor_dim m - 1) (-1) (-1) = minor_dim m) as Hlen.
  { unfold range_len. rewrite decide_False by lia.
    destruct (decide (-1 < 0 ∧ -1 < minor_dim m - 1)).
    - change (- -1) with 1. rewrite Z.div_1_r. lia.
    - lia. }
  rewrite Hlen in *.
  exists B. split; [done|]. split; [done|]. split; [done|].
  split; [done|]. split; [done|]. split; [done|].
  intros r Hr. rewrite (Hrows r Hr). apply reflexive_eq.
  apply mjoin_singletons.
  eapply Forall_impl; [apply (row_entries_range m r Hwf Hr)|].
  intros [c v] Hc. simpl in Hc. unfold slice_entry, slice_pos. simpl.
  assert ((c - (minor_dim m - 1)) / -1 = minor_dim m - 1 - c) as ->.
  { replace (c - (minor_dim m - 1)) with ((minor_dim m - 1 - c) * -1)
      by lia. by apply Z.div_mul. }
  rewrite decide_True by lia. done.
Qed.
End SliceResults.

(** X12: a slice of the minor axis with a step other than 1 (a stride, or
    a reversal), on a well-formed matrix within the sizes an [int32] holds.
    With [(start, stop, step)] the slice normalised by [slice.indices] and
    [n] the number of positions it selects, the result is a well-formed
    matrix of the same format and major dimension with the minor dimension
    [n]; every major row keeps exactly the entries whose minor index is
    [start + k * step] for some [0 <= k < n], moved to position [k]. *)
Theorem minor_slice_with_step
    (copy_of : matrix → matrix)
    (submatrix_minor :
       list float → list Z → list Z → Z → Z → list float * list Z * list Z)
    (sched : matrix → Z → list Z)
    (m : matrix) (idx : pyslice) (copy : bool) (start stop step : Z) :
  wf_matrix m → 0 ≤ minor_dim m < 2 ^ 31 → nnz m < 2 ^ 31 →
  (∀ r, 0 ≤ r < major_dim m → sched m r ≡ₚ in_order (indptr m) r) →
  slice_indices idx (minor_dim m) = Ok (start, stop, step) → step ≠ 1 →
  let n := range_len start stop step in
  ∃ B, _minor_slice copy_of submatrix_minor sched m idx copy = Ok B ∧
       wf_matrix B ∧ fmt B = fmt m ∧
       major_dim B = major_dim m ∧ minor_dim B = n ∧
       ∀ r, 0 ≤ r < major_dim m →
            row_entries B r
            ≡ₚ mjoin (slice_entry start step n <$> row_entries m r).
Proof.
  intros Hwf HN Hnnz Hsched Hidx Hstep n. subst n.
  destruct (minor_slice_stepped_result copy_of submatrix_minor sched m idx
              copy start stop step Hwf HN Hnnz Hsched Hidx Hstep)
    as (B & HB & HwfB & Hfmt & HM & HNB & _ & Hrows).
  exists B. split; [exact HB|]. split; [exact HwfB|].
  split; [exact Hfmt|]. split; [exact HM|]. split; [exact HNB|exact Hrows].
Qed.

Lemma minor_slice_with_step_witness :
  let m := Matrix CSR (2, 5) [5%float; 6%float; 7%float; 8%float]
                  [0; 3; 1; 4] [0; 2; 4] None None in
  let sched := λ m' : matrix, in_order (indptr m') in
  ∃ B, _minor_slice id (λ _ _ _ _ _, ([], [], [])) sched m
         (PySlice (Some 4) None (Some (-3))) false = Ok B ∧
       minor_dim B = 2 ∧
       row_entries B 0 ≡ₚ mjoin (slice_entry 4 (-3) 2 <$> row_entries m 0) ∧
       mjoin (slice_entry 4 (-3) 2 <$> row_entries m 1)
         = [(1, 7%float); (0, 8%float)].
Proof.
  intros m sched.
  destruct (minor_slice_with_step id (λ _ _ _ _ _, ([], [], [])) sched m
              (PySlice (Some 4) None (Some (-3))) false 4 (-1) (-3))
    as (B & HB & _ & _ & _ & HN & Hrows).
  - unfold wf_matrix. by_compute.
  - by_compute.
  - by vm_compute.
  - done.
  - reflexivity.
  - intros H. discriminate H.
  - exists B. split; [exact HB|]. split; [exact HN|].
    split; [|reflexivity]. apply (Hrows 0). by_compute.
Defined.

(** X13: reversing the minor axis, [A[:, ::-1]] for a row-major matrix
    ([A[::-1, :]] for a column-major one), through [_get_sliceXslice] on a
    well-formed matrix within the sizes an [int32] holds.  The result is a
    well-formed matrix of the same dimensions in which every entry of minor
    index [c] sits at minor index [N - 1 - c] of its major row; reversing
    the result again gives back the entries of every row. *)
Theorem reverse_minor_axis
    (copy_of : matrix → matrix)
    (submatrix_major submatrix_minor :
       list float → list Z → list Z → Z → Z → list float * list Z * list Z)
    (row_index :
       list float → list Z → list Z → list Z → list float * list Z * list Z)
    (sched : matrix → Z → list Z) (m : matrix) :
  wf_matrix m → 0 ≤ minor_dim m < 2 ^ 31 → nnz m < 2 ^ 31 →
  (∀ m' r, sched m' r ≡ₚ in_order (indptr m') r) →
  let full := PySlice None None None in
  let rev := PySlice None None (Some (-1)) in
  let row := fst (_swap (fmt m) full rev) in
  let col := snd (_swap (fmt m) full rev) in
  let get := _get_sliceXslice copy_of submatrix_major submatrix_minor
               row_index sched in
  ∃ B, get m row col = Ok B ∧
       wf_matrix B ∧
       major_dim B = major_dim m ∧ minor_dim B = minor_dim m ∧
       (∀ r, 0 ≤ r < major_dim m →
             row_entries B r
             ≡ₚ (λ cv, (minor_dim m - 1 - fst cv, snd cv))
                  <$> row_entries m r) ∧
       ∃ B', get B row col = Ok B' ∧
             ∀ r, 0 ≤ r < major_dim m → row_entries B' r ≡ₚ row_entries m r.
Proof.
  intros Hwf HN Hnnz Hsched full rev row col get.
  subst full rev row col get.
  destruct (reverse_slice_result copy_of submatrix_major submatrix_minor
              row_index sched m Hwf HN Hnnz)
    as (B & HB & HwfB & Hfmt & HM & HNB & HnnzB & Hrows);
    [intros; apply Hsched|].
  exists B. split; [exact HB|]. split; [exact HwfB|].
  split; [exact HM|]. split; [exact HNB|]. split; [exact Hrows|].
  destruct (reverse_slice_result copy_of submatrix_major submatrix_minor
              row_index sched B HwfB)
    as (B' & HB' & _ & _ & _ & _ & _ & Hrows');
    [lia|lia|intros; apply Hsched|].
  rewrite Hfmt in HB'. exists B'. split; [exact HB'|].
  intros r Hr. rewrite Hrows' by lia. rewrite (Hrows r Hr).
  rewrite <- list_fmap_compose. rewrite HNB.
  apply reflexive_eq. rewrite <- (list_fmap_id (row_entries m r)) at 2.
  apply list_fmap_ext. intros k [c v] _. simpl. f_equal. lia.
Qed.

Lemma reverse_minor_axis_witness :
  let m := Matrix CSC (5, 2) [5%float; 6%float; 7%float; 8%float]
                  [0; 3; 1; 4] [0; 2; 4] None None in
  let get := _get_sliceXslice id (λ _ _ _ _ _, ([], [], []))
               (λ _ _ _ _ _, ([], [], [])) (λ _ _ _ _, ([], [], []))
               (λ m' : matrix, in_order (indptr m')) in
  ∃ B, get m (PySlice None None (Some (-1))) (PySlice None None None) = Ok B ∧
       row_entries B 0 ≡ₚ [(4, 5%float); (1, 6%float)].
Proof.
  intros m get.
  destruct (reverse_minor_axis id (λ _ _ _ _ _, ([], [], []))
              (λ _ _ _ _ _, ([], [], [])) (λ _ _ _ _, ([], [], []))
              (λ m' : matrix, in_order (indptr m')) m)
    as (B & HB & _ & _ & _ & Hrows & _).
  - unfold wf_matrix. by_compute.
  - by_compute.
  - by vm_compute.
  - done.
  - exists B. split; [exact HB|]. apply (Hrows 0). by_compute.
Defined.

(** ** Batch insertion: the order of the rows *)

Lemma HdRel_merge_by {A} (R S : relation A) `{!RelDecision R}
    (x : A) (l1 l2 : list A) :
  HdRel S x l1 → HdRel S x l2 → HdRel S x (list_merge R l1 l2).
Proof.
  destruct 1 as [|x1 l1 IH1], 1 as [|x2 l2 IH2];
    rewrite ?list_merge_cons; simpl; repeat case_decide; auto.
Qed.

(** Merging with the test [R] keeps two lists sorted for [S] sorted, when
    [R] decides [S] between the elements of the one and of the other. *)
Lemma Sorted_merge_by {A} (R S : relation A) `{!RelDecision R}
    (l1 l2 : list A) :
  (∀ a b, a ∈ l1 → b ∈ l2 → R a b → S a b) →
  (∀ a b, a ∈ l1 → b ∈ l2 → ¬ R a b → S b a) →
  Sorted S l1 → Sorted S l2 → Sorted S (list_merge R l1 l2).
Proof.
  intros H1 H2 Hl1. revert l2 H1 H2.
  induction Hl1 as [|x1 l1 Hs1 IH1 Hd1]; intros l2 H1 H2 Hl2.
  { by rewrite list_merge_nil_l. }
  induction Hl2 as [|x2 l2 Hs2 IH2 Hd2].
  { rewrite list_merge_nil_r. by constructor. }
  rewrite list_merge_cons. case_decide as HR.
  - constructor.
    + apply IH1; [| |by constructor].
      * intros a b Ha Hb. apply H1; [by apply list_elem_of_further|done].
      * intros a b Ha Hb. apply H2; [by apply list_elem_of_further|done].
    + apply HdRel_merge_by; [done|]. constructor.
      apply H1; [apply list_elem_of_here..|done].
  - constructor.
    + apply IH2.
      * intros a b Ha Hb. apply H1; [done|by apply list_elem_of_further].
      * intros a b Ha Hb. apply H2; [done|by apply list_elem_of_further].
    + apply HdRel_merge_by; [|done]. constructor.
      apply H2; [apply list_elem_of_here..|done].
Qed.

Lemma Sorted_lookup {A} (S : relation A) (l : list A) :
  Sorted S l ↔
  ∀ k a b, l !! k = Some a → l !! (Datatypes.S k) = Some b → S a b.
Proof.
  split.
  - induction 1 as [|x l Hs IH Hd]; [done|].
    intros [|k] a b Ha Hb.
    + simpl in Ha, Hb. injection Ha as <-.
      destruct Hd as [|y l Hxy]; [done|]. simpl in Hb. by injection Hb as <-.
    + simpl in Ha, Hb. by apply (IH k).
  - induction l as [|x l IH]; [constructor|]. intros H.
    constructor.
    + apply IH. intros k a b Ha Hb. by apply (H (Datatypes.S k)).
    + destruct l as [|y l]; constructor. by apply (H 0%nat).
Qed.

(** A relation between the neighbours of every stored row, in the words of
    the check kernels and on the rows as lists. *)
Lemma rows_order_iff (S : relation Z) (m : matrix) :
  wf_matrix m →
  (∀ i jj, 0 ≤ i < size (indptr m) - 1 →
     rd 0 (indptr m) i ≤ jj → jj + 1 < rd 0 (indptr m) (i + 1) →
     S (rd 0 (indices m) jj) (rd 0 (indices m) (jj + 1)))
  ↔ ∀ r, 0 ≤ r < major_dim m →
      Sorted (λ a b, S (fst a) (fst b)) (row_entries m r).
Proof.
  intros Hwf.
  assert (size (indptr m) - 1 = major_dim m) as Hsz
    by (destruct Hwf as (_ & -> & _); lia).
  rewrite Hsz. split.
  - intros H r Hr. apply Sorted_lookup. intros k a b.
    rewrite row_entries_in_order by done. unfold in_order.
    rewrite !list_lookup_fmap. intros Ha Hb.
    apply fmap_Some in Ha as (p & Hp & ->).
    apply fmap_Some in Hb as (q & Hq & ->).
    apply lookup_seqZ in Hp as [-> Hp]. apply lookup_seqZ in Hq as [-> Hq].
    simpl.
    replace (rd 0 (indptr m) r + Z.of_nat (Datatypes.S k))
      with (rd 0 (indptr m) r + Z.of_nat k + 1) by lia.
    apply (H r); [done|lia|lia].
  - intros H i jj Hi Hlo Hhi.
    specialize (H i Hi).
    rewrite Sorted_lookup in H.
    apply (H (Z.to_nat (jj - rd 0 (indptr m) i))
             (rd 0 (indices m) jj, rd 0%float (data m) jj)
             (rd 0 (indices m) (jj + 1), rd 0%float (data m) (jj + 1))).
    + rewrite row_entries_in_order by done. unfold in_order.
      rewrite list_lookup_fmap.
      rewrite (proj2 (lookup_seqZ _ _ _ jj)); [done|]. lia.
    + rewrite row_entries_in_order by done. unfold in_order.
      rewrite list_lookup_fmap.
      rewrite (proj2 (lookup_seqZ _ _ _ (jj + 1))); [done|]. lia.
Qed.

Lemma rows_sorted_iff (m : matrix) :
  wf_matrix m →
  rows_sorted m ↔
  ∀ r, 0 ≤ r < major_dim m →
    Sorted (λ a b, fst a ≤ fst b) (row_entries m r).
Proof. intros Hwf. apply (rows_order_iff Z.le m Hwf). Qed.

Lemma rows_canonical_iff (m : matrix) :
  wf_matrix m →
  rows_canonical m ↔
  ∀ r, 0 ≤ r < major_dim m → Sorted minor_lt (row_entries m r).
Proof.
  intros Hwf. rewrite <- (rows_order_iff Z.lt m Hwf).
  assert (size (indptr m) - 1 = major_dim m) as Hsz
    by (destruct Hwf as (_ & -> & _); lia).
  unfold rows_canonical. split.
  - intros H i jj Hi. by apply (H i Hi).
  - intros H i Hi. split; [|intros jj; by apply H].
    rewrite Hsz in Hi. pose proof (wf_row_bounds m i Hwf Hi). lia.
Qed.

(** The entries kept of a batch are in (major, minor) order and no two of
    them share a coordinate. *)
Lemma kept_sorted_coord (E : list entry) :
  StronglySorted (λ a b, coord_le (e_coord a) (e_coord b))
    (drop_shadowed
       (stable_sort e_coord coord_le (stable_sort e_major Z.le E))).
Proof.
  apply drop_shadowed_sorted. apply (stable_sort_sorted e_coord coord_le).
Qed.

Lemma kept_NoDup (E : list entry) :
  NoDup (e_coord <$>
           drop_shadowed
             (stable_sort e_coord coord_le (stable_sort e_major Z.le E))).
Proof.
  rewrite (kept_Permutation E), keep_last_coords. apply NoDup_remove_dups.
Qed.

Lemma inserted_row_sorted (K : list entry) (r : Z) :
  StronglySorted (λ a b, coord_le (e_coord a) (e_coord b)) K →
  NoDup (e_coord <$> K) →
  StronglySorted minor_lt (inserted_row K r).
Proof.
  intros Hs Hnd.
  induction Hs as [|a t Hs IH Hall]; [constructor|].
  rewrite fmap_cons in Hnd. apply NoDup_cons in Hnd as [Ha Hnd].
  unfold inserted_row. rewrite filter_cons.
  destruct (decide (e_major a = r)) as [Har|Har]; [|by apply IH].
  rewrite fmap_cons. constructor; [by apply IH|].
  apply Forall_fmap, Forall_forall. intros e He.
  apply list_elem_of_filter in He as [Her He].
  rewrite Forall_forall in Hall. specialize (Hall e He).
  assert (e_coord a ≠ e_coord e) as Hne.
  { intros Heq. apply Ha. rewrite Heq. by apply list_elem_of_fmap_2. }
  unfold minor_lt. simpl.
  destruct a as [[a1 a2] av], e as [[e1 e2] ev].
  unfold coord_le, e_coord, e_major, e_minor in *. simpl in *.
  destruct (decide (a2 = e2)) as [->|]; [|lia].
  exfalso. apply Hne. f_equal. lia.
Qed.

Lemma inserted_row_elem (K : list entry) (r c : Z) (v : float) :
  (c, v) ∈ inserted_row K r ↔ (r, c, v) ∈ K.
Proof.
  unfold inserted_row. rewrite list_elem_of_fmap. split.
  - intros ([[e1 e2] ev] & Heq & He).
    apply list_elem_of_filter in He as [Her He].
    unfold e_minor, e_value, e_major in *. simpl in *. by simplify_eq.
  - intros He. exists (r, c, v). split; [done|].
    by apply list_elem_of_filter.
Qed.

(** The object after [_insert_many]: the rows of the population step, one
    after the other. *)
Lemma insert_many_rows (m : matrix) (i j : list Z) (x : list float) :
  wf_matrix m → length j = length i → length x = length i →
  Forall (λ v, 0 ≤ v < major_dim m) i →
  let K := drop_shadowed
             (stable_sort e_coord coord_le
                (stable_sort e_major Z.le (zip3 i j x))) in
  let J := mjoin (merged_row m K <$> seqZ 0 (major_dim m)) in
  _insert_many m i j x
  = set_arrays m (snd <$> J) (fst <$> J) (insert_indptr m K)
  ∧ ∀ r, 0 ≤ r < major_dim m →
      row_entries (_insert_many m i j x) r = merged_row m K r.
Proof.
  intros Hwf Hj Hx Hi K J.
  assert (_insert_many m i j x
          = set_arrays m (snd <$> J) (fst <$> J) (insert_indptr m K)) as Heq.
  { rewrite insert_many_unfold by done. cbv zeta. fold K.
    pose proof (kept_sorted_major (zip3 i j x)) as HKsorted.
    cbv zeta in HKsorted. fold K in HKsorted.
    assert (Forall (λ e, 0 ≤ e_major e < major_dim m) K) as HKrange.
    { apply Forall_forall; intros e He.
      apply (kept_elem (zip3 i j x)) in He.
      apply list_elem_of_lookup in He as [k Hk].
      apply lookup_zip_with_Some in Hk as (ab & v & -> & Hab & _).
      apply lookup_zip_with_Some in Hab as (a & b & -> & Ha & _).
      rewrite Forall_forall in Hi. apply Hi.
      by eapply list_elem_of_lookup_2. }
    by rewrite (perform_insert_spec m K Hwf HKsorted HKrange). }
  split; [exact Heq|]. intros r Hr. rewrite Heq.
  unfold row_entries at 1. simpl. subst J.
  rewrite !slice_fmap, zip_fst_snd.
  unfold insert_indptr. rewrite <- (major_dim_nat m Hwf).
  by rewrite (slice_rows (merged_row m K) _ (Z.to_nat (major_dim m)) r)
    by (try apply prefix_off; lia).
Qed.

Lemma kept_elem_batch (i j : list Z) (x : list float) (r c : Z) (v : float) :
  (r, c, v) ∈ drop_shadowed
                (stable_sort e_coord coord_le
                   (stable_sort e_major Z.le (zip3 i j x))) →
  (r, c) ∈ zip i j ∧ c ∈ j.
Proof.
  intros He. apply (kept_elem (zip3 i j x)) in He.
  apply list_elem_of_lookup in He as [k Hk].
  apply lookup_zip_with_Some in Hk as (ab & v' & Heq & Hab & _).
  injection Heq as <- <-.
  split; [by eapply list_elem_of_lookup_2|].
  apply lookup_zip_with_Some in Hab as (a & b & Heq & _ & Hb).
  injection Heq as <- <-. by eapply list_elem_of_lookup_2.
Qed.

(** [_insert_many] leaves a well-formed matrix well formed. *)
Lemma insert_many_wf_result (m : matrix) (i j : list Z) (x : list float) :
  wf_matrix m → length j = length i → length x = length i →
  Forall (λ v, 0 ≤ v < major_dim m) i →
  Forall (λ c, 0 ≤ c < minor_dim m) j →
  wf_matrix (_insert_many m i j x)
  ∧ fmt (_insert_many m i j x) = fmt m
  ∧ shape (_insert_many m i j x) = shape m.
Proof.
  intros Hwf Hj Hx Hi Hjr.
  destruct (insert_many_rows m i j x Hwf Hj Hx Hi) as [Heq _].
  cbv zeta in Heq. rewrite Heq.
  set (K := drop_shadowed
              (stable_sort e_coord coord_le
                 (stable_sort e_major Z.le (zip3 i j x)))) in *.
  split; [|done].
  assert (0 ≤ major_dim m) as HM by (by destruct Hwf).
  unfold wf_matrix, nnz, major_dim, minor_dim. simpl.
  fold (major_dim m). fold (minor_dim m).
  split; [done|]. split.
  { unfold size, insert_indptr.
    rewrite length_cons, length_cumsum, length_fmap, length_seqZ. lia. }
  split; [done|]. split.
  { unfold insert_indptr. rewrite diff_prefix.
    apply Forall_fmap, Forall_forall. intros r _. simpl. lia. }
  split.
  { unfold insert_indptr. rewrite <- (major_dim_nat m Hwf) at 2.
    rewrite <- (major_dim_nat m Hwf) at 1.
    rewrite prefix_off by lia. rewrite (major_dim_nat m Hwf).
    unfold size. by rewrite length_fmap. }
  split; [by rewrite !length_fmap|].
  apply Forall_fmap, Forall_forall. intros [c v] Hcv. simpl.
  apply list_elem_of_join in Hcv as (row & Hcv & Hrow).
  apply list_elem_of_fmap in Hrow as (r & -> & Hr).
  apply elem_of_seqZ in Hr.
  unfold merged_row in Hcv. rewrite merge_Permutation in Hcv.
  apply elem_of_app in Hcv as [Hold|Hnew].
  - pose proof (row_entries_range m r Hwf ltac:(lia)) as Hrange.
    rewrite Forall_forall in Hrange. apply (Hrange _ Hold).
  - apply inserted_row_elem in Hnew.
    apply kept_elem_batch in Hnew as [_ Hc].
    rewrite Forall_forall in Hjr. by apply Hjr.
Qed.

Lemma row_entries_elem (m : matrix) (r : Z) (cv : Z * float) :
  wf_matrix m → 0 ≤ r < major_dim m →
  cv ∈ row_entries m r →
  ∃ p, rd 0 (indptr m) r ≤ p < rd 0 (indptr m) (r + 1)
       ∧ cv = (rd 0 (indices m) p, rd 0%float (data m) p).
Proof.
  intros Hwf Hr Hcv. rewrite row_entries_in_order in Hcv by done.
  apply list_elem_of_fmap in Hcv as (p & -> & Hp).
  unfold in_order in Hp. apply elem_of_seqZ in Hp.
  exists p. split; [lia|done].
Qed.

(** Batch insertion keeps sorted rows sorted. *)
Lemma insert_many_sorted_result (m : matrix) (i j : list Z)
    (x : list float) :
  wf_matrix m → length j = length i → length x = length i →
  Forall (λ v, 0 ≤ v < major_dim m) i →
  Forall (λ c, 0 ≤ c < minor_dim m) j →
  rows_sorted m → rows_sorted (_insert_many m i j x).
Proof.
  intros Hwf Hj Hx Hi Hjr Hsorted.
  destruct (insert_many_wf_result m i j x Hwf Hj Hx Hi Hjr)
    as (Hwf' & Hfmt & Hshape).
  destruct (insert_many_rows m i j x Hwf Hj Hx Hi) as [_ Hrows].
  cbv zeta in Hrows.
  apply (rows_sorted_iff _ Hwf'). intros r Hr.
  assert (major_dim (_insert_many m i j x) = major_dim m) as HM
    by (unfold major_dim; by rewrite Hfmt, Hshape).
  rewrite HM in Hr. rewrite Hrows by done. unfold merged_row.
  apply Sorted_merge_by.
  - intros a b _ _. unfold minor_lt. lia.
  - intros a b _ _. unfold minor_lt. lia.
  - by apply (rows_sorted_iff m Hwf).
  - apply StronglySorted_Sorted.
    eapply StronglySorted_weaken;
      [|apply inserted_row_sorted; [apply kept_sorted_coord|apply kept_NoDup]].
    intros a b. unfold minor_lt. lia.
Qed.

(** Batch insertion of coordinates that are not stored keeps rows in
    increasing order. *)
Lemma insert_many_canonical_result (m : matrix) (i j : list Z)
    (x : list float) :
  wf_matrix m → length j = length i → length x = length i →
  Forall (λ v, 0 ≤ v < major_dim m) i →
  Forall (λ c, 0 ≤ c < minor_dim m) j →
  (∀ bi bj, (bi, bj) ∈ zip i j →
            find_offset (indptr m) (indices m) bi bj = None) →
  rows_canonical m → rows_canonical (_insert_many m i j x).
Proof.
  intros Hwf Hj Hx Hi Hjr Hnew Hcanon.
  destruct (insert_many_wf_result m i j x Hwf Hj Hx Hi Hjr)
    as (Hwf' & Hfmt & Hshape).
  destruct (insert_many_rows m i j x Hwf Hj Hx Hi) as [_ Hrows].
  cbv zeta in Hrows.
  apply (rows_canonical_iff _ Hwf'). intros r Hr.
  assert (major_dim (_insert_many m i j x) = major_dim m) as HM
    by (unfold major_dim; by rewrite Hfmt, Hshape).
  rewrite HM in Hr. rewrite Hrows by done. unfold merged_row.
  apply Sorted_merge_by.
  - done.
  - intros [c v] [c' v'] Ha Hb Hnlt. unfold minor_lt in *. simpl in *.
    apply inserted_row_elem, kept_elem_batch in Hb as [Hb _].
    apply Hnew in Hb. rewrite find_offset_None in Hb.
    apply (row_entries_elem m r _ Hwf Hr) in Ha as (p & Hp & Heq).
    injection Heq as -> ->. specialize (Hb p Hp). lia.
  - by apply (rows_canonical_iff m Hwf).
  - apply StronglySorted_Sorted.
    apply inserted_row_sorted; [apply kept_sorted_coord|apply kept_NoDup].
Qed.

(** X14: batch insertion keeps the representation well formed.  On a
    well-formed matrix and a batch of in-range major and minor indices,
    [_insert_many] leaves an object of the same format and shape whose
    arrays are again well formed. *)
Theorem insert_many_well_formed (m : matrix) (i j : list Z)
    (x : list float) :
  wf_matrix m → length j = length i → length x = length i →
  Forall (λ v, 0 ≤ v < major_dim m) i →
  Forall (λ c, 0 ≤ c < minor_dim m) j →
  let m' := _insert_many m i j x in
  wf_matrix m' ∧ fmt m' = fmt m ∧ shape m' = shape m.
Proof. intros Hwf Hj Hx Hi Hjr m'. by apply insert_many_wf_result. Qed.

Lemma insert_many_well_formed_witness :
  let m := Matrix CSR (5, 5) [7%float; 9%float] [2; 4] [0; 0; 1; 1; 2; 2]
                  None None in
  wf_matrix (_insert_many m [1; 1; 1; 0; 4; 1] [3; 0; 3; 2; 2; 3]
               [1%float; 2%float; 3%float; 4%float; 5%float; 6%float]).
Proof.
  intros m.
  apply (insert_many_well_formed m [1; 1; 1; 0; 4; 1] [3; 0; 3; 2; 2; 3]
           [1%float; 2%float; 3%float; 4%float; 5%float; 6%float]).
  - unfold wf_matrix. by_compute.
  - reflexivity.
  - reflexivity.
  - by_compute.
  - by_compute.
Defined.

(** X15: batch insertion maintains sorted rows, as the docstring of
    [_insert_many] promises.  If the minor indices of every major row of a
    well-formed matrix are in non-decreasing order, they are so again after
    [_insert_many], whatever the order of the batch and whether or not its
    coordinates are stored already. *)
Theorem insert_many_keeps_rows_sorted (m : matrix) (i j : list Z)
    (x : list float) :
  wf_matrix m → length j = length i → length x = length i →
  Forall (λ v, 0 ≤ v < major_dim m) i →
  Forall (λ c, 0 ≤ c < minor_dim m) j →
  rows_sorted m → rows_sorted (_insert_many m i j x).
Proof. apply insert_many_sorted_result. Qed.

Lemma insert_many_keeps_rows_sorted_witness :
  let m := Matrix CSR (5, 5) [7%float; 9%float; 8%float] [2; 2; 4]
                  [0; 0; 2; 2; 3; 3] None None in
  rows_sorted (_insert_many m [1; 1; 1; 0; 4; 1] [3; 0; 3; 2; 2; 2]
                 [1%float; 2%float; 3%float; 4%float; 5%float; 6%float]).
Proof.
  intros m.
  apply (insert_many_keeps_rows_sorted m [1; 1; 1; 0; 4; 1]
           [3; 0; 3; 2; 2; 2]
           [1%float; 2%float; 3%float; 4%float; 5%float; 6%float]).
  - unfold wf_matrix. by_compute.
  - reflexivity.
  - reflexivity.
  - by_compute.
  - by_compute.
  - apply (proj1 (launch_sorted_spec m)). by vm_compute.
Defined.

(** X16: batch insertion of coordinates that are not stored keeps the
    canonical format.  If every major row of a well-formed matrix has its
    minor indices in increasing order and no coordinate of the batch is
    stored, every row is in increasing order again after [_insert_many]:
    sorted, and no position stored twice, also when the batch names a
    coordinate more than once. *)
Theorem insert_many_keeps_canonical (m : matrix) (i j : list Z)
    (x : list float) :
  wf_matrix m → length j = length i → length x = length i →
  Forall (λ v, 0 ≤ v < major_dim m) i →
  Forall (λ c, 0 ≤ c < minor_dim m) j →
  (∀ bi bj, (bi, bj) ∈ zip i j →
            find_offset (indptr m) (indices m) bi bj = None) →
  rows_canonical m → rows_canonical (_insert_many m i j x).
Proof. apply insert_many_canonical_result. Qed.

Lemma insert_many_keeps_canonical_witness :
  let m := Matrix CSR (5, 5) [7%float; 9%float; 8%float] [2; 3; 4]
                  [0; 0; 2; 2; 3; 3] None None in
  rows_canonical (_insert_many m [1; 1; 1; 0; 4; 1] [4; 0; 4; 2; 2; 1]
                    [1%float; 2%float; 3%float; 4%float; 5%float; 6%float]).
Proof.
  intros m.
  apply (insert_many_keeps_canonical m [1; 1; 1; 0; 4; 1]
           [4; 0; 4; 2; 2; 1]
           [1%float; 2%float; 3%float; 4%float; 5%float; 6%float]).
  - unfold wf_matrix. by_compute.
  - reflexivity.
  - reflexivity.
  - by_compute.
  - by_compute.
  - intros bi bj Hin. simpl in Hin.
    repeat (apply elem_of_cons in Hin as [Heq|Hin];
            [injection Heq as -> ->; by vm_compute|]).
    by apply elem_of_nil in Hin.
  - apply (proj1 (launch_canonical_spec m)). by vm_compute.
Defined.

(** ** Reading a coordinate *)

(** The scalar get on the stored row: the value of the first entry with
    the minor index asked for, or the preset result. *)
Lemma compress_getitem_rows (d : list float) (ix : list Z) (minor : Z)
    (res : float) :
  _compress_getitem d ix minor res
  = default res
      (snd <$> head (filter (λ cv : Z * float, fst cv = minor) (zip ix d))).
Proof.
  unfold _compress_getitem.
  revert ix. induction d as [|v d IH]; intros [|c ix]; try done.
  cbn [zip zip_with list_find]. rewrite filter_cons. simpl.
  destruct (decide (c = minor)) as [Hc|Hc]; [done|].
  specialize (IH ix).
  by destruct (list_find (λ di : float * Z, snd di = minor) (zip d ix))
    as [[k [d' c']]|].
Qed.

Lemma get_intXint_rows (m : matrix) (row col : Z) :
  fst (_get_intXint m row col)
  = default 0%float
      (snd <$> head (filter (λ cv : Z * float,
                               fst cv = snd (_swap (fmt m) row col))
                       (row_entries m (fst (_swap (fmt m) row col))))).
Proof.
  unfold _get_intXint. destruct (_swap (fmt m) row col) as [major minor].
  simpl. apply compress_getitem_rows.
Qed.

Lemma head_filter_find {A} (P : A → Prop) `{!∀ a, Decision (P a)}
    (l : list A) :
  head (filter P l) = snd <$> list_find P l.
Proof.
  induction l as [|a l IH]; [done|]. rewrite filter_cons. simpl.
  destruct (decide (P a)); [done|]. rewrite IH.
  by destruct (list_find P l).
Qed.

Lemma head_filter_row (m : matrix) (r c : Z) :
  wf_matrix m → 0 ≤ r < major_dim m →
  head (filter (λ cv : Z * float, fst cv = c) (row_entries m r))
  = (λ p, (rd 0 (indices m) p, rd 0%float (data m) p))
      <$> find_offset (indptr m) (indices m) r c.
Proof.
  intros Hwf Hr. rewrite row_entries_in_order by done.
  rewrite head_filter_find, list_find_fmap. unfold find_offset, in_order.
  by destruct (list_find _ _) as [[k p]|].
Qed.


Lemma filter_merge_l {A} (R : relation A) `{!RelDecision R} (P : A → Prop)
    `{!∀ a, Decision (P a)} (l1 l2 : list A) :
  Forall (λ a, ¬ P a) l2 → filter P (list_merge R l1 l2) = filter P l1.
Proof.
  revert l2. induction l1 as [|x1 l1 IH1]; intros l2 Hl2.
  { rewrite list_merge_nil_l. by apply filter_nil_Forall. }
  induction Hl2 as [|x2 l2 Hx2 Hl2 IH2].
  { by rewrite list_merge_nil_r. }
  rewrite list_merge_cons. case_decide.
  - rewrite !filter_cons. rewrite IH1 by (by constructor). done.
  - rewrite (filter_cons _ x2). rewrite decide_False by done. apply IH2.
Qed.

Lemma filter_merge_r {A} (R : relation A) `{!RelDecision R} (P : A → Prop)
    `{!∀ a, Decision (P a)} (l1 l2 : list A) :
  Forall (λ a, ¬ P a) l1 → filter P (list_merge R l1 l2) = filter P l2.
Proof.
  intros Hl1. revert l2. induction Hl1 as [|x1 l1 Hx1 Hl1 IH1]; intros l2.
  { by rewrite list_merge_nil_l. }
  induction l2 as [|x2 l2 IH2].
  { rewrite list_merge_nil_r. apply filter_nil_Forall. by constructor. }
  rewrite list_merge_cons. case_decide.
  - rewrite (filter_cons _ x1). rewrite decide_False by done. apply IH1.
  - rewrite !filter_cons. by rewrite IH2.
Qed.

Lemma filter_fmap_pred {A B} (f : A → B) (P : B → Prop)
    `{!∀ b, Decision (P b)} (l : list A) :
  filter P (f <$> l) = f <$> filter (λ a, P (f a)) l.
Proof.
  induction l as [|a l IH]; [done|]. rewrite fmap_cons, !filter_cons.
  destruct (decide (P (f a))); [|done]. by rewrite fmap_cons, IH.
Qed.

(** The entries that the rows inserted for [r] hold at the minor index
    [c]. *)
Lemma inserted_row_filter (K : list entry) (r c : Z) :
  filter (λ cv : Z * float, fst cv = c) (inserted_row K r)
  = (λ e, (e_minor e, e_value e)) <$> filter (λ e, e_coord e = (r, c)) K.
Proof.
  unfold inserted_row. rewrite filter_fmap_pred, list_filter_filter.
  f_equal. apply list_filter_iff. intros [[e1 e2] ev].
  unfold e_coord, e_major, e_minor. simpl. split.
  - by intros [-> ->].
  - intros Heq. by injection Heq as -> ->.
Qed.

Lemma row_without_minor (m : matrix) (r c : Z) :
  wf_matrix m → 0 ≤ r < major_dim m →
  find_offset (indptr m) (indices m) r c = None →
  Forall (λ cv : Z * float, ¬ fst cv = c) (row_entries m r).
Proof.
  intros Hwf Hr Hnone. rewrite find_offset_None in Hnone.
  apply Forall_forall. intros cv Hcv.
  apply (row_entries_elem m r cv Hwf Hr) in Hcv as (p & Hp & ->). simpl.
  by apply Hnone.
Qed.

(** The row [r] after a batch insertion, at the minor index [c]: the last
    entry the batch has for [(r, c)] if the coordinate was not stored, and
    what the row held if the batch does not name the coordinate. *)
Lemma insert_many_row_new (m : matrix) (i j : list Z) (x : list float)
    (r c : Z) (e : entry) :
  wf_matrix m → length j = length i → length x = length i →
  Forall (λ v, 0 ≤ v < major_dim m) i →
  0 ≤ r < major_dim m →
  find_offset (indptr m) (indices m) r c = None →
  last (filter (λ e, e_coord e = (r, c)) (zip3 i j x)) = Some e →
  filter (λ cv : Z * float, fst cv = c) (row_entries (_insert_many m i j x) r)
  = [(c, e_value e)].
Proof.
  intros Hwf Hj Hx Hi Hr Hnone Hlast.
  destruct (insert_many_rows m i j x Hwf Hj Hx Hi) as [_ Hrows].
  cbv zeta in Hrows. rewrite Hrows by done. unfold merged_row.
  rewrite filter_merge_r by (by apply row_without_minor).
  rewrite inserted_row_filter.
  rewrite drop_shadowed_filter
    by apply (stable_sort_sorted e_coord coord_le).
  rewrite (sorted_batch_filter (zip3 i j x)), Hlast. simpl.
  assert (e ∈ filter (λ e, e_coord e = (r, c)) (zip3 i j x)) as He.
  { apply last_Some in Hlast as [l' ->]. apply elem_of_app. right.
    apply list_elem_of_here. }
  apply list_elem_of_filter in He as [Hc _].
  destruct e as [[e1 e2] ev]. unfold e_coord, e_minor in *. simpl in *.
  by injection Hc as -> ->.
Qed.

Lemma insert_many_row_old (m : matrix) (i j : list Z) (x : list float)
    (r c : Z) :
  wf_matrix m → length j = length i → length x = length i →
  Forall (λ v, 0 ≤ v < major_dim m) i →
  0 ≤ r < major_dim m → (r, c) ∉ zip i j →
  filter (λ cv : Z * float, fst cv = c) (row_entries (_insert_many m i j x) r)
  = filter (λ cv : Z * float, fst cv = c) (row_entries m r).
Proof.
  intros Hwf Hj Hx Hi Hr Hnot.
  destruct (insert_many_rows m i j x Hwf Hj Hx Hi) as [_ Hrows].
  cbv zeta in Hrows. rewrite Hrows by done. unfold merged_row.
  apply filter_merge_l. apply Forall_forall. intros [c' v] Hcv Hc.
  simpl in Hc. subst c'.
  apply inserted_row_elem, kept_elem_batch in Hcv as [Hin _]. done.
Qed.

Lemma insert_many_fmt (m : matrix) (i j : list Z) (x : list float) :
  wf_matrix m → length j = length i → length x = length i →
  Forall (λ v, 0 ≤ v < major_dim m) i →
  fmt (_insert_many m i j x) = fmt m ∧ shape (_insert_many m i j x) = shape m.
Proof.
  intros Hwf Hj Hx Hi.
  destruct (insert_many_rows m i j x Hwf Hj Hx Hi) as [Heq _].
  cbv zeta in Heq. by rewrite Heq.
Qed.

Lemma last_filter_elem {A} (P : A → Prop) `{!∀ a, Decision (P a)}
    (l : list A) (a : A) :
  last (filter P l) = Some a → a ∈ l ∧ P a.
Proof.
  intros Hlast. apply last_Some in Hlast as [l' Heq].
  assert (a ∈ filter P l) as Ha
    by (rewrite Heq; apply elem_of_app; right; apply list_elem_of_here).
  by apply list_elem_of_filter in Ha as [? ?].
Qed.

(** X17: reading after batch insertion.  After [_insert_many] of a batch
    of coordinates that are not stored, the scalar get of a batch
    coordinate returns the value of its last occurrence in the batch, and
    the scalar get of a coordinate that the batch does not name returns
    what it returned before. *)
Theorem insert_many_then_get (m : matrix) (i j : list Z) (x : list float) :
  wf_matrix m → length j = length i → length x = length i →
  Forall (λ v, 0 ≤ v < major_dim m) i →
  (∀ bi bj, (bi, bj) ∈ zip i j →
            find_offset (indptr m) (indices m) bi bj = None) →
  let m' := _insert_many m i j x in
  (∀ row col e,
     last (filter (λ e, e_coord e = _swap (fmt m) row col) (zip3 i j x))
     = Some e →
     fst (_get_intXint m' row col) = e_value e) ∧
  (∀ row col,
     0 ≤ fst (_swap (fmt m) row col) < major_dim m →
     _swap (fmt m) row col ∉ zip i j →
     fst (_get_intXint m' row col) = fst (_get_intXint m row col)).
Proof.
  intros Hwf Hj Hx Hi Hnew m'. subst m'.
  destruct (insert_many_fmt m i j x Hwf Hj Hx Hi) as [Hfmt _].
  split.
  - intros row col e Hlast. rewrite get_intXint_rows, Hfmt.
    destruct (_swap (fmt m) row col) as [r c] eqn:Hswap. simpl.
    destruct (last_filter_elem _ _ _ Hlast) as [He Hc].
    assert ((r, c) ∈ zip i j) as Hin.
    { rewrite <- Hc. unfold e_coord.
      apply list_elem_of_lookup in He as [k Hk].
      apply lookup_zip_with_Some in Hk as (ab & v & -> & Hab & _).
      simpl. by eapply list_elem_of_lookup_2. }
    assert (0 ≤ r < major_dim m) as Hr.
    { apply list_elem_of_lookup in Hin as [k Hk].
      apply lookup_zip_with_Some in Hk as (a & b & Heq & Ha & _).
      injection Heq as <- <-. rewrite Forall_forall in Hi. apply Hi.
      by eapply list_elem_of_lookup_2. }
    by rewrite (insert_many_row_new m i j x r c e) by auto.
  - intros row col Hr Hnot. rewrite !get_intXint_rows, Hfmt.
    destruct (_swap (fmt m) row col) as [r c] eqn:Hswap. simpl in *.
    by rewrite insert_many_row_old.
Qed.

Lemma insert_many_then_get_witness :
  let m := Matrix CSR (5, 5) [7%float; 9%float] [2; 4] [0; 0; 1; 1; 2; 2]
                  None None in
  let m' := _insert_many m [1; 1; 1; 0; 4; 1] [3; 0; 3; 2; 2; 3]
              [1%float; 2%float; 3%float; 4%float; 5%float; 6%float] in
  fst (_get_intXint m' 1 3) = 6%float ∧
  fst (_get_intXint m' 1 2) = fst (_get_intXint m 1 2).
Proof.
  intros m m'.
  destruct (insert_many_then_get m [1; 1; 1; 0; 4; 1] [3; 0; 3; 2; 2; 3]
              [1%float; 2%float; 3%float; 4%float; 5%float; 6%float])
    as [Hnew Hold].
  - unfold wf_matrix. by_compute.
  - reflexivity.
  - reflexivity.
  - by_compute.
  - intros bi bj Hin. simpl in Hin.
    repeat (apply elem_of_cons in Hin as [Heq|Hin];
            [injection Heq as -> ->; by vm_compute|]).
    by apply elem_of_nil in Hin.
  - split.
    + apply (Hnew 1 3 (1, 3, 6%float)). by vm_compute.
    + apply (Hold 1 2); [by_compute|]. simpl. intros Hin.
      repeat (apply elem_of_cons in Hin as [Heq|Hin]; [discriminate Heq|]).
      by apply elem_of_nil in Hin.
Defined.

(** ** Batch assignment *)

Lemma zip3_proj (i j : list Z) (x : list float) :
  length j = length i → length x = length i →
  e_major <$> zip3 i j x = i ∧ e_minor <$> zip3 i j x = j
  ∧ e_value <$> zip3 i j x = x.
Proof.
  intros Hj Hx. unfold zip3.
  assert (length (zip i j) = length i) as Hz
    by (rewrite length_zip_with; lia).
  split; [|split].
  - rewrite <- (fst_zip i j) at 2 by lia.
    rewrite <- (fst_zip (zip i j) x) at 2 by lia.
    by rewrite <- list_fmap_compose.
  - rewrite <- (snd_zip i j) at 2 by lia.
    rewrite <- (fst_zip (zip i j) x) at 2 by lia.
    by rewrite <- list_fmap_compose.
  - apply snd_zip. lia.
Qed.

Lemma compress_fmap {A B} (P : A → bool) (g : A → B) (l : list A) :
  compress (P <$> l) (g <$> l) = g <$> filter (λ a, P a = true) l.
Proof.
  induction l as [|a l IH]; [done|]. rewrite !fmap_cons, filter_cons.
  cbn [compress].
  destruct (decide (P a = true)) as [HP|HP].
  - rewrite HP, fmap_cons. by rewrite IH.
  - apply not_true_is_false in HP. by rewrite HP.
Qed.

Lemma forallb_fmap_filter {A} (P : A → bool) (l : list A) :
  forallb id (P <$> l) = true ↔ filter (λ a, negb (P a) = true) l = [].
Proof.
  induction l as [|a l IH]; [done|]. rewrite fmap_cons, filter_cons.
  cbn [forallb]. unfold id at 1.
  destruct (decide (negb (P a) = true)) as [HP|HP].
  - apply negb_true_iff in HP. rewrite HP. simpl.
    split; intros; discriminate.
  - apply not_true_is_false, negb_false_iff in HP. rewrite HP. exact IH.
Qed.

Section SetMany.
Variable m : matrix.
Variable B : list entry.
Hypothesis Hwf : wf_matrix m.
Hypothesis Hsmall : nnz m ≤ 2 ^ 24 + 1.
Hypothesis Hi : Forall (λ e, - major_dim m ≤ e_major e < major_dim m) B.
Hypothesis Hj : Forall (λ e, - minor_dim m ≤ e_minor e < minor_dim m) B.

Lemma batch_coord_range (e : entry) :
  e ∈ B →
  0 ≤ fst (batch_coord m e) < major_dim m
  ∧ 0 ≤ snd (batch_coord m e) < minor_dim m.
Proof.
  intros He. rewrite Forall_forall in Hi. rewrite Forall_forall in Hj.
  split; apply wrap_index_range; auto.
Qed.

Lemma entry_offset_hit (e : entry) :
  e ∈ B → entry_offset m e > -1 →
  find_offset (indptr m) (indices m)
    (fst (batch_coord m e)) (snd (batch_coord m e)) = Some (entry_offset m e)
  ∧ 0 ≤ entry_offset m e < nnz m.
Proof.
  intros He Hhit. unfold entry_offset in *.
  destruct (find_offset _ _ _ _) as [p|] eqn:Hf; [|lia].
  split; [done|].
  apply find_offset_Some in Hf as (Hp & _).
  pose proof (wf_row_bounds m _ Hwf (proj1 (batch_coord_range e He))). lia.
Qed.

Lemma entry_offset_miss (e : entry) :
  e ∈ B → ¬ entry_offset m e > -1 →
  find_offset (indptr m) (indices m)
    (fst (batch_coord m e)) (snd (batch_coord m e)) = None.
Proof.
  intros He Hmiss. unfold entry_offset in *.
  destruct (find_offset _ _ _ _) as [p|] eqn:Hf; [|done].
  apply find_offset_Some in Hf as (Hp & _).
  pose proof (wf_row_bounds m _ Hwf (proj1 (batch_coord_range e He))). lia.
Qed.

Lemma sample_offsets_batch :
  sample_offsets m (e_major <$> B) (e_minor <$> B) (major_dim m) (minor_dim m)
  = entry_offset m <$> B.
Proof.
  unfold sample_offsets, _csr_sample_values.
  rewrite zip_with_fmap_l, zip_with_fmap_r, zip_with_diag.
  apply list_fmap_ext. intros k e Hk.
  assert (e ∈ B) as He by (by eapply list_elem_of_lookup_2).
  unfold entry_offset, batch_coord. simpl.
  destruct (find_offset _ _ _ _) as [p|] eqn:Hf; [|done].
  apply find_offset_Some in Hf as (Hp & _).
  pose proof (wf_row_bounds m _ Hwf (proj1 (batch_coord_range e He))) as Hrow.
  unfold batch_coord in Hrow. simpl in Hrow.
  rewrite rd_arange_float32 by lia. apply float32_of_index_exact. lia.
Qed.

(** [_set_many] on an in-bounds batch, while every entry ID is a
    [float32] value: the values of the stored coordinates are written in
    place, and the other entries, if any, go to [_insert_many]. *)
Lemma set_many_unfold :
  B ≠ [] →
  _set_many m (e_major <$> B) (e_minor <$> B) (e_value <$> B)
  = if decide (batch_misses m B = [])
    then (Ok false, set_data m (written_data m B))
    else (Ok true,
          _insert_many (set_data m (written_data m B))
            (fst ∘ batch_coord m <$> batch_misses m B)
            (snd ∘ batch_coord m <$> batch_misses m B)
            (e_value <$> batch_misses m B)).
Proof.
  intros HB. unfold _set_many.
  rewrite _prepare_indices_ok; cycle 1.
  - by destruct B.
  - by rewrite !length_fmap.
  - by apply Forall_fmap.
  - by apply Forall_fmap.
  - rewrite sample_offsets_batch. rewrite <- !list_fmap_compose.
    set (hit := (λ o : Z, bool_decide (o > -1)) ∘ entry_offset m).
    assert (filter (λ e, hit e = true) B = batch_hits m B) as Hhits.
    { apply list_filter_iff. intros e. unfold hit. simpl.
      apply bool_decide_eq_true. }
    assert (filter (λ e, (negb ∘ hit) e = true) B = batch_misses m B)
      as Hmisses.
    { apply list_filter_iff. intros e. unfold hit. simpl.
      rewrite negb_true_iff, bool_decide_eq_false. done. }
    rewrite !compress_fmap, Hhits, Hmisses.
    fold (written_data m B). unfold wrap_negative.
    rewrite <- !list_fmap_compose.
    destruct (forallb id (hit <$> B)) eqn:Hall.
    + apply forallb_fmap_filter in Hall.
      change (filter (λ e, (negb ∘ hit) e = true) B = []) in Hall.
      rewrite Hmisses in Hall. by rewrite decide_True.
    + rewrite decide_False; [done|]. intros Hnil.
      rewrite <- Hmisses in Hnil.
      change (filter (λ e, negb (hit e) = true) B = []) in Hnil.
      apply (forallb_fmap_filter hit) in Hnil. congruence.
Qed.

Lemma wf_written : wf_matrix (set_data m (written_data m B)).
Proof.
  destruct Hwf as (HM & Hsz & H0 & Hdiff & Hlast & Hlen & Hind).
  unfold wf_matrix, nnz, size, written_data, major_dim, minor_dim. simpl.
  rewrite length_scatter. by repeat split.
Qed.

Lemma stored_value_written (r c : Z) :
  0 ≤ r < major_dim m →
  stored_value (set_data m (written_data m B)) r c
  = match find_offset (indptr m) (indices m) r c with
    | Some p => rd 0%float (written_data m B) p
    | None => 0%float
    end.
Proof.
  intros Hr. unfold stored_value.
  rewrite (head_filter_row _ r c wf_written) by done. simpl.
  by destruct (find_offset _ _ _ _).
Qed.

Lemma stored_value_offset (r c : Z) :
  0 ≤ r < major_dim m →
  stored_value m r c
  = match find_offset (indptr m) (indices m) r c with
    | Some p => rd 0%float (data m) p
    | None => 0%float
    end.
Proof.
  intros Hr. unfold stored_value. rewrite (head_filter_row m r c Hwf) by done.
  by destruct (find_offset _ _ _ _).
Qed.

(** An offset is the first entry of one coordinate only. *)
Lemma find_offset_inj (r c r' c' p : Z) :
  0 ≤ r < major_dim m → 0 ≤ r' < major_dim m →
  find_offset (indptr m) (indices m) r c = Some p →
  find_offset (indptr m) (indices m) r' c' = Some p →
  (r, c) = (r', c').
Proof.
  intros Hr Hr' Hf Hf'.
  apply find_offset_Some in Hf as (Hp & Hc & _).
  apply find_offset_Some in Hf' as (Hp' & Hc' & _).
  rewrite (wf_rows_disjoint m r r' p Hwf Hr Hr' Hp Hp'). congruence.
Qed.

Lemma entry_offset_coord (e e' : entry) :
  e ∈ B → e' ∈ B → entry_offset m e > -1 →
  entry_offset m e = entry_offset m e' → batch_coord m e = batch_coord m e'.
Proof.
  intros He He' Hhit Heq.
  destruct (entry_offset_hit e He Hhit) as [Hf _].
  destruct (entry_offset_hit e' He' ltac:(lia)) as [Hf' _].
  rewrite <- Heq in Hf'.
  pose proof (find_offset_inj _ _ _ _ _
                (proj1 (batch_coord_range e He))
                (proj1 (batch_coord_range e' He')) Hf Hf') as Hc.
  by destruct (batch_coord m e), (batch_coord m e').
Qed.

Lemma batch_hits_elem (e : entry) :
  e ∈ batch_hits m B ↔ e ∈ B ∧ entry_offset m e > -1.
Proof. unfold batch_hits. rewrite list_elem_of_filter. tauto. Qed.

Lemma batch_misses_elem (e : entry) :
  e ∈ batch_misses m B ↔ e ∈ B ∧ ¬ entry_offset m e > -1.
Proof. unfold batch_misses. rewrite list_elem_of_filter. tauto. Qed.

Lemma NoDup_fmap_inj_on {A C} (f : A → C) (l : list A) (a b : A) :
  NoDup (f <$> l) → a ∈ l → b ∈ l → f a = f b → a = b.
Proof.
  induction l as [|x l IH]; intros Hnd Ha Hb Hab.
  { by apply elem_of_nil in Ha. }
  rewrite fmap_cons in Hnd. apply NoDup_cons in Hnd as [Hx Hnd].
  apply elem_of_cons in Ha as [->|Ha]; apply elem_of_cons in Hb as [->|Hb].
  - done.
  - exfalso. apply Hx. rewrite Hab. by apply list_elem_of_fmap_2.
  - exfalso. apply Hx. rewrite <- Hab. by apply list_elem_of_fmap_2.
  - by apply IH.
Qed.

Hypothesis Hdistinct : NoDup (batch_coord m <$> B).

Lemma NoDup_hit_offsets : NoDup (entry_offset m <$> batch_hits m B).
Proof.
  apply NoDup_fmap_2_strong.
  - intros e e' He He' Heq.
    apply batch_hits_elem in He as [He Hhit].
    apply batch_hits_elem in He' as [He' _].
    apply (NoDup_fmap_inj_on (batch_coord m) B); try done.
    by apply entry_offset_coord.
  - apply NoDup_filter. by apply NoDup_fmap_1 in Hdistinct.
Qed.

Lemma written_hit (e : entry) :
  e ∈ B → entry_offset m e > -1 →
  rd 0%float (written_data m B) (entry_offset m e) = e_value e.
Proof.
  intros He Hhit.
  assert (e ∈ batch_hits m B) as Hin by (by apply batch_hits_elem).
  apply list_elem_of_lookup in Hin as [t Ht].
  unfold written_data.
  apply (rd_scatter_hit _ _ _ _ t).
  - apply NoDup_hit_offsets.
  - by rewrite list_lookup_fmap, Ht.
  - by rewrite list_lookup_fmap, Ht.
  - destruct (entry_offset_hit e He Hhit) as [_ Hp]. exact Hp.
Qed.
End SetMany.

Lemma written_other (m : matrix) (B : list entry) (q : Z) :
  (∀ e, e ∈ B → entry_offset m e ≠ q) →
  rd 0%float (written_data m B) q = rd 0%float (data m) q.
Proof.
  intros Hq. unfold written_data. apply rd_scatter_miss.
  intros Hin. apply list_elem_of_fmap in Hin as (e & -> & He).
  apply list_elem_of_filter in He as [_ He]. by apply (Hq e).
Qed.

Section SetManyResult.
Variable m : matrix.
Variable B : list entry.
Hypothesis Hwf : wf_matrix m.
Hypothesis Hsmall : nnz m ≤ 2 ^ 24 + 1.
Hypothesis Hi : Forall (λ e, - major_dim m ≤ e_major e < major_dim m) B.
Hypothesis Hj : Forall (λ e, - minor_dim m ≤ e_minor e < minor_dim m) B.
Hypothesis HB : B ≠ [].

Lemma insert_batch_zip :
  zip (fst ∘ batch_coord m <$> batch_misses m B)
      (snd ∘ batch_coord m <$> batch_misses m B)
  = batch_coord m <$> batch_misses m B.
Proof.
  rewrite zip_fmap_same. by apply list_fmap_ext.
Qed.

Lemma insert_batch_zip3 :
  zip3 (fst ∘ batch_coord m <$> batch_misses m B)
       (snd ∘ batch_coord m <$> batch_misses m B)
       (e_value <$> batch_misses m B)
  = (λ e, (batch_coord m e, e_value e)) <$> batch_misses m B.
Proof. unfold zip3. by rewrite insert_batch_zip, zip_fmap_same. Qed.

Lemma insert_batch_major :
  Forall (λ v, 0 ≤ v < major_dim (set_data m (written_data m B)))
    (fst ∘ batch_coord m <$> batch_misses m B).
Proof.
  apply Forall_fmap, Forall_forall. intros e He. simpl.
  apply batch_misses_elem in He as [He _].
  apply (batch_coord_range m B Hi Hj e He).
Qed.

Lemma insert_batch_minor :
  Forall (λ v, 0 ≤ v < minor_dim (set_data m (written_data m B)))
    (snd ∘ batch_coord m <$> batch_misses m B).
Proof.
  apply Forall_fmap, Forall_forall. intros e He. simpl.
  apply batch_misses_elem in He as [He _].
  apply (batch_coord_range m B Hi Hj e He).
Qed.

Lemma insert_batch_absent (bi bj : Z) :
  (bi, bj) ∈ zip (fst ∘ batch_coord m <$> batch_misses m B)
                 (snd ∘ batch_coord m <$> batch_misses m B) →
  find_offset (indptr (set_data m (written_data m B)))
    (indices (set_data m (written_data m B))) bi bj = None.
Proof.
  rewrite insert_batch_zip. intros Hin.
  apply list_elem_of_fmap in Hin as (e & Heq & He).
  apply batch_misses_elem in He as [He Hmiss]. simpl.
  pose proof (entry_offset_miss m B Hwf Hi Hj e He Hmiss) as Hnone.
  rewrite <- Heq in Hnone. exact Hnone.
Qed.

(** The object after [_set_many] is well formed, of the same format and
    shape, and keeps the order of its rows. *)
Lemma set_many_format :
  let res := _set_many m (e_major <$> B) (e_minor <$> B) (e_value <$> B) in
  fst res = Ok (bool_decide (batch_misses m B ≠ [])) ∧
  wf_matrix (snd res) ∧ fmt (snd res) = fmt m ∧ shape (snd res) = shape m ∧
  (rows_sorted m → rows_sorted (snd res)) ∧
  (rows_canonical m → rows_canonical (snd res)).
Proof.
  cbv zeta. rewrite (set_many_unfold m B Hwf Hsmall Hi Hj HB).
  pose proof (wf_written m B Hwf) as Hwf1.
  destruct (decide (batch_misses m B = [])) as [Hnil|Hsome].
  - cbn [fst snd]. rewrite bool_decide_eq_false_2 by (intros H; by apply H).
    split; [done|]. split; [exact Hwf1|]. split; [done|]. split; [done|].
    split; intros H; exact H.
  - cbn [fst snd]. rewrite bool_decide_eq_true_2 by done.
    split; [done|].
    destruct (insert_many_wf_result (set_data m (written_data m B))
                (fst ∘ batch_coord m <$> batch_misses m B)
                (snd ∘ batch_coord m <$> batch_misses m B)
                (e_value <$> batch_misses m B) Hwf1)
      as (Hwf' & Hfmt & Hshape).
    { by rewrite !length_fmap. }
    { by rewrite !length_fmap. }
    { apply insert_batch_major. }
    { apply insert_batch_minor. }
    split; [done|]. split; [done|]. split; [done|]. split.
    + intros Hs. apply insert_many_sorted_result; try done.
      * by rewrite !length_fmap.
      * by rewrite !length_fmap.
      * apply insert_batch_major.
      * apply insert_batch_minor.
    + intros Hc. apply insert_many_canonical_result; try done.
      * by rewrite !length_fmap.
      * by rewrite !length_fmap.
      * apply insert_batch_major.
      * apply insert_batch_minor.
      * apply insert_batch_absent.
Qed.

(** What the object after [_set_many] holds for a coordinate that is not
    inserted: what the data written in place hold for it. *)
Lemma set_many_stored_old (r c : Z) :
  0 ≤ r < major_dim m →
  (r, c) ∉ batch_coord m <$> batch_misses m B →
  stored_value
    (snd (_set_many m (e_major <$> B) (e_minor <$> B) (e_value <$> B))) r c
  = stored_value (set_data m (written_data m B)) r c.
Proof.
  intros Hr Hnot. rewrite (set_many_unfold m B Hwf Hsmall Hi Hj HB).
  destruct (decide (batch_misses m B = [])) as [Hnil|Hsome]; [done|].
  cbn [snd]. unfold stored_value.
  rewrite insert_many_row_old; try done.
  - apply (wf_written m B Hwf).
  - by rewrite !length_fmap.
  - by rewrite !length_fmap.
  - apply insert_batch_major.
  - by rewrite insert_batch_zip.
Qed.

Hypothesis Hdistinct : NoDup (batch_coord m <$> B).

Lemma set_many_stored_new (e : entry) :
  e ∈ batch_misses m B →
  stored_value
    (snd (_set_many m (e_major <$> B) (e_minor <$> B) (e_value <$> B)))
    (fst (batch_coord m e)) (snd (batch_coord m e))
  = e_value e.
Proof.
  intros He. rewrite (set_many_unfold m B Hwf Hsmall Hi Hj HB).
  rewrite decide_False by (intros Hnil; rewrite Hnil in He;
                            by apply elem_of_nil in He).
  cbn [snd]. unfold stored_value.
  pose proof He as He'. apply batch_misses_elem in He' as [HeB Hmiss].
  rewrite (insert_many_row_new _ _ _ _ _ _ (batch_coord m e, e_value e));
    try done.
  - apply (wf_written m B Hwf).
  - by rewrite !length_fmap.
  - by rewrite !length_fmap.
  - apply insert_batch_major.
  - apply (batch_coord_range m B Hi Hj e HeB).
  - simpl. by apply (entry_offset_miss m B Hwf Hi Hj).
  - rewrite insert_batch_zip3.
    rewrite (filter_fmap_pred (λ e, (batch_coord m e, e_value e))).
    rewrite fmap_last.
    destruct (last (filter _ (batch_misses m B))) as [e'|] eqn:Hlast.
    + apply last_filter_elem in Hlast as [He'' Hc]. simpl.
      unfold e_coord in Hc. simpl in Hc.
      destruct (batch_coord m e) as [r c] eqn:Hbc. simpl in Hc.
      apply batch_misses_elem in He'' as [He'' _].
      assert (e' = e) as ->.
      { apply (NoDup_fmap_inj_on (batch_coord m) B); try done. }
      by rewrite Hbc.
    + exfalso. apply last_None in Hlast.
      assert (e ∈ filter (λ a, e_coord (batch_coord m a, e_value a)
                               = (fst (batch_coord m e),
                                  snd (batch_coord m e)))
                  (batch_misses m B)) as Hin.
      { apply list_elem_of_filter. split; [reflexivity|done]. }
      rewrite Hlast in Hin. by apply elem_of_nil in Hin.
Qed.

(** After [_set_many] of a batch of distinct coordinates, every batch
    coordinate holds its batch value. *)
Lemma set_many_value_batch (e : entry) :
  e ∈ B →
  stored_value
    (snd (_set_many m (e_major <$> B) (e_minor <$> B) (e_value <$> B)))
    (fst (batch_coord m e)) (snd (batch_coord m e))
  = e_value e.
Proof.
  intros He.
  destruct (decide (entry_offset m e > -1)) as [Hhit|Hmiss].
  - rewrite set_many_stored_old.
    + rewrite stored_value_written
        by (try done; apply (batch_coord_range m B Hi Hj e He)).
      destruct (entry_offset_hit m B Hwf Hi Hj e He Hhit) as [-> _].
      by apply written_hit.
    + apply (batch_coord_range m B Hi Hj e He).
    + intros Hin. apply list_elem_of_fmap in Hin as (e' & Heq & He').
      apply batch_misses_elem in He' as [He' Hmiss]. apply Hmiss.
      unfold entry_offset in *.
      replace (batch_coord m e')
        with (fst (batch_coord m e), snd (batch_coord m e)).
      by destruct (batch_coord m e).
  - apply set_many_stored_new. by apply batch_misses_elem.
Qed.
End SetManyResult.

(** After [_set_many], a coordinate that the batch does not name holds
    what it held. *)
Lemma set_many_value_other (m : matrix) (B : list entry) (r c : Z) :
  wf_matrix m → nnz m ≤ 2 ^ 24 + 1 →
  Forall (λ e, - major_dim m ≤ e_major e < major_dim m) B →
  Forall (λ e, - minor_dim m ≤ e_minor e < minor_dim m) B →
  B ≠ [] →
  0 ≤ r < major_dim m → (r, c) ∉ batch_coord m <$> B →
  stored_value
    (snd (_set_many m (e_major <$> B) (e_minor <$> B) (e_value <$> B))) r c
  = stored_value m r c.
Proof.
  intros Hwf Hsmall Hi Hj HB Hr Hnot.
  rewrite set_many_stored_old; try done.
  - rewrite stored_value_written, stored_value_offset by done.
    destruct (find_offset _ _ r c) as [p|] eqn:Hf; [|done].
    apply written_other. intros e He Hoff.
    assert (entry_offset m e > -1) as Hhit.
    { apply find_offset_Some in Hf as (Hp & _).
      pose proof (wf_row_bounds m r Hwf Hr). lia. }
    destruct (entry_offset_hit m B Hwf Hi Hj e He Hhit) as [Hf' _].
    rewrite Hoff in Hf'.
    pose proof (find_offset_inj m Hwf _ _ _ _ _
                  (proj1 (batch_coord_range m B Hi Hj e He)) Hr Hf' Hf) as Hc.
    apply Hnot. rewrite <- Hc.
    apply list_elem_of_fmap. exists e. split; [|done].
    by destruct (batch_coord m e).
  - intros Hin. apply Hnot.
    apply list_elem_of_fmap in Hin as (e & Heq & He).
    apply batch_misses_elem in He as [He _].
    apply list_elem_of_fmap. by exists e.
Qed.

Lemma batch_coord_zip (m : matrix) (B : list entry) :
  zip (wrap_index (major_dim m) <$> (e_major <$> B))
      (wrap_index (minor_dim m) <$> (e_minor <$> B))
  = batch_coord m <$> B.
Proof. by rewrite <- !list_fmap_compose, zip_fmap_same. Qed.

(** [_set_many] in terms of the three arrays of the batch. *)
Lemma set_many_then_stored (m : matrix) (i j : list Z) (x : list float) :
  wf_matrix m → nnz m ≤ 2 ^ 24 + 1 →
  i ≠ [] → length j = length i → length x = length i →
  Forall (λ v, - major_dim m ≤ v < major_dim m) i →
  Forall (λ v, - minor_dim m ≤ v < minor_dim m) j →
  let res := _set_many m i j x in
  let coords := zip (wrap_index (major_dim m) <$> i)
                    (wrap_index (minor_dim m) <$> j) in
  (fst res = Ok (bool_decide (batch_misses m (zip3 i j x) ≠ [])) ∧
   wf_matrix (snd res) ∧ fmt (snd res) = fmt m ∧ shape (snd res) = shape m ∧
   (rows_sorted m → rows_sorted (snd res)) ∧
   (rows_canonical m → rows_canonical (snd res))) ∧
  (NoDup coords →
   ∀ k bi bj v, i !! k = Some bi → j !! k = Some bj → x !! k = Some v →
     stored_value (snd res)
       (wrap_index (major_dim m) bi) (wrap_index (minor_dim m) bj) = v) ∧
  (∀ r c, 0 ≤ r < major_dim m → (r, c) ∉ coords →
     stored_value (snd res) r c = stored_value m r c).
Proof.
  intros Hwf Hsmall Hne Hj Hx Hi Hjr.
  destruct (zip3_proj i j x Hj Hx) as (Hpi & Hpj & Hpx).
  set (B := zip3 i j x) in *. clearbody B. subst i j x.
  cbv zeta. rewrite batch_coord_zip.
  assert (B ≠ []) as HB by (intros ->; by apply Hne).
  apply Forall_fmap in Hi. apply Forall_fmap in Hjr.
  split; [by apply set_many_format|]. split.
  - intros Hnd k bi bj v Hbi Hbj Hv.
    apply list_lookup_fmap_Some in Hbi as (e & -> & He).
    apply list_lookup_fmap_Some in Hbj as (e' & -> & He').
    apply list_lookup_fmap_Some in Hv as (e'' & -> & He'').
    assert (e' = e) as -> by congruence.
    assert (e'' = e) as -> by congruence.
    apply (set_many_value_batch m B Hwf Hsmall Hi Hjr HB Hnd e).
    by eapply list_elem_of_lookup_2.
  - intros r c Hr Hnot. by apply set_many_value_other.
Qed.













(** ** Batch zero *)




(** ** Summing duplicates *)

(** X22: [sum_duplicates] is idempotent.  Whatever the conversion through
    the COO format does, once a call of [sum_duplicates] has returned
    normally a second call returns at once: it launches no check kernel
    and leaves the object, arrays and cached flags, exactly as the first
    call left it; and [has_canonical_format] then reads [True]. *)
Theorem sum_duplicates_twice (rebuild : matrix → outcome unit * matrix)
    (m : matrix) :
  fst (sum_duplicates rebuild m) = Ok tt →
  let m' := snd (sum_duplicates rebuild m) in
  sum_duplicates rebuild m' = (Ok tt, m') ∧
  get_has_canonical_format m' = FlagRead true m' false.
Proof.
  intros Hok m'. subst m'.
  assert (∀ a, read_value (get_has_canonical_format a) = true →
            get_has_canonical_format (read_self (get_has_canonical_format a))
            = FlagRead true (read_self (get_has_canonical_format a)) false)
    as Hread.
  { intros a Ha.
    unfold get_has_canonical_format in *.
    destruct (decide (size (data a) = 0)) as [Hz|Hnz]; simpl in *.
    { by rewrite decide_True. }
    destruct (_has_sorted_indices a) as [[]|] eqn:Es; simpl in *; try done.
    all: destruct (_has_canonical_format a) as [v|] eqn:Ec; simpl in *.
    all: rewrite decide_False by done; rewrite Es, ?Ec; simpl; congruence. }
  assert (∀ a, get_has_canonical_format (set_has_canonical_format a true)
               = FlagRead true (set_has_canonical_format a true) false)
    as Hset.
  { intros a. unfold get_has_canonical_format. simpl.
    by destruct (decide (size (data a) = 0)). }
  unfold sum_duplicates in *. cbv zeta in *.
  destruct (read_value (get_has_canonical_format m)) eqn:Hv.
  - cbn [snd]. rewrite (Hread m Hv). by cbn [read_value read_self].
  - destruct (rebuild (read_self (get_has_canonical_format m)))
      as [[u|e] m1] eqn:Hr; [|discriminate Hok].
    cbn [snd]. rewrite (Hset m1). by cbn [read_value read_self].
Qed.

Lemma sum_duplicates_twice_witness :
  let rebuild := λ m : matrix,
    (Ok tt, Matrix CSR (2, 4) [3%float; 3%float] [0; 3] [0; 1; 2]
              (_has_sorted_indices m) (_has_canonical_format m)) in
  let m := Matrix CSR (2, 4) [1%float; 2%float; 3%float] [0; 0; 3] [0; 2; 3]
                  None None in
  let m' := snd (sum_duplicates rebuild m) in
  data m' = [3%float; 3%float] ∧ sum_duplicates rebuild m' = (Ok tt, m').
Proof.
  intros rebuild m m'.
  destruct (sum_duplicates_twice rebuild m) as [Htwice _].
  - reflexivity.
  - split; [reflexivity|exact Htwice].
Defined.

(** ** Which index a failed bounds check reports *)




(** ** The gap of a row in canonical order *)




(** ** Minor-axis fancy indexing by all positions in order *)

Lemma range_len_all (n : Z) : 0 ≤ n → range_len 0 n 1 = n.
Proof.
  intros Hn. unfold range_len.
  destruct (decide (0 < 1 ∧ 0 < n)) as [_|H].
  - rewrite Z.div_1_r. lia.
  - rewrite decide_False by lia. lia.
Qed.

Lemma slice_entry_all (n : Z) (cv : Z * float) :
  0 ≤ fst cv < n → slice_entry 0 1 n cv = [cv].
Proof.
  intros Hc. unfold slice_entry, slice_pos.
  rewrite Z.sub_0_r, Z.div_1_r.
  rewrite decide_True by lia. simpl. by destruct cv.
Qed.

(** X25: indexing the minor axis by all its positions in order changes
    nothing.  On a well-formed matrix (minor dimension and nnz below
    [2^31]) [_minor_index_fancy] with the index array [arange(N)] returns a
    well-formed matrix of the same format, dimensions and number of stored
    entries, every major row of which holds the entries it held. *)
Theorem minor_index_fancy_identity (sched : Z → list Z) (m : matrix) :
  wf_matrix m →
  (∀ r, 0 ≤ r < major_dim m → sched r ≡ₚ in_order (indptr m) r) →
  0 ≤ minor_dim m < 2 ^ 31 → nnz m < 2 ^ 31 →
  ∃ B, _minor_index_fancy sched m (arange 0 (minor_dim m) 1) = Ok B ∧
       wf_matrix B ∧ fmt B = fmt m ∧
       major_dim B = major_dim m ∧ minor_dim B = minor_dim m ∧
       nnz B = nnz m ∧
       ∀ r, 0 ≤ r < major_dim m → row_entries B r ≡ₚ row_entries m r.
Proof.
  intros Hwf Hsched HN Hnnz.
  assert (∀ r, 0 ≤ r < major_dim m →
            mjoin (expand_entry (arange 0 (minor_dim m) 1)
                     <$> row_entries m r) = row_entries m r) as Hrow.
  { intros r Hr.
    rewrite (mjoin_singletons _ id); [by rewrite list_fmap_id|].
    eapply Forall_impl; [apply (row_entries_range m r Hwf Hr)|].
    intros cv Hcv. simpl in Hcv. rewrite expand_entry_arange by done.
    rewrite range_len_all by lia. by apply slice_entry_all. }
  assert (fancy_nnz m (arange 0 (minor_dim m) 1) = nnz m) as Hout.
  { unfold fancy_nnz. rewrite <- (sum_row_lengths m Hwf).
    f_equal. apply list_fmap_ext. intros k r Hk.
    apply lookup_seqZ in Hk as [-> Hk]. rewrite Hrow by lia. done. }
  destruct (minor_index_fancy_result sched m (arange 0 (minor_dim m) 1))
    as (B & HB & Hfmt & HM & HNd & HwfB & HnnzB & _ & _ & Hrows); try done.
  - rewrite arange_range_len by done.
    apply Forall_fmap, Forall_forall. intros c Hc. simpl.
    apply elem_of_seqZ in Hc. rewrite range_len_all in Hc by lia. lia.
  - rewrite size_arange by done. rewrite range_len_all by lia. lia.
  - lia.
  - exists B. split; [done|]. split; [done|]. split; [done|].
    split; [done|]. split.
    { rewrite HNd, size_arange by done. apply range_len_all. lia. }
    split; [lia|].
    intros r Hr. rewrite (Hrows r Hr). by rewrite Hrow.
Qed.

Lemma minor_index_fancy_identity_witness :
  let m := Matrix CSR (2, 3) [5%float; 6%float] [1; 2] [0; 1; 2] None None in
  ∃ B, _minor_index_fancy (in_order (indptr m)) m (arange 0 3 1) = Ok B ∧
       row_entries B 1 ≡ₚ row_entries m 1.
Proof.
  intros m.
  destruct (minor_index_fancy_identity (in_order (indptr m)) m)
    as (B & HB & _ & _ & _ & _ & _ & Hrows).
  - unfold wf_matrix. by_compute.
  - done.
  - by_compute.
  - by vm_compute.
  - exists B. split; [exact HB|]. apply (Hrows 1). by_compute.
Defined.

(** ** Cached flags stay valid under assignment *)

Lemma merge_sublist_l {A} (R : relation A) `{!RelDecision R}
    (l1 l2 : list A) :
  l1 `sublist_of` list_merge R l1 l2.
Proof.
  revert l2. induction l1 as [|x1 l1 IH1]; intros l2.
  { apply sublist_nil_l. }
  induction l2 as [|x2 l2 IH2].
  { by rewrite list_merge_nil_r. }
  rewrite list_merge_cons. case_decide.
  - apply sublist_skip, IH1.
  - apply sublist_cons, IH2.
Qed.

Lemma StronglySorted_sublist {A} (R : relation A) (l1 l2 : list A) :
  l1 `sublist_of` l2 → StronglySorted R l2 → StronglySorted R l1.
Proof.
  induction 1 as [|x l1 l2 Hsub IH|x l1 l2 Hsub IH]; intros Hs.
  - constructor.
  - apply StronglySorted_inv in Hs as [Hs Hall].
    constructor; [by apply IH|].
    apply Forall_forall. intros y Hy. rewrite Forall_forall in Hall.
    apply Hall. by eapply elem_of_sublist.
  - apply StronglySorted_inv in Hs as [Hs _]. by apply IH.
Qed.

Lemma Sorted_sublist {A} (R : relation A) `{!Transitive R}
    (l1 l2 : list A) :
  l1 `sublist_of` l2 → Sorted R l2 → Sorted R l1.
Proof.
  intros Hsub Hs. apply StronglySorted_Sorted.
  apply (StronglySorted_sublist R l1 l2 Hsub).
  by apply Sorted_StronglySorted.
Qed.

#[local] Instance minor_le_trans :
  Transitive (λ a b : Z * float, fst a ≤ fst b).
Proof. intros a b c. lia. Qed.

#[local] Instance minor_lt_trans : Transitive minor_lt.
Proof. intros a b c. unfold minor_lt. lia. Qed.

(** Rows that are sorted, or in increasing order, after a batch insertion
    were so before it. *)
Lemma insert_many_order_back (m : matrix) (i j : list Z) (x : list float) :
  wf_matrix m → length j = length i → length x = length i →
  Forall (λ v, 0 ≤ v < major_dim m) i →
  Forall (λ c, 0 ≤ c < minor_dim m) j →
  (rows_sorted (_insert_many m i j x) → rows_sorted m) ∧
  (rows_canonical (_insert_many m i j x) → rows_canonical m).
Proof.
  intros Hwf Hj Hx Hi Hjr.
  destruct (insert_many_wf_result m i j x Hwf Hj Hx Hi Hjr)
    as (Hwf' & Hfmt & Hshape).
  destruct (insert_many_rows m i j x Hwf Hj Hx Hi) as [_ Hrows].
  cbv zeta in Hrows.
  assert (major_dim (_insert_many m i j x) = major_dim m) as HM
    by (unfold major_dim; by rewrite Hfmt, Hshape).
  split.
  - intros Hs. apply (rows_sorted_iff m Hwf). intros r Hr.
    apply (proj1 (rows_sorted_iff _ Hwf')) with (r := r) in Hs;
      [|by rewrite HM].
    rewrite Hrows in Hs by done.
    eapply Sorted_sublist; [apply _| |exact Hs]. apply merge_sublist_l.
  - intros Hc. apply (rows_canonical_iff m Hwf). intros r Hr.
    apply (proj1 (rows_canonical_iff _ Hwf')) with (r := r) in Hc;
      [|by rewrite HM].
    rewrite Hrows in Hc by done.
    eapply Sorted_sublist; [apply _| |exact Hc]. apply merge_sublist_l.
Qed.

Lemma set_many_order_back (m : matrix) (B : list entry) :
  wf_matrix m → nnz m ≤ 2 ^ 24 + 1 →
  Forall (λ e, - major_dim m ≤ e_major e < major_dim m) B →
  Forall (λ e, - minor_dim m ≤ e_minor e < minor_dim m) B →
  B ≠ [] →
  let res := _set_many m (e_major <$> B) (e_minor <$> B) (e_value <$> B) in
  (rows_sorted (snd res) → rows_sorted m) ∧
  (rows_canonical (snd res) → rows_canonical m).
Proof.
  intros Hwf Hsmall Hi Hj HB. cbv zeta.
  rewrite (set_many_unfold m B Hwf Hsmall Hi Hj HB).
  destruct (decide (batch_misses m B = [])) as [Hnil|Hsome].
  - cbn [snd]. split; intros H; exact H.
  - cbn [snd].
    destruct (insert_many_order_back (set_data m (written_data m B))
                (fst ∘ batch_coord m <$> batch_misses m B)
                (snd ∘ batch_coord m <$> batch_misses m B)
                (e_value <$> batch_misses m B)) as [Hs Hc].
    + apply (wf_written m B Hwf).
    + by rewrite !length_fmap.
    + by rewrite !length_fmap.
    + by apply insert_batch_major.
    + by apply insert_batch_minor.
    + split; [exact Hs|exact Hc].
Qed.

(** X26: the cached flags stay valid under assignment.  On a well-formed
    matrix of at most [2^24 + 1] stored entries, [_set_many] on a non-empty
    in-bounds batch leaves the attributes [_has_sorted_indices] and
    [_has_canonical_format] as they were, and the rows of the object are
    sorted after the call exactly when they were before it, and in
    canonical order after the call exactly when they were before it: a
    flag that was right before the call, true or false, is right after
    it. *)
Theorem set_many_flags_stay_valid (m : matrix) (i j : list Z)
    (x : list float) :
  wf_matrix m → nnz m ≤ 2 ^ 24 + 1 →
  i ≠ [] → length j = length i → length x = length i →
  Forall (λ v, - major_dim m ≤ v < major_dim m) i →
  Forall (λ v, - minor_dim m ≤ v < minor_dim m) j →
  let m' := snd (_set_many m i j x) in
  _has_sorted_indices m' = _has_sorted_indices m ∧
  _has_canonical_format m' = _has_canonical_format m ∧
  (rows_sorted m' ↔ rows_sorted m) ∧
  (rows_canonical m' ↔ rows_canonical m).
Proof.
  intros Hwf Hsmall Hne Hj Hx Hi Hjr m'. subst m'.
  destruct (_set_many_flags m i j x) as [Hfs Hfc].
  split; [exact Hfs|]. split; [exact Hfc|].
  destruct (set_many_then_stored m i j x Hwf Hsmall Hne Hj Hx Hi Hjr)
    as ((_ & _ & _ & _ & Hs & Hc) & _).
  destruct (zip3_proj i j x Hj Hx) as (Hpi & Hpj & Hpx).
  assert (zip3 i j x ≠ []) as HB.
  { intros Hnil. rewrite Hnil in Hpi. by subst i. }
  rewrite <- Hpi in Hi. rewrite <- Hpj in Hjr.
  apply Forall_fmap in Hi. apply Forall_fmap in Hjr.
  pose proof (set_many_order_back m (zip3 i j x) Hwf Hsmall Hi Hjr HB)
    as [Hsb Hcb].
  cbv zeta in Hsb, Hcb. rewrite Hpi, Hpj, Hpx in Hsb, Hcb.
  split; split; auto.
Qed.

Lemma set_many_flags_stay_valid_witness :
  let m := Matrix CSR (3, 4) [7%float; 9%float; 8%float] [3; 1; 2]
                  [0; 2; 2; 3] (Some false) (Some false) in
  let m' := snd (_set_many m [0; -1; 1] [3; -1; -4]
                   [1%float; 2%float; 3%float]) in
  _has_sorted_indices m' = Some false ∧ ¬ rows_sorted m'.
Proof.
  intros m m'.
  destruct (set_many_flags_stay_valid m [0; -1; 1] [3; -1; -4]
              [1%float; 2%float; 3%float]) as (Hfs & _ & Hs & _).
  - unfold wf_matrix. by_compute.
  - by vm_compute.
  - done.
  - reflexivity.
  - reflexivity.
  - by_compute.
  - by_compute.
  - split; [exact Hfs|]. intros Hsorted. apply Hs in Hsorted.
    apply (proj2 (launch_sorted_spec m)) in Hsorted. discriminate Hsorted.
Defined.
